(** * Pipe-network flow solver (HW6_2_2_OOP.py): a shallow embedding

    The development follows the Python source class by class: [Fluid],
    [Pipe], [Node], [Loop] and [PipeNetwork].  Python objects live in a
    store ([World]); a method is a function of the receiver's address in
    the monad [Py] of store-passing computations that may raise.  A
    computation of [Py] that raises carries no store; for the statements
    about what an interrupted operation leaves behind, module
    [Interrupted] gives the writing methods a second time, with the store
    kept, and the two readings are proved to agree.

    Numbers.  Python floats are modelled as exact rationals ([Qc], with
    Leibniz equality); rounding, overflow and underflow are not modelled.
    [math.pi] is the rational that the double [3.141592653589793] denotes.
    A division whose divisor is not a non-zero literal raises
    [ZeroDivisionError] on a zero divisor, as Python's float division
    does.

    External code.  [scipy.optimize.fsolve], [x ** 0.5] and [numpy.log10]
    are not part of the repository: they are parameters of the development.
    [fsolve] is a strategy tree ([Solver]): from the initial guess it decides
    which points to probe, sees the value returned by each probe, and
    eventually stops with an answer.  [random.normalvariate mu sigma]
    returns [mu + z * sigma] for a deviate [z] produced by the module-level
    generator; the store carries the deviates still to come. *)

From Stdlib Require Import QArith Qcanon.
From Stdlib Require Qcabs.
From Stdlib Require Import Strings.String Strings.Ascii.
From stdpp Require Import base option list strings numbers.

Local Open Scope Qc_scope.

(** ** Numbers *)

(** Decimal literals of the source, as rationals. *)
Definition lit (q : Q) : Qc := Q2Qc q.
Arguments lit q%_Q.

(** [math.pi]: the value of the double 0x1.921fb54442d18p+1. *)
Definition math_pi : Qc := lit (884279719003555 # 281474976710656).

Definition Qc_leb (x y : Qc) : bool := Qle_bool x y.
Definition Qc_eqb (x y : Qc) : bool := Qeq_bool x y.

(** ** Exceptions and results *)

Inductive PyExn : Set :=
| ZeroDivisionError
| IndexError
| AttributeError
| DanglingAddress. (* store lookup outside the store: no Python counterpart *)

Inductive Res (T : Type) : Type :=
| Ok (a : T)
| Raise (e : PyExn).
Arguments Ok {T} a.
Arguments Raise {T} e.

#[global] Instance PyExn_eq_dec : EqDecision PyExn.
Proof. solve_decision. Defined.

(** Python's [x / y] on floats. *)
Definition pydiv (x y : Qc) : Res Qc :=
  if Qc_eqb y 0 then Raise ZeroDivisionError else Ok (x / y).

(** ** Objects *)

(** Addresses of objects in the store. *)
Abbreviation addr := nat (only parsing).

Module Fluid.
Record t : Set := mk {
  mu : Qc;   (* dynamic viscosity in Pa*s *)
  rho : Qc;  (* density in kg/m^3 *)
  nu : Qc    (* kinematic viscosity in m^2/s *)
}.
End Fluid.

Module Pipe.
Record t : Set := mk {
  startNode : string;
  endNode : string;
  length : Qc;
  diameter : Qc;   (* in m *)
  r : Qc;
  fluid : Fluid.t;
  A : Qc;          (* cross-sectional area *)
  Q : Qc;          (* flow rate in L/s *)
  vel : Qc;        (* velocity in m/s, as last stored by V *)
  reynolds : Qc    (* Reynolds number, as last stored by Re *)
}.

Definition with_Q (q : Qc) (p : t) : t :=
  mk (startNode p) (endNode p) (length p) (diameter p) (r p) (fluid p)
     (A p) q (vel p) (reynolds p).
Definition with_vel (v : Qc) (p : t) : t :=
  mk (startNode p) (endNode p) (length p) (diameter p) (r p) (fluid p)
     (A p) (Q p) v (reynolds p).
Definition with_reynolds (x : Qc) (p : t) : t :=
  mk (startNode p) (endNode p) (length p) (diameter p) (r p) (fluid p)
     (A p) (Q p) (vel p) x.
End Pipe.

Module Node.
Record t : Set := mk {
  name : string;
  pipes : addr;    (* the list object holding the connected pipes *)
  extFlow : Qc     (* external flow into (+) or out (-) of the node, L/s *)
}.
End Node.

Module Loop.
Record t : Set := mk {
  name : string;
  pipes : addr     (* the list object holding the pipes of the loop *)
}.
End Loop.

Module PipeNetwork.
Record t : Set := mk {
  loops : addr;    (* list object of Loop addresses *)
  nodes : addr;    (* list object of Node addresses *)
  fluid : Fluid.t;
  pipes : addr     (* list object of Pipe addresses *)
}.
End PipeNetwork.

(** ** The store *)

Record World : Type := mkWorld {
  pipe_objs : list Pipe.t;        (* Pipe objects, by address *)
  node_objs : list Node.t;        (* Node objects, by address *)
  loop_objs : list Loop.t;        (* Loop objects, by address *)
  list_objs : list (list addr);   (* Python list objects, by address *)
  gauss : nat -> Qc;              (* deviates of the random generator, in order *)
  drawn : nat                     (* how many deviates have been consumed *)
}.

Definition set_pipe_objs (ps : list Pipe.t) (w : World) : World :=
  mkWorld ps (node_objs w) (loop_objs w) (list_objs w) (gauss w) (drawn w).
Definition set_node_objs (ns : list Node.t) (w : World) : World :=
  mkWorld (pipe_objs w) ns (loop_objs w) (list_objs w) (gauss w) (drawn w).
Definition set_loop_objs (ls : list Loop.t) (w : World) : World :=
  mkWorld (pipe_objs w) (node_objs w) ls (list_objs w) (gauss w) (drawn w).
Definition set_list_objs (ls : list (list addr)) (w : World) : World :=
  mkWorld (pipe_objs w) (node_objs w) (loop_objs w) ls (gauss w) (drawn w).
Definition set_drawn (n : nat) (w : World) : World :=
  mkWorld (pipe_objs w) (node_objs w) (loop_objs w) (list_objs w) (gauss w) n.

(** ** The monad of Python computations *)

Definition Py (T : Type) : Type := World -> Res (T * World).

Definition ret {T} (a : T) : Py T := fun w => Ok (a, w).
Definition raise {T} (e : PyExn) : Py T := fun _ => Raise e.
Definition bind {T U} (m : Py T) (k : T -> Py U) : Py U :=
  fun w => match m w with
           | Ok (a, w') => k a w'
           | Raise e => Raise e
           end.
Definition lift {T} (x : Res T) : Py T :=
  fun w => match x with Ok a => Ok (a, w) | Raise e => Raise e end.

Notation "'let*' x ':=' m 'in' k" := (bind m (fun x => k))
  (at level 10, x name, m at level 100, k at level 200, only parsing).

Definition get_pipe (a : addr) : Py Pipe.t :=
  fun w => match pipe_objs w !! a with
           | Some p => Ok (p, w)
           | None => Raise DanglingAddress
           end.
Definition put_pipe (a : addr) (p : Pipe.t) : Py unit :=
  fun w => Ok (tt, set_pipe_objs (<[a := p]> (pipe_objs w)) w).
Definition get_node (a : addr) : Py Node.t :=
  fun w => match node_objs w !! a with
           | Some n => Ok (n, w)
           | None => Raise DanglingAddress
           end.
Definition get_loop (a : addr) : Py Loop.t :=
  fun w => match loop_objs w !! a with
           | Some l => Ok (l, w)
           | None => Raise DanglingAddress
           end.
Definition get_list (a : addr) : Py (list addr) :=
  fun w => match list_objs w !! a with
           | Some l => Ok (l, w)
           | None => Raise DanglingAddress
           end.

(** [l.append(x)] on the list object at [a]. *)
Definition list_append (a : addr) (x : addr) : Py unit :=
  let* l := get_list a in
  fun w => Ok (tt, set_list_objs (<[a := l ++ [x]]> (list_objs w)) w).

(** A list display [[...]]: a new list object. *)
Definition new_list (l : list addr) : Py addr :=
  fun w => Ok (List.length (list_objs w), set_list_objs (list_objs w ++ [l]) w).

Definition new_pipe (p : Pipe.t) : Py addr :=
  fun w => Ok (List.length (pipe_objs w), set_pipe_objs (pipe_objs w ++ [p]) w).
Definition new_node (n : Node.t) : Py addr :=
  fun w => Ok (List.length (node_objs w), set_node_objs (node_objs w ++ [n]) w).
Definition new_loop (l : Loop.t) : Py addr :=
  fun w => Ok (List.length (loop_objs w), set_loop_objs (loop_objs w ++ [l]) w).

(** [random.normalvariate(mu, sigma)]. *)
Definition normalvariate (m sigma : Qc) : Py Qc :=
  fun w => Ok (m + gauss w (drawn w) * sigma, set_drawn (S (drawn w)) w).

(** Python's [min(a, b)] and [max(a, b)] on strings: the first argument is
    kept unless the second is strictly smaller (resp. strictly larger). *)
Definition py_min (a b : string) : string := if String.ltb b a then b else a.
Definition py_max (a b : string) : string := if String.ltb a b then b else a.

(** [x ** 2]. *)
Definition sq (x : Qc) : Qc := x * x.

(** ** The external root finder *)

(** A run of [fsolve]: probe the function at [q] and continue according to
    the value seen, or stop with the answer [x]. *)
Inductive Solver : Type :=
| Stop (x : list Qc)
| Probe (q : list Qc) (next : list Qc -> Solver).

(** [fsolve] applied to a function without effects. *)
Fixpoint solve (s : Solver) (f : list Qc -> list Qc) : list Qc :=
  match s with
  | Stop x => x
  | Probe q next => solve (next (f q)) f
  end.

(** [fsolve] applied to a function that reads and writes the store. *)
Fixpoint solveM (s : Solver) (f : list Qc -> Py (list Qc)) : Py (list Qc) :=
  match s with
  | Stop x => ret x
  | Probe q next => let* y := f q in solveM (next y) f
  end.

(** The run of the solver [s] on [f] from the store [w] makes at least one
    probe, the last one at [q]: that probe returns [r] and leaves the store
    [w'], and the solver then stops with the answer [x]. *)
Inductive last_probe (f : list Qc -> Py (list Qc))
  : Solver -> World -> list Qc -> list Qc -> list Qc -> World -> Prop :=
| last_probe_here q next w r w' x :
    f q w = Ok (r, w') -> next r = Stop x ->
    last_probe f (Probe q next) w q r x w'
| last_probe_later q0 next w r0 w0 q r x w' :
    f q0 w = Ok (r0, w0) -> last_probe f (next r0) w0 q r x w' ->
    last_probe f (Probe q0 next) w q r x w'.

(** In the run of the solver [s] on [f] from the store [w], which ends
    with the answer [x] in the store [w'], [f] is evaluated at [q] and
    returns [r]. *)
Inductive probed (f : list Qc -> Py (list Qc))
  : Solver -> World -> list Qc -> list Qc -> list Qc -> World -> Prop :=
| probed_here q next w r w1 x w' :
    f q w = Ok (r, w1) -> solveM (next r) f w1 = Ok (x, w') ->
    probed f (Probe q next) w q r x w'
| probed_later q0 next w r0 w0 q r x w' :
    f q0 w = Ok (r0, w0) -> probed f (next r0) w0 q r x w' ->
    probed f (Probe q0 next) w q r x w'.

(** ** class Fluid *)

Definition Fluid_init (mu rho : Qc) : Res Fluid.t :=
  match pydiv mu rho with
  | Ok nu => Ok (Fluid.mk mu rho nu)
  | Raise e => Raise e
  end.

(** The default arguments [mu=0.00089, rho=1000]. *)
Definition Fluid_default : Fluid.t :=
  Fluid.mk (lit 0.00089) (lit 1000) (lit 0.00089 / lit 1000).

(** ** class Pipe *)

Definition set_Q (self : addr) (q : Qc) : Py unit :=
  let* p := get_pipe self in put_pipe self (Pipe.with_Q q p).

Definition V (self : addr) : Py Qc :=
  let* p := get_pipe self in
  let* v := lift (pydiv (Pipe.Q p / lit 1000) (Pipe.A p)) in
  let* _ := put_pipe self (Pipe.with_vel v p) in
  ret v.

Definition Re (self : addr) : Py Qc :=
  let* p := get_pipe self in
  let* x := lift (pydiv (Fluid.rho (Pipe.fluid p) * Pipe.vel p * Pipe.diameter p)
                        (Fluid.mu (Pipe.fluid p))) in
  let* _ := put_pipe self (Pipe.with_reynolds x p) in
  ret x.

(** [Pipe.__init__], all arguments given: the object is created with
    [Q = 10]; [vel] and [reynolds] do not exist until [V()] and [Re()] have
    stored them (the placeholders [0] are never read). *)
Definition Pipe_init (Start End : string) (L D r : Qc) (fluid : Fluid.t)
  : Py addr :=
  let startNode := py_min Start End in
  let endNode := py_max Start End in
  let diameter := D / lit 1000 in
  let A := math_pi * sq (diameter / lit 2) in
  let* self := new_pipe (Pipe.mk startNode endNode L diameter r fluid A (lit 10) 0 0) in
  let* _ := V self in
  let* _ := Re self in
  ret self.

Definition Name (self : addr) : Py string :=
  let* p := get_pipe self in
  ret (Pipe.startNode p ++ "-" ++ Pipe.endNode p)%string.

Definition oContainsNode (self : addr) (node : string) : Py bool :=
  let* p := get_pipe self in
  ret (String.eqb (Pipe.startNode p) node || String.eqb (Pipe.endNode p) node).

Definition getFlowIntoNode (self : addr) (n : string) : Py Qc :=
  let* p := get_pipe self in
  if String.eqb n (Pipe.startNode p) then ret (- Pipe.Q p) else ret (Pipe.Q p).

Section Hydraulics.

(** [scipy.optimize.fsolve(_, x0)], [_ ** 0.5] and [numpy.log10]. *)
Variable fsolve : list Qc -> Solver.
Variable sqrt : Qc -> Qc.
Variable log10 : Qc -> Qc.

(** The lambda [cb] of [FrictionFactor], on one component; numpy applies
    it componentwise and never raises (where numpy yields [inf] or [nan],
    the division of rationals yields 0). *)
Definition cb (rr Re f : Qc) : Qc :=
  1 / sqrt f + lit 2 * log10 (rr / lit 3.7 + lit 2.51 / (Re * sqrt f)).

(** The local function [CB]: [fsolve(cb, [0.01])], then [result[0]]. *)
Definition CB (rr Re : Qc) : Res Qc :=
  match solve (fsolve [lit 0.01]) (map (cb rr Re)) !! 0%nat with
  | Some f => Ok f
  | None => Raise IndexError
  end.

(** The local function [lam]. *)
Definition lam (Re : Qc) : Res Qc := pydiv (lit 64) Re.

Definition FrictionFactor (self : addr) : Py Qc :=
  let* Re := Re self in
  let* p := get_pipe self in
  let* rr := lift (pydiv (Pipe.r p) (Pipe.diameter p)) in
  if Qc_leb (lit 4000) Re then lift (CB rr Re)
  else if Qc_leb Re (lit 2000) then lift (lam Re)
  else
    let* CBff := lift (CB rr Re) in
    let* Lamff := lift (lam Re) in
    let mean := Lamff + ((Re - lit 2000) / (lit 4000 - lit 2000)) * (CBff - Lamff) in
    let sig := lit 0.2 * mean in
    normalvariate mean sig.

Definition frictionHeadLoss (self : addr) : Py Qc :=
  let g := lit 9.81 in
  let* ff := FrictionFactor self in
  let* p := get_pipe self in
  let* t := lift (pydiv (ff * Pipe.length p) (Pipe.diameter p)) in
  ret (t * (sq (Pipe.vel p) / (lit 2 * g))).

Definition getFlowHeadLoss (self : addr) (s : string) : Py Qc :=
  let* p := get_pipe self in
  let nTraverse : Qc := if String.eqb s (Pipe.startNode p) then 1 else - (1) in
  let nFlow : Qc := if Qc_leb 0 (Pipe.Q p) then 1 else - (1) in
  let* hl := frictionHeadLoss self in
  ret (nTraverse * nFlow * hl).

End Hydraulics.

(** ** Default arguments

    A default argument is evaluated once, when the [def] is executed: the
    three classes with a list default own five list objects between them,
    created when the module is loaded. *)

Definition Node_default_Pipes : addr := 0%nat.
Definition Loop_default_Pipes : addr := 1%nat.
Definition PipeNetwork_default_Pipes : addr := 2%nat.
Definition PipeNetwork_default_Loops : addr := 3%nat.
Definition PipeNetwork_default_Nodes : addr := 4%nat.

(** The store once the class definitions have been executed. *)
Definition module_loaded (g : nat -> Qc) : World :=
  mkWorld [] [] [] [ []; []; []; []; [] ] g 0.

(** ** class Node *)

(** [Node.__init__(Name='a', Pipes=[], ExtFlow=0)]; [None] stands for an
    argument left out. *)
Definition Node_init (Name : option string) (Pipes : option addr)
    (ExtFlow : option Qc) : Py addr :=
  new_node (Node.mk (default "a"%string Name)
                    (default Node_default_Pipes Pipes)
                    (default 0 ExtFlow)).

Fixpoint add_flows (name : string) (ps : list addr) (Qtot : Qc) : Py Qc :=
  match ps with
  | [] => ret Qtot
  | p :: ps' =>
      let* f := getFlowIntoNode p name in
      add_flows name ps' (Qtot + f / lit 1000)
  end.

Definition getNetFlowRate (self : addr) : Py Qc :=
  let* n := get_node self in
  let Qtot := Node.extFlow n / lit 1000 in
  let* ps := get_list (Node.pipes n) in
  add_flows (Node.name n) ps Qtot.

(** ** class Loop *)

Definition Loop_init (Name : option string) (Pipes : option addr) : Py addr :=
  new_loop (Loop.mk (default "A"%string Name)
                    (default Loop_default_Pipes Pipes)).

(** The conditional expression that moves the traversal to the next node. *)
Definition next_node (startNode : string) (p : Pipe.t) : string :=
  if negb (String.eqb startNode (Pipe.endNode p))
  then Pipe.endNode p else Pipe.startNode p.

Section Network.

Variable fsolve : list Qc -> Solver.
Variable sqrt : Qc -> Qc.
Variable log10 : Qc -> Qc.

(** The [for] loop of [getLoopHeadLoss]. *)
Fixpoint add_head_losses (ps : list addr) (startNode : string) (deltaP : Qc)
  : Py Qc :=
  match ps with
  | [] => ret deltaP
  | p :: ps' =>
      let* phl := getFlowHeadLoss fsolve sqrt log10 p startNode in
      let* P := get_pipe p in
      add_head_losses ps' (next_node startNode P) (deltaP + phl)
  end.

Definition getLoopHeadLoss (self : addr) : Py Qc :=
  let* l := get_loop self in
  let deltaP := 0 in
  let* ps := get_list (Loop.pipes l) in
  match ps with
  | [] => raise IndexError
  | p0 :: _ =>
      let* P0 := get_pipe p0 in
      add_head_losses ps (Pipe.startNode P0) deltaP
  end.

(** ** class PipeNetwork *)

Definition PipeNetwork_init (Pipes Loops Nodes : option addr)
    (fluid : option Fluid.t) : PipeNetwork.t :=
  PipeNetwork.mk (default PipeNetwork_default_Loops Loops)
                 (default PipeNetwork_default_Nodes Nodes)
                 (default Fluid_default fluid)
                 (default PipeNetwork_default_Pipes Pipes).

(** A list comprehension [[f(x) for x in xs]]. *)
Fixpoint comprehension (f : addr -> Py Qc) (xs : list addr) : Py (list Qc) :=
  match xs with
  | [] => ret []
  | x :: xs' =>
      let* y := f x in
      let* ys := comprehension f xs' in
      ret (y :: ys)
  end.

Definition getNodeFlowRates (self : PipeNetwork.t) : Py (list Qc) :=
  let* ns := get_list (PipeNetwork.nodes self) in
  comprehension getNetFlowRate ns.

Definition getLoopHeadLosses (self : PipeNetwork.t) : Py (list Qc) :=
  let* ls := get_list (PipeNetwork.loops self) in
  comprehension getLoopHeadLoss ls.

(** [for i in range(len(self.pipes)): self.pipes[i].Q = q[i]], from index
    [i] on; [ps] are the pipes from that index. *)
Fixpoint set_flows (ps : list addr) (i : nat) (q : list Qc) : Py unit :=
  match ps with
  | [] => ret tt
  | p :: ps' =>
      match q !! i with
      | None => raise IndexError
      | Some x => let* _ := set_Q p x in set_flows ps' (S i) q
      end
  end.

(** The local function [fn] of [findFlowRates]. *)
Definition fn (self : PipeNetwork.t) (q : list Qc) : Py (list Qc) :=
  let* ps := get_list (PipeNetwork.pipes self) in
  let* _ := set_flows ps 0 q in
  let* L := getNodeFlowRates self in
  let* L' := getLoopHeadLosses self in
  ret (L ++ L').

Definition findFlowRates (self : PipeNetwork.t) : Py (list Qc) :=
  let* ns := get_list (PipeNetwork.nodes self) in
  let* ls := get_list (PipeNetwork.loops self) in
  let N := (List.length ns + List.length ls)%nat in
  let Q0 := repeat (lit 10) N in
  solveM (fsolve Q0) (fn self).

End Network.

(** ** Building the network *)

(** [getPipe]: the first pipe with that name; Python's [None] when the
    loop falls through. *)
Fixpoint find_pipe (name : string) (ps : list addr) : Py (option addr) :=
  match ps with
  | [] => ret None
  | p :: ps' =>
      let* n := Name p in
      if String.eqb name n then ret (Some p) else find_pipe name ps'
  end.

Definition getPipe (self : PipeNetwork.t) (name : string) : Py (option addr) :=
  let* ps := get_list (PipeNetwork.pipes self) in find_pipe name ps.

Fixpoint collect_pipes (node : string) (ps : list addr) (l : addr) : Py unit :=
  match ps with
  | [] => ret tt
  | p :: ps' =>
      let* c := oContainsNode p node in
      let* _ := (if c then list_append l p else ret tt) in
      collect_pipes node ps' l
  end.

Definition getNodePipes (self : PipeNetwork.t) (node : string) : Py addr :=
  let* l := new_list [] in
  let* ps := get_list (PipeNetwork.pipes self) in
  let* _ := collect_pipes node ps l in
  ret l.

Fixpoint find_node (name : string) (ns : list addr) : Py (option addr) :=
  match ns with
  | [] => ret None
  | n :: ns' =>
      let* N := get_node n in
      if String.eqb (Node.name N) name then ret (Some n) else find_node name ns'
  end.

Definition nodeBuilt (self : PipeNetwork.t) (node : string) : Py bool :=
  let* ns := get_list (PipeNetwork.nodes self) in
  let* r := find_node node ns in
  ret (match r with Some _ => true | None => false end).

Definition getNode (self : PipeNetwork.t) (name : string) : Py (option addr) :=
  let* ns := get_list (PipeNetwork.nodes self) in find_node name ns.

Definition build_node (self : PipeNetwork.t) (name : string) : Py unit :=
  let* b := nodeBuilt self name in
  if negb b then
    let* l := getNodePipes self name in
    let* n := Node_init (Some name) (Some l) None in
    list_append (PipeNetwork.nodes self) n
  else ret tt.

Fixpoint build_nodes_from (self : PipeNetwork.t) (ps : list addr) : Py unit :=
  match ps with
  | [] => ret tt
  | p :: ps' =>
      let* P := get_pipe p in
      let* _ := build_node self (Pipe.startNode P) in
      let* P' := get_pipe p in
      let* _ := build_node self (Pipe.endNode P') in
      build_nodes_from self ps'
  end.

Definition buildNodes (self : PipeNetwork.t) : Py unit :=
  let* ps := get_list (PipeNetwork.pipes self) in
  build_nodes_from self ps.


(** ** The network of [main] *)

(** Use of a value that may be [None] as an object. *)
Definition expect (o : option addr) : Py addr :=
  match o with Some a => ret a | None => raise AttributeError end.

Definition set_extFlow (n : addr) (x : Qc) : Py unit :=
  let* N := get_node n in
  fun w => Ok (tt, set_node_objs
                     (<[n := Node.mk (Node.name N) (Node.pipes N) x]> (node_objs w)) w).

Fixpoint add_pipes (PN : PipeNetwork.t) (water : Fluid.t) (roughness : Qc)
    (l : list (string * string * Qc * Qc)) : Py unit :=
  match l with
  | [] => ret tt
  | (s, e, L, D) :: l' =>
      let* p := Pipe_init s e L D roughness water in
      let* _ := list_append (PipeNetwork.pipes PN) p in
      add_pipes PN water roughness l'
  end.

Fixpoint pipes_named (PN : PipeNetwork.t) (names : list string) : Py (list addr) :=
  match names with
  | [] => ret []
  | n :: names' =>
      let* o := getPipe PN n in
      let* p := expect o in
      let* ps := pipes_named PN names' in
      ret (p :: ps)
  end.

Definition add_loop (PN : PipeNetwork.t) (name : string) (names : list string)
  : Py unit :=
  let* ps := pipes_named PN names in
  let* l := new_list ps in
  let* lp := Loop_init (Some name) (Some l) in
  list_append (PipeNetwork.loops PN) lp.

Definition set_node_extFlow (PN : PipeNetwork.t) (name : string) (x : Qc)
  : Py unit :=
  let* o := getNode PN name in
  let* n := expect o in
  set_extFlow n x.

(** [main] up to the call of [findFlowRates]. *)
Definition main_network : Py PipeNetwork.t :=
  let* water := lift (Fluid_init (lit 0.00089) (lit 1000)) in
  let roughness := lit 0.00025 in
  let PN := PipeNetwork_init None None None None in
  let* _ := add_pipes PN water roughness
    [ ("a", "b", lit 250, lit 300); ("a", "c", lit 100, lit 200);
      ("b", "e", lit 100, lit 200); ("c", "d", lit 125, lit 200);
      ("c", "f", lit 100, lit 150); ("d", "e", lit 125, lit 200);
      ("d", "g", lit 100, lit 150); ("e", "h", lit 100, lit 150);
      ("f", "g", lit 125, lit 250); ("g", "h", lit 125, lit 250) ]%string in
  let* _ := buildNodes PN in
  let* _ := set_node_extFlow PN "a" (lit 60) in
  let* _ := set_node_extFlow PN "d" (- lit 30) in
  let* _ := set_node_extFlow PN "f" (- lit 15) in
  let* _ := set_node_extFlow PN "h" (- lit 15) in
  let* _ := add_loop PN "A" ["a-b"; "b-e"; "d-e"; "c-d"; "a-c"]%string in
  let* _ := add_loop PN "B" ["c-d"; "d-g"; "f-g"; "c-f"]%string in
  let* _ := add_loop PN "C" ["d-e"; "e-h"; "g-h"; "d-g"]%string in
  ret PN.

(** ** Relations between stores *)

(** [m] relates, by [F], the store it starts in to the one it returns in. *)
Definition returns_in {T} (F : relation World) (m : Py T) : Prop :=
  forall w x w', m w = Ok (x, w') -> F w w'.

(** No pipe is created or lost, the pipe at each address is related by [R]
    to what it was; nodes, loops and list objects are unchanged, and the
    random generator has only moved forward. *)
Definition hydro (R : relation Pipe.t) (w w' : World) : Prop :=
  Forall2 R (pipe_objs w) (pipe_objs w') /\
  node_objs w' = node_objs w /\
  loop_objs w' = loop_objs w /\
  list_objs w' = list_objs w /\
  gauss w' = gauss w /\
  (drawn w <= drawn w')%nat.

(** Every pipe is still at its address, related by [R] to what it was. *)
Definition pipes_keep (R : relation Pipe.t) (w w' : World) : Prop :=
  forall a p, pipe_objs w !! a = Some p ->
              exists p', pipe_objs w' !! a = Some p' /\ R p p'.

Definition same_endpoints (p p' : Pipe.t) : Prop :=
  Pipe.startNode p' = Pipe.startNode p /\ Pipe.endNode p' = Pipe.endNode p.

(** Everything but [Q] and [reynolds] is the same. *)
Definition same_but_Q_reynolds (p p' : Pipe.t) : Prop :=
  Pipe.startNode p' = Pipe.startNode p /\ Pipe.endNode p' = Pipe.endNode p /\
  Pipe.length p' = Pipe.length p /\ Pipe.diameter p' = Pipe.diameter p /\
  Pipe.r p' = Pipe.r p /\ Pipe.fluid p' = Pipe.fluid p /\
  Pipe.A p' = Pipe.A p /\ Pipe.vel p' = Pipe.vel p.

(** ** Client programs

    What a client of the classes can do next: construct an object, call a
    method, append to a list ([PN.pipes.append(_)]), assign an external flow
    ([n.extFlow = _]) or a flow rate ([p.Q = _]).  The printing methods only
    format what the methods below return. *)

Inductive Call : Type :=
| call_Node_init (Name : option string) (Pipes : option addr) (ExtFlow : option Qc)
| call_getNetFlowRate (n : addr)
| call_Loop_init (Name : option string) (Pipes : option addr)
| call_getLoopHeadLoss (l : addr)
| call_Pipe_init (Start End : string) (L D r : Qc) (fluid : Fluid.t)
| call_V (p : addr)
| call_Re (p : addr)
| call_FrictionFactor (p : addr)
| call_frictionHeadLoss (p : addr)
| call_getFlowHeadLoss (p : addr) (s : string)
| call_Name (p : addr)
| call_oContainsNode (p : addr) (node : string)
| call_getFlowIntoNode (p : addr) (n : string)
| call_findFlowRates (PN : PipeNetwork.t)
| call_getNodeFlowRates (PN : PipeNetwork.t)
| call_getLoopHeadLosses (PN : PipeNetwork.t)
| call_getPipe (PN : PipeNetwork.t) (name : string)
| call_getNodePipes (PN : PipeNetwork.t) (node : string)
| call_nodeBuilt (PN : PipeNetwork.t) (node : string)
| call_getNode (PN : PipeNetwork.t) (name : string)
| call_buildNodes (PN : PipeNetwork.t)
| call_new_list (l : list addr)
| call_append (l x : addr)
| call_set_extFlow (n : addr) (x : Qc)
| call_set_Q (p : addr) (q : Qc).

Section Clients.

Variable fsolve : list Qc -> Solver.
Variable sqrt : Qc -> Qc.
Variable log10 : Qc -> Qc.

Definition void {T} (m : Py T) : Py unit := let* _ := m in ret tt.

Definition perform (c : Call) : Py unit :=
  match c with
  | call_Node_init Name Pipes ExtFlow => void (Node_init Name Pipes ExtFlow)
  | call_getNetFlowRate n => void (getNetFlowRate n)
  | call_Loop_init Name Pipes => void (Loop_init Name Pipes)
  | call_getLoopHeadLoss l => void (getLoopHeadLoss fsolve sqrt log10 l)
  | call_Pipe_init Start End L D r fluid => void (Pipe_init Start End L D r fluid)
  | call_V p => void (V p)
  | call_Re p => void (Re p)
  | call_FrictionFactor p => void (FrictionFactor fsolve sqrt log10 p)
  | call_frictionHeadLoss p => void (frictionHeadLoss fsolve sqrt log10 p)
  | call_getFlowHeadLoss p s => void (getFlowHeadLoss fsolve sqrt log10 p s)
  | call_Name p => void (Name p)
  | call_oContainsNode p node => void (oContainsNode p node)
  | call_getFlowIntoNode p n => void (getFlowIntoNode p n)
  | call_findFlowRates PN => void (findFlowRates fsolve sqrt log10 PN)
  | call_getNodeFlowRates PN => void (getNodeFlowRates PN)
  | call_getLoopHeadLosses PN => void (getLoopHeadLosses fsolve sqrt log10 PN)
  | call_getPipe PN name => void (getPipe PN name)
  | call_getNodePipes PN node => void (getNodePipes PN node)
  | call_nodeBuilt PN node => void (nodeBuilt PN node)
  | call_getNode PN name => void (getNode PN name)
  | call_buildNodes PN => buildNodes PN
  | call_new_list l => void (new_list l)
  | call_append l x => list_append l x
  | call_set_extFlow n x => set_extFlow n x
  | call_set_Q p q => set_Q p q
  end.

Fixpoint perform_all (cs : list Call) : Py unit :=
  match cs with
  | [] => ret tt
  | c :: cs' => let* _ := perform c in perform_all cs'
  end.

End Clients.

(** ** Where an exception leaves the store

    A computation of [Py] that raises does not say in which store it was
    interrupted.  For the operations that write to the store and may raise
    afterwards, the methods are given here a second time, in the same
    words, as computations that end in a store whether they return or
    raise.  [atomic m] is for a computation [m] that writes nothing before
    the last point at which it may raise (a lookup, a division followed by
    one assignment, a method that only reads): interrupted, it leaves the
    store in which it started. *)

Module Interrupted.

Definition PyI (T : Type) : Type := World -> Res T * World.

Definition ret {T} (a : T) : PyI T := fun w => (Ok a, w).
Definition bind {T U} (m : PyI T) (k : T -> PyI U) : PyI U :=
  fun w => match m w with
           | (Ok a, w') => k a w'
           | (Raise e, w') => (Raise e, w')
           end.
Definition atomic {T} (m : Py T) : PyI T :=
  fun w => match m w with
           | Ok (a, w') => (Ok a, w')
           | Raise e => (Raise e, w)
           end.

Notation "'let!' x ':=' m 'in' k" := (bind m (fun x => k))
  (at level 10, x name, m at level 100, k at level 200, only parsing).

Definition Pipe_init (Start End : string) (L D r : Qc) (fluid : Fluid.t)
  : PyI addr :=
  let startNode := py_min Start End in
  let endNode := py_max Start End in
  let diameter := D / lit 1000 in
  let A := math_pi * sq (diameter / lit 2) in
  let! self := atomic (new_pipe (Pipe.mk startNode endNode L diameter r fluid A
                                         (lit 10) 0 0)) in
  let! _ := atomic (V self) in
  let! _ := atomic (Re self) in
  ret self.

Section Hydraulics.

Variable fsolve : list Qc -> Solver.
Variable sqrt : Qc -> Qc.
Variable log10 : Qc -> Qc.

Definition FrictionFactor (self : addr) : PyI Qc :=
  let! Re := atomic (Re self) in
  let! p := atomic (get_pipe self) in
  let! rr := atomic (lift (pydiv (Pipe.r p) (Pipe.diameter p))) in
  if Qc_leb (lit 4000) Re then atomic (lift (CB fsolve sqrt log10 rr Re))
  else if Qc_leb Re (lit 2000) then atomic (lift (lam Re))
  else
    let! CBff := atomic (lift (CB fsolve sqrt log10 rr Re)) in
    let! Lamff := atomic (lift (lam Re)) in
    let mean := Lamff + ((Re - lit 2000) / (lit 4000 - lit 2000)) * (CBff - Lamff) in
    let sig := lit 0.2 * mean in
    atomic (normalvariate mean sig).

Definition frictionHeadLoss (self : addr) : PyI Qc :=
  let g := lit 9.81 in
  let! ff := FrictionFactor self in
  let! p := atomic (get_pipe self) in
  let! t := atomic (lift (pydiv (ff * Pipe.length p) (Pipe.diameter p))) in
  ret (t * (sq (Pipe.vel p) / (lit 2 * g))).

Definition getFlowHeadLoss (self : addr) (s : string) : PyI Qc :=
  let! p := atomic (get_pipe self) in
  let nTraverse : Qc := if String.eqb s (Pipe.startNode p) then 1 else - (1) in
  let nFlow : Qc := if Qc_leb 0 (Pipe.Q p) then 1 else - (1) in
  let! hl := frictionHeadLoss self in
  ret (nTraverse * nFlow * hl).

Fixpoint add_head_losses (ps : list addr) (startNode : string) (deltaP : Qc)
  : PyI Qc :=
  match ps with
  | [] => ret deltaP
  | p :: ps' =>
      let! phl := getFlowHeadLoss p startNode in
      let! P := atomic (get_pipe p) in
      add_head_losses ps' (next_node startNode P) (deltaP + phl)
  end.

Definition getLoopHeadLoss (self : addr) : PyI Qc :=
  let! l := atomic (get_loop self) in
  let deltaP := 0 in
  let! ps := atomic (get_list (Loop.pipes l)) in
  match ps with
  | [] => atomic (raise IndexError)
  | p0 :: _ =>
      let! P0 := atomic (get_pipe p0) in
      add_head_losses ps (Pipe.startNode P0) deltaP
  end.

Fixpoint comprehension (f : addr -> PyI Qc) (xs : list addr) : PyI (list Qc) :=
  match xs with
  | [] => ret []
  | x :: xs' =>
      let! y := f x in
      let! ys := comprehension f xs' in
      ret (y :: ys)
  end.

Definition getLoopHeadLosses (self : PipeNetwork.t) : PyI (list Qc) :=
  let! ls := atomic (get_list (PipeNetwork.loops self)) in
  comprehension getLoopHeadLoss ls.

Fixpoint set_flows (ps : list addr) (i : nat) (q : list Qc) : PyI unit :=
  match ps with
  | [] => ret tt
  | p :: ps' =>
      match q !! i with
      | None => atomic (raise IndexError)
      | Some x => let! _ := atomic (set_Q p x) in set_flows ps' (S i) q
      end
  end.

Definition fn (self : PipeNetwork.t) (q : list Qc) : PyI (list Qc) :=
  let! ps := atomic (get_list (PipeNetwork.pipes self)) in
  let! _ := set_flows ps 0 q in
  let! L := atomic (getNodeFlowRates self) in
  let! L' := getLoopHeadLosses self in
  ret (L ++ L').

Fixpoint solveM (s : Solver) (f : list Qc -> PyI (list Qc)) : PyI (list Qc) :=
  match s with
  | Stop x => ret x
  | Probe q next => let! y := f q in solveM (next y) f
  end.

Definition findFlowRates (self : PipeNetwork.t) : PyI (list Qc) :=
  let! ns := atomic (get_list (PipeNetwork.nodes self)) in
  let! ls := atomic (get_list (PipeNetwork.loops self)) in
  let N := (List.length ns + List.length ls)%nat in
  let Q0 := repeat (lit 10) N in
  solveM (fsolve Q0) (fn self).

End Hydraulics.

Fixpoint collect_pipes (node : string) (ps : list addr) (l : addr) : PyI unit :=
  match ps with
  | [] => ret tt
  | p :: ps' =>
      let! c := atomic (oContainsNode p node) in
      let! _ := (if c then atomic (list_append l p) else ret tt) in
      collect_pipes node ps' l
  end.

Definition getNodePipes (self : PipeNetwork.t) (node : string) : PyI addr :=
  let! l := atomic (new_list []) in
  let! ps := atomic (get_list (PipeNetwork.pipes self)) in
  let! _ := collect_pipes node ps l in
  ret l.

Definition build_node (self : PipeNetwork.t) (name : string) : PyI unit :=
  let! b := atomic (nodeBuilt self name) in
  if negb b then
    let! l := getNodePipes self name in
    let! n := atomic (Node_init (Some name) (Some l) None) in
    atomic (list_append (PipeNetwork.nodes self) n)
  else ret tt.

Fixpoint build_nodes_from (self : PipeNetwork.t) (ps : list addr) : PyI unit :=
  match ps with
  | [] => ret tt
  | p :: ps' =>
      let! P := atomic (get_pipe p) in
      let! _ := build_node self (Pipe.startNode P) in
      let! P' := atomic (get_pipe p) in
      let! _ := build_node self (Pipe.endNode P') in
      build_nodes_from self ps'
  end.

Definition buildNodes (self : PipeNetwork.t) : PyI unit :=
  let! ps := atomic (get_list (PipeNetwork.pipes self)) in
  build_nodes_from self ps.

Section Clients.

Variable fsolve : list Qc -> Solver.
Variable sqrt : Qc -> Qc.
Variable log10 : Qc -> Qc.

Definition void {T} (m : PyI T) : PyI unit := let! _ := m in ret tt.

Definition perform (c : Call) : PyI unit :=
  match c with
  | call_Node_init Name Pipes ExtFlow => void (atomic (Node_init Name Pipes ExtFlow))
  | call_getNetFlowRate n => void (atomic (getNetFlowRate n))
  | call_Loop_init Name Pipes => void (atomic (Loop_init Name Pipes))
  | call_getLoopHeadLoss l => void (getLoopHeadLoss fsolve sqrt log10 l)
  | call_Pipe_init Start End L D r fluid => void (Pipe_init Start End L D r fluid)
  | call_V p => void (atomic (V p))
  | call_Re p => void (atomic (Re p))
  | call_FrictionFactor p => void (FrictionFactor fsolve sqrt log10 p)
  | call_frictionHeadLoss p => void (frictionHeadLoss fsolve sqrt log10 p)
  | call_getFlowHeadLoss p s => void (getFlowHeadLoss fsolve sqrt log10 p s)
  | call_Name p => void (atomic (Name p))
  | call_oContainsNode p node => void (atomic (oContainsNode p node))
  | call_getFlowIntoNode p n => void (atomic (getFlowIntoNode p n))
  | call_findFlowRates PN => void (findFlowRates fsolve sqrt log10 PN)
  | call_getNodeFlowRates PN => void (atomic (getNodeFlowRates PN))
  | call_getLoopHeadLosses PN => void (getLoopHeadLosses fsolve sqrt log10 PN)
  | call_getPipe PN name => void (atomic (getPipe PN name))
  | call_getNodePipes PN node => void (getNodePipes PN node)
  | call_nodeBuilt PN node => void (atomic (nodeBuilt PN node))
  | call_getNode PN name => void (atomic (getNode PN name))
  | call_buildNodes PN => buildNodes PN
  | call_new_list l => void (atomic (new_list l))
  | call_append l x => atomic (list_append l x)
  | call_set_extFlow n x => atomic (set_extFlow n x)
  | call_set_Q p q => atomic (set_Q p q)
  end.

(** A client that goes on after an exception: the operations [cs] one
    after the other, each in the store in which the one before ended,
    whether it returned or raised. *)
Fixpoint go_on (cs : list Call) (w : World) : World :=
  match cs with
  | [] => w
  | c :: cs' => go_on cs' (snd (perform c w))
  end.

End Clients.

End Interrupted.

(** [m] ends in a store related by [F] to the one it started in, whether
    it returns or raises. *)
Definition ends_in {T} (F : relation World) (m : Interrupted.PyI T) : Prop :=
  forall w, F w (snd (m w)).

(** [mI] returns what [m] returns, in the same store, and raises what [m]
    raises. *)
Definition agrees {T} (mI : Interrupted.PyI T) (m : Py T) : Prop :=
  forall w, match mI w with
            | (Ok a, w') => m w = Ok (a, w')
            | (Raise e, _) => m w = Raise e
            end.

(** ** Concrete stand-ins, for examples

    A solver that probes the initial guess once and returns it, and
    rational stand-ins for the two transcendental functions.  They are used
    only to run the definitions on examples; no theorem is about them. *)

Definition fsolve_once (x0 : list Qc) : Solver := Probe x0 (fun _ => Stop x0).

(** A solver that probes its initial guess [x0], then the vector [x1],
    and returns the initial guess: a trial step that is not accepted. *)
Definition fsolve_back (x1 x0 : list Qc) : Solver :=
  Probe x0 (fun _ => Probe x1 (fun _ => Stop x0)).

Definition sqrt_id (x : Qc) : Qc := x.
Definition log10_id (x : Qc) : Qc := x.

(** A generator whose deviates are all [z]. *)
Definition constant_gauss (z : Qc) : nat -> Qc := fun _ => z.

(** The store in which a computation returns. *)
Definition after {T} (m : Py T) (w : World) : World :=
  match m w with Ok (_, w') => w' | Raise _ => w end.

(** The store after [Pipe('b', 'a')] (the other arguments left out:
    [L=100, D=200, r=0.00025, fluid=Fluid()]) has been evaluated in a freshly
    loaded module whose generator yields only [z]. *)
Definition pipe_world (z : Qc) : World :=
  after (Pipe_init "b" "a" (lit 100) (lit 200) (lit 0.00025) Fluid_default)
        (module_loaded (constant_gauss z)).

Definition pipe_ba_world : World := pipe_world 0.

(** The flow rate (L/s) at which that pipe has Reynolds number [Re], and
    the store once it has been assigned to [Q] and [V()] has been called;
    the deviates of the generator are all [z]. *)
Definition flow_for_Re (Re : Qc) : Qc :=
  Re * lit 0.00089 * (math_pi * sq (lit 0.2 / lit 2)) * lit 1000
  / (lit 1000 * lit 0.2).

Definition world_at_Re (Re z : Qc) : World :=
  after (let* _ := set_Q 0%nat (flow_for_Re Re) in V 0%nat) (pipe_world z).

(** The pipe at an address known to hold one. *)
Definition pipe_at (w : World) (a : addr) : Pipe.t :=
  default (Pipe.mk "" "" 0 0 0 (Fluid.mk 0 0 0) 0 0 0 0) (pipe_objs w !! a).

(** The value a computation returned, without the store. *)
Definition value {T} (x : Res (T * World)) : Res T :=
  match x with Ok (a, _) => Ok a | Raise e => Raise e end.

(** ** The hydraulics of one pipe, as functions of the pipe

    What [Re], [FrictionFactor] and [frictionHeadLoss] compute, written as
    functions of the pipe object read from the store and of the next deviate
    [z] of the generator.  They are related to the methods by
    [Re_reynolds_of], [FrictionFactor_friction_of] and
    [frictionHeadLoss_head_loss_of]. *)

Definition Res_bind {T U} (x : Res T) (k : T -> Res U) : Res U :=
  match x with Ok a => k a | Raise e => Raise e end.

Notation "'let+' x ':=' m 'in' k" := (Res_bind m (fun x => k))
  (at level 10, x name, m at level 100, k at level 200, only parsing).

Definition reynolds_of (p : Pipe.t) : Res Qc :=
  pydiv (Fluid.rho (Pipe.fluid p) * Pipe.vel p * Pipe.diameter p)
        (Fluid.mu (Pipe.fluid p)).

(** The blended mean of the transition regime. *)
Definition blend (Re Lamff CBff : Qc) : Qc :=
  Lamff + ((Re - lit 2000) / (lit 4000 - lit 2000)) * (CBff - Lamff).

Section PipeFunctions.

Variable fsolve : list Qc -> Solver.
Variable sqrt : Qc -> Qc.
Variable log10 : Qc -> Qc.

(** The friction factor for Reynolds number [Re] and relative roughness
    [rr], and whether the deviate [z] was consumed. *)
Definition regime (Re rr z : Qc) : Res (Qc * bool) :=
  if Qc_leb (lit 4000) Re then
    let+ f := CB fsolve sqrt log10 rr Re in Ok (f, false)
  else if Qc_leb Re (lit 2000) then
    let+ f := lam Re in Ok (f, false)
  else
    let+ CBff := CB fsolve sqrt log10 rr Re in
    let+ Lamff := lam Re in
    let mean := blend Re Lamff CBff in
    Ok (mean + z * (lit 0.2 * mean), true).

(** Reynolds number, friction factor, and whether [z] was consumed. *)
Definition friction_of (p : Pipe.t) (z : Qc) : Res (Qc * Qc * bool) :=
  let+ Re := reynolds_of p in
  let+ rr := pydiv (Pipe.r p) (Pipe.diameter p) in
  let+ fu := regime Re rr z in
  Ok (Re, fst fu, snd fu).

(** Reynolds number, head loss, and whether [z] was consumed. *)
Definition head_loss_of (p : Pipe.t) (z : Qc) : Res (Qc * Qc * bool) :=
  let+ rfu := friction_of p z in
  let '(Re, ff, used) := rfu in
  let+ t := pydiv (ff * Pipe.length p) (Pipe.diameter p) in
  Ok (Re, t * (sq (Pipe.vel p) / (lit 2 * lit 9.81)), used).

End PipeFunctions.

(** The store after a friction evaluation on the pipe [p] at [self]: the
    Reynolds number is stored in the pipe, and the generator has moved if
    its deviate was consumed. *)
Definition evaluated (self : addr) (p : Pipe.t) (Re : Qc) (used : bool)
    (w : World) : World :=
  set_drawn (if used then S (drawn w) else drawn w)
    (set_pipe_objs (<[self := Pipe.with_reynolds Re p]> (pipe_objs w)) w).

(** ** Two instances built without a collection argument

    [a = C(); b = C(); a.coll.append(x)], then the content of [b.coll]. *)

Definition two_nodes_append (x : addr) : Py (list addr) :=
  let* a := Node_init None None None in
  let* b := Node_init None None None in
  let* A := get_node a in
  let* _ := list_append (Node.pipes A) x in
  let* B := get_node b in
  get_list (Node.pipes B).

Definition two_loops_append (x : addr) : Py (list addr) :=
  let* a := Loop_init None None in
  let* b := Loop_init None None in
  let* A := get_loop a in
  let* _ := list_append (Loop.pipes A) x in
  let* B := get_loop b in
  get_list (Loop.pipes B).

Definition two_networks_append (x y z : addr)
  : Py (list addr * list addr * list addr) :=
  let a := PipeNetwork_init None None None None in
  let b := PipeNetwork_init None None None None in
  let* _ := list_append (PipeNetwork.pipes a) x in
  let* _ := list_append (PipeNetwork.loops a) y in
  let* _ := list_append (PipeNetwork.nodes a) z in
  let* ps := get_list (PipeNetwork.pipes b) in
  let* ls := get_list (PipeNetwork.loops b) in
  let* ns := get_list (PipeNetwork.nodes b) in
  ret (ps, ls, ns).

(** ** A network with a pipe in the transition regime

    One pipe between [a] and [b] with the default length and diameter,
    carrying an oil of viscosity 0.0182 Pa*s, built as [main] builds its
    network; at the flow rate 10 of the constructor its Reynolds number is
    about 3498.  10 L/s enter at [a] and leave at [b], so that the flow rate
    10 balances both nodes.  The single loop goes through the pipe. *)

Definition transition_network : Py PipeNetwork.t :=
  let* oil := lift (Fluid_init (lit 0.0182) (lit 1000)) in
  let PN := PipeNetwork_init None None None None in
  let* _ := add_pipes PN oil (lit 0.00025)
              [ ("a", "b", lit 100, lit 200) ]%string in
  let* _ := buildNodes PN in
  let* _ := set_node_extFlow PN "a" (lit 10) in
  let* _ := set_node_extFlow PN "b" (- lit 10) in
  let* _ := add_loop PN "A" ["a-b"]%string in
  ret PN.

(** A generator whose first deviate is [z0] and whose later ones are [z]. *)
Definition first_then (z0 z : Qc) : nat -> Qc :=
  fun n => match n with O => z0 | S _ => z end.

(** The first residual evaluation of [findFlowRates] on that network, at
    the initial guess, with deviates all equal to [z] and the stand-in
    solver. *)
Definition transition_residual (z : Qc) : Res (list Qc * World) :=
  (let* PN := transition_network in
   fn fsolve_once sqrt_id log10_id PN [lit 10; lit 10; lit 10])
    (module_loaded (constant_gauss z)).

(** ** The loop traversal, in the words of the specification

    A second definition of the net head loss of a loop, to be compared with
    [getLoopHeadLoss]: start at the start node of the first pipe; for each
    pipe in stored order add [headLossMagnitude * traversalSign * flowSign],
    then move to the endpoint of the pipe that is not the current node. *)

Definition traversalSign (current : string) (p : Pipe.t) : Qc :=
  if String.eqb current (Pipe.startNode p) then 1 else - (1).

Definition flowSign (p : Pipe.t) : Qc :=
  if Qc_leb 0 (Pipe.Q p) then 1 else - (1).

Definition other_endpoint (p : Pipe.t) (current : string) : string :=
  if String.eqb current (Pipe.startNode p)
  then Pipe.endNode p else Pipe.startNode p.

Section LoopSpecification.

Variable fsolve : list Qc -> Solver.
Variable sqrt : Qc -> Qc.
Variable log10 : Qc -> Qc.

Fixpoint netHeadLoss_from (ps : list addr) (current : string) (total : Qc)
  : Py Qc :=
  match ps with
  | [] => ret total
  | p :: ps' =>
      let* P := get_pipe p in
      let* magnitude := frictionHeadLoss fsolve sqrt log10 p in
      netHeadLoss_from ps' (other_endpoint P current)
        (total + magnitude * traversalSign current P * flowSign P)
  end.

End LoopSpecification.

(** The pipes [ps] can be followed from the node [current]: each pipe has
    the node reached so far as one of its endpoints. *)
Fixpoint chain (w : World) (current : string) (ps : list addr) : Prop :=
  match ps with
  | [] => True
  | p :: ps' =>
      exists P, pipe_objs w !! p = Some P /\
                (current = Pipe.startNode P \/ current = Pipe.endNode P) /\
                chain w (other_endpoint P current) ps'
  end.

(** The store in which [main] calls [findFlowRates]. *)
Definition main_world : World := after main_network (module_loaded (constant_gauss 0)).

(** The network object that [main] builds: every collection is the default
    one of [PipeNetwork.__init__]. *)
Definition main_PN : PipeNetwork.t := PipeNetwork_init None None None None.

(** How many pipes, nodes and loops a network has. *)
Definition counts (PN : PipeNetwork.t) (w : World) : option (nat * nat * nat) :=
  match list_objs w !! PipeNetwork.pipes PN,
        list_objs w !! PipeNetwork.nodes PN,
        list_objs w !! PipeNetwork.loops PN with
  | Some ps, Some ns, Some ls => Some (List.length ps, List.length ns, List.length ls)
  | _, _, _ => None
  end.

(** ** Stores that differ in what a friction evaluation stores *)

(** Everything but [reynolds] is the same. *)
Definition same_but_reynolds (p p' : Pipe.t) : Prop :=
  p' = Pipe.with_reynolds (Pipe.reynolds p') p.

(** Two stores that differ at most in the Reynolds numbers stored in the
    pipes and in the state of the generator. *)
Definition alike (w w' : World) : Prop :=
  Forall2 same_but_reynolds (pipe_objs w) (pipe_objs w') /\
  node_objs w' = node_objs w /\
  loop_objs w' = loop_objs w /\
  list_objs w' = list_objs w.

(** The Reynolds number of the pipe, when defined, is not strictly between
    2000 and 4000. *)
Definition calm_pipe (p : Pipe.t) : Prop :=
  forall Re, reynolds_of p = Ok Re -> Re <= lit 2000 \/ lit 4000 <= Re.

Definition calm (w : World) : Prop :=
  forall a p, pipe_objs w !! a = Some p -> calm_pipe p.

(** Every entry of a residual vector is below the tolerance in absolute
    value. *)
Definition within (tol : Qc) (r : list Qc) : Prop :=
  Forall (fun x => Qcabs.Qcabs x < tol) r.

(** The store in which the solve of [transition_network] starts, when the
    first deviate of the generator is [-5] and the later ones are [0]; the
    residual evaluation at the initial guess, and the store it leaves. *)
Definition transition_world : World :=
  after transition_network (module_loaded (first_then (- lit 5) 0)).

Definition transition_fn : Res (list Qc * World) :=
  fn fsolve_once sqrt_id log10_id main_PN [lit 10; lit 10; lit 10]
     transition_world.

Definition transition_r : list Qc :=
  match transition_fn with Ok (r, _) => r | Raise _ => [] end.

Definition transition_world' : World :=
  match transition_fn with Ok (_, w') => w' | Raise _ => transition_world end.

(** Two stores of one solve of the network [PN]: they differ at most in
    the flow rates of the pipes of the network, in the Reynolds numbers
    stored in the pipes and in the state of the generator. *)
Definition apart (PN : PipeNetwork.t) (w w' : World) : Prop :=
  hydro same_but_Q_reynolds w w' /\
  forall ps a P P',
    list_objs w !! PipeNetwork.pipes PN = Some ps -> a ∉ ps ->
    pipe_objs w !! a = Some P -> pipe_objs w' !! a = Some P' ->
    Pipe.Q P' = Pipe.Q P.

(** ** A network outside the transition regime

    Three pipes of diameter 200 carrying water between [a], [b] and [c]:
    a-b and b-c of length 100, a-c of length 200.  20 L/s enter at [a]
    and leave at [c].  The loop goes through a-b, b-c and a-c.  At the
    flow rate 10 of the constructor the Reynolds number of every pipe is
    about 71500, and the flow rates 10 balance the three nodes. *)

Definition triangle_network : Py PipeNetwork.t :=
  let* water := lift (Fluid_init (lit 0.00089) (lit 1000)) in
  let PN := PipeNetwork_init None None None None in
  let* _ := add_pipes PN water (lit 0.00025)
              [ ("a", "b", lit 100, lit 200); ("b", "c", lit 100, lit 200);
                ("a", "c", lit 200, lit 200) ]%string in
  let* _ := buildNodes PN in
  let* _ := set_node_extFlow PN "a" (lit 20) in
  let* _ := set_node_extFlow PN "c" (- lit 20) in
  let* _ := add_loop PN "A" ["a-b"; "b-c"; "a-c"]%string in
  ret PN.

(** The store in which the solve of [triangle_network] starts, the
    residual evaluation at the initial guess, and the store it leaves. *)
Definition triangle_world : World :=
  after triangle_network (module_loaded (constant_gauss 0)).

Definition triangle_fn : Res (list Qc * World) :=
  fn fsolve_once sqrt_id log10_id main_PN (repeat (lit 10) 4) triangle_world.

Definition triangle_r : list Qc :=
  match triangle_fn with Ok (r, _) => r | Raise _ => [] end.

Definition triangle_world' : World :=
  match triangle_fn with Ok (_, w') => w' | Raise _ => triangle_world end.

(** The store that the solve of [triangle_network] leaves when the solver
    tries one more L/s in the pipe a-b and goes back to its initial
    guess. *)
Definition triangle_back : World :=
  after (findFlowRates (fsolve_back [lit 11; lit 10; lit 10; lit 10])
                       sqrt_id log10_id main_PN)
        triangle_world.

(** ** The network and its nodes, for the statements below *)

(** Whether [p.oContainsNode(node)], for the pipe object [P]. *)
Definition contains (node : string) (P : Pipe.t) : bool :=
  String.eqb (Pipe.startNode P) node || String.eqb (Pipe.endNode P) node.

(** The pipes among [ps] that are connected to [node], in the order of
    [ps]. *)
Definition touching (w : World) (node : string) (ps : list addr) : list addr :=
  List.filter (fun p => match pipe_objs w !! p with
                        | Some P => contains node P
                        | None => false
                        end) ps.

(** The name of the pipe at [p], if there is one. *)
Definition pipe_name (w : World) (p : addr) : option string :=
  match pipe_objs w !! p with
  | Some P => Some (Pipe.startNode P ++ "-" ++ Pipe.endNode P)%string
  | None => None
  end.

(** The name of the node at [n], if there is one. *)
Definition node_name (w : World) (n : addr) : option string :=
  match node_objs w !! n with
  | Some N => Some (Node.name N)
  | None => None
  end.

(** Every address of the list holds a pipe (resp. a node). *)
Definition valid_pipes (w : World) (ps : list addr) : Prop :=
  Forall (fun p => is_Some (pipe_objs w !! p)) ps.
Definition valid_nodes (w : World) (ns : list addr) : Prop :=
  Forall (fun n => is_Some (node_objs w !! n)) ns.

(** Whether the character [c] occurs in [s]. *)
Fixpoint occurs (c : ascii) (s : string) : bool :=
  match s with
  | EmptyString => false
  | String c' s' => Ascii.eqb c c' || occurs c s'
  end.

(** The network [PN] in the store [w]: [ps] and [ns] are the content of
    its lists of pipes and of nodes, two list objects, and hold pipes
    and nodes of the store. *)
Definition network (PN : PipeNetwork.t) (w : World) (ps ns : list addr) : Prop :=
  list_objs w !! PipeNetwork.pipes PN = Some ps /\
  list_objs w !! PipeNetwork.nodes PN = Some ns /\
  PipeNetwork.pipes PN <> PipeNetwork.nodes PN /\
  valid_pipes w ps /\ valid_nodes w ns.

(** One of the nodes [ns] is called [name]. *)
Definition named (w : World) (ns : list addr) (name : string) : Prop :=
  exists n, n ∈ ns /\ node_name w n = Some name.

(** The names of the nodes [ns], in order. *)
Definition names (w : World) (ns : list addr) : list string :=
  omap (node_name w) ns.

(** The node at [n] has a list of its own with the pipes among [ps] that
    are connected to it, in the order of [ps]. *)
Definition wired_node (PN : PipeNetwork.t) (w : World) (ps : list addr)
    (n : addr) : Prop :=
  exists N, node_objs w !! n = Some N /\
            Node.pipes N <> PipeNetwork.nodes PN /\
            list_objs w !! Node.pipes N = Some (touching w (Node.name N) ps).

(** The nodes have distinct names, and each one is wired. *)
Definition sound (PN : PipeNetwork.t) (w : World) (ps ns : list addr) : Prop :=
  NoDup (names w ns) /\ Forall (wired_node PN w ps) ns.

(** Every endpoint of the pipes [ps0] is the name of a node. *)
Definition covered (w : World) (ps0 ns : list addr) : Prop :=
  forall p P, p ∈ ps0 -> pipe_objs w !! p = Some P ->
              named w ns (Pipe.startNode P) /\ named w ns (Pipe.endNode P).

(** From [w] to [w'] the store has only grown: objects were created and
    the list of nodes of [PN] was appended to. *)
Definition grows (PN : PipeNetwork.t) (w w' : World) : Prop :=
  pipe_objs w' = pipe_objs w /\ loop_objs w' = loop_objs w /\
  gauss w' = gauss w /\ drawn w' = drawn w /\
  (forall n N, node_objs w !! n = Some N -> node_objs w' !! n = Some N) /\
  (forall a l, a <> PipeNetwork.nodes PN ->
               list_objs w !! a = Some l -> list_objs w' !! a = Some l) /\
  (forall ns, list_objs w !! PipeNetwork.nodes PN = Some ns ->
              exists added, list_objs w' !! PipeNetwork.nodes PN = Some (ns ++ added)).

(** The store once a node called [name] has been built and appended to
    the nodes [ns] of [PN]. *)
Definition node_added (PN : PipeNetwork.t) (name : string) (ps ns : list addr)
    (w : World) : World :=
  mkWorld (pipe_objs w)
          (node_objs w ++ [Node.mk name (List.length (list_objs w)) 0])
          (loop_objs w)
          (<[PipeNetwork.nodes PN := ns ++ [List.length (node_objs w)]]>
             (list_objs w ++ [touching w name ps]))
          (gauss w) (drawn w).

(** The node at [n] did not exist in [w]; in [w'] it has no external flow
    and is called as an endpoint of one of the pipes [ps0]. *)
Definition built_node (w w' : World) (ps0 : list addr) (n : addr) : Prop :=
  node_objs w !! n = None /\
  exists N, node_objs w' !! n = Some N /\ Node.extFlow N = 0 /\
            exists p P, p ∈ ps0 /\ pipe_objs w !! p = Some P /\
                        (Node.name N = Pipe.startNode P \/
                         Node.name N = Pipe.endNode P).

(** What [getFlowIntoNode(n)] returns on the pipe object [P]. *)
Definition flow_into (n : string) (P : Pipe.t) : Qc :=
  if String.eqb n (Pipe.startNode P) then - Pipe.Q P else Pipe.Q P.

(** The two endpoints of every pipe among [ps] differ. *)
Definition proper_pipes (w : World) (ps : list addr) : Prop :=
  forall p P, p ∈ ps -> pipe_objs w !! p = Some P ->
              Pipe.startNode P <> Pipe.endNode P.

(** ** Small stores, for examples *)

(** The default network once [Pipe('a', 'b')] and [Pipe('c', 'b')] (length
    100, diameter 200, water) have been appended to its pipes. *)
Definition two_pipes_world : World :=
  after (add_pipes main_PN Fluid_default (lit 0.00025)
           [ ("a", "b", lit 100, lit 200); ("c", "b", lit 100, lit 200) ]%string)
        (module_loaded (constant_gauss 0)).

(** The same once [buildNodes()] has been called. *)
Definition two_pipes_built : World := after (buildNodes main_PN) two_pipes_world.

(** The default network with two pipes between the same nodes, built as
    [Pipe('a', 'b')] and [Pipe('b', 'a')]. *)
Definition twin_pipes_world : World :=
  after (add_pipes main_PN Fluid_default (lit 0.00025)
           [ ("a", "b", lit 100, lit 200); ("b", "a", lit 100, lit 200) ]%string)
        (module_loaded (constant_gauss 0)).

(** The default network once [Loop()] has been appended to its loops. *)
Definition empty_loop_world : World :=
  after (let* l := Loop_init None None in
         list_append (PipeNetwork.loops main_PN) l)
        (module_loaded (constant_gauss 0)).

(** The endpoints of the pipes [ps0], in the order in which [buildNodes]
    looks at them: for each pipe, its start node, then its end node. *)
Definition endpoints (w : World) (ps0 : list addr) : list string :=
  flat_map (fun p => match pipe_objs w !! p with
                     | Some P => [Pipe.startNode P; Pipe.endNode P]
                     | None => []
                     end) ps0.

(** The names seen so far, once [e] has been seen. *)
Definition first_seen (seen : list string) (e : string) : list string :=
  if bool_decide (e ∈ seen) then seen else seen ++ [e].

(** * Properties *)

(** ** Comparisons and division *)

Lemma Qc_leb_le (x y : Qc) : Qc_leb x y = true <-> x <= y.
Proof. unfold Qc_leb, Qcle. apply Qle_bool_iff. Qed.

Lemma Qc_leb_gt (x y : Qc) : Qc_leb x y = false <-> y < x.
Proof.
  rewrite <- not_true_iff_false, Qc_leb_le. split.
  - apply Qcnot_le_lt.
  - apply Qclt_not_le.
Qed.

Lemma Qc_eqb_eq (x y : Qc) : Qc_eqb x y = true <-> x = y.
Proof.
  unfold Qc_eqb. rewrite Qeq_bool_iff. split.
  - apply Qc_is_canon.
  - intros ->. reflexivity.
Qed.

Lemma Qdiv_pos_neg (c a : Q) : (0 < c)%Q -> (a < 0)%Q -> (c / a < 0)%Q.
Proof.
  destruct c as [cn cd], a as [[|n|n] d];
    unfold Qlt, Qdiv, Qinv, Qmult; simpl; intros; try lia.
Qed.

Lemma Qcdiv_pos_neg (c a : Qc) : 0 < c -> a < 0 -> c / a < 0.
Proof.
  unfold Qclt. intros Hc Ha. unfold Qcdiv, Qcmult, Qcinv.
  change (this (Q2Qc (c * Q2Qc (/ a)))) with (Qred (c * Qred (/ a))).
  assert (E : (Qred (this c * Qred (/ this a)) == this c / this a)%Q).
  { rewrite Qred_correct. rewrite Qred_correct. reflexivity. }
  rewrite E. apply Qdiv_pos_neg; assumption.
Qed.

Lemma pydiv_nonzero (x y : Qc) : y <> 0 -> pydiv x y = Ok (x / y).
Proof.
  intros Hy. unfold pydiv. destruct (Qc_eqb y 0) eqn:E; [|reflexivity].
  apply Qc_eqb_eq in E. contradiction.
Qed.

Lemma pydiv_zero (x : Qc) : pydiv x 0 = Raise ZeroDivisionError.
Proof. reflexivity. Qed.

Lemma pydiv_Ok (x y z : Qc) : pydiv x y = Ok z -> y <> 0 /\ z = x / y.
Proof.
  unfold pydiv. destruct (Qc_eqb y 0) eqn:E; [discriminate|].
  intros [= <-]. split; [|reflexivity].
  intros ->. discriminate E.
Qed.

(** Equality and difference of two closed rationals. *)
Ltac qc_eq := apply Qc_is_canon; vm_compute; reflexivity.
Ltac value_eq := etransitivity; [vm_compute; reflexivity | f_equal; try qc_eq].
Ltac qc_neq :=
  let E := fresh "E" in
  intros E; apply (f_equal this) in E; vm_compute in E; discriminate E.

(** A property of every element of a list, checked by computation. *)
Lemma Forall_by_bool {T} (P : T -> Prop) (f : T -> bool) (l : list T) :
  (forall x, f x = true -> P x) -> forallb f l = true -> Forall P l.
Proof.
  intros Hf. induction l as [|x l IH]; simpl; intros H.
  - apply List.Forall_nil.
  - apply andb_prop in H as [Hx Hl].
    apply List.Forall_cons; [exact (Hf x Hx)|exact (IH Hl)].
Qed.

(** ** Reasoning on computations *)

Lemma bind_Ok {T U} (m : Py T) (k : T -> Py U) w y w' :
  bind m k w = Ok (y, w') <->
  exists x w1, m w = Ok (x, w1) /\ k x w1 = Ok (y, w').
Proof.
  unfold bind. split.
  - destruct (m w) as [[x w1]|e]; [|discriminate]. eauto.
  - intros (x & w1 & -> & Hk). exact Hk.
Qed.

Lemma bind_Ok_intro {T U} (m : Py T) (k : T -> Py U) w x w1 :
  m w = Ok (x, w1) -> bind m k w = k x w1.
Proof. unfold bind. intros ->. reflexivity. Qed.

Lemma bind_Raise_intro {T U} (m : Py T) (k : T -> Py U) w e :
  m w = Raise e -> bind m k w = Raise e.
Proof. unfold bind. intros ->. reflexivity. Qed.

Lemma lift_Ok {T} (x : Res T) w a w' :
  lift x w = Ok (a, w') <-> x = Ok a /\ w' = w.
Proof.
  unfold lift. destruct x; split.
  - intros [= -> ->]. auto.
  - intros [[= ->] ->]. reflexivity.
  - discriminate.
  - intros [? _]. discriminate.
Qed.

Lemma get_pipe_Ok a w p w' :
  get_pipe a w = Ok (p, w') <-> pipe_objs w !! a = Some p /\ w' = w.
Proof.
  unfold get_pipe. destruct (pipe_objs w !! a); split.
  - intros [= -> ->]. auto.
  - intros [[= ->] ->]. reflexivity.
  - discriminate.
  - intros [? _]. discriminate.
Qed.

Lemma get_list_Ok a w l w' :
  get_list a w = Ok (l, w') <-> list_objs w !! a = Some l /\ w' = w.
Proof.
  unfold get_list. destruct (list_objs w !! a); split.
  - intros [= -> ->]. auto.
  - intros [[= ->] ->]. reflexivity.
  - discriminate.
  - intros [? _]. discriminate.
Qed.

Lemma get_node_Ok a w n w' :
  get_node a w = Ok (n, w') <-> node_objs w !! a = Some n /\ w' = w.
Proof.
  unfold get_node. destruct (node_objs w !! a); split.
  - intros [= -> ->]. auto.
  - intros [[= ->] ->]. reflexivity.
  - discriminate.
  - intros [? _]. discriminate.
Qed.

Lemma get_loop_Ok a w l w' :
  get_loop a w = Ok (l, w') <-> loop_objs w !! a = Some l /\ w' = w.
Proof.
  unfold get_loop. destruct (loop_objs w !! a); split.
  - intros [= -> ->]. auto.
  - intros [[= ->] ->]. reflexivity.
  - discriminate.
  - intros [? _]. discriminate.
Qed.

(** Decompose a hypothesis stating that a computation returned. *)
Ltac py_inv H :=
  lazymatch type of H with
  | bind _ _ _ = Ok _ =>
      let x := fresh "x" in let w1 := fresh "w" in
      let H1 := fresh "H" in let H2 := fresh "H" in
      apply bind_Ok in H; destruct H as (x & w1 & H1 & H2);
      py_inv H1; py_inv H2
  | lift _ _ = Ok _ =>
      let E := fresh "E" in apply lift_Ok in H; destruct H as [E ->]
  | get_pipe _ _ = Ok _ =>
      let E := fresh "E" in apply get_pipe_Ok in H; destruct H as [E ->]
  | get_list _ _ = Ok _ =>
      let E := fresh "E" in apply get_list_Ok in H; destruct H as [E ->]
  | get_node _ _ = Ok _ =>
      let E := fresh "E" in apply get_node_Ok in H; destruct H as [E ->]
  | get_loop _ _ = Ok _ =>
      let E := fresh "E" in apply get_loop_Ok in H; destruct H as [E ->]
  | ret _ _ = Ok _ => unfold ret in H; injection H as <- <-
  | put_pipe _ _ _ = Ok _ => unfold put_pipe in H; injection H as <- <-
  | raise _ _ = Ok _ => discriminate H
  | _ => idtac
  end.

(** ** Endpoints of a pipe *)

Lemma ltb_compare (a b : string) : String.ltb a b = true <-> (a ?= b)%string = Lt.
Proof. unfold String.ltb. destruct (a ?= b)%string; split; congruence. Qed.

Lemma ltb_total (a b : string) :
  a <> b -> String.ltb a b = true \/ String.ltb b a = true.
Proof.
  intros Hab. rewrite !ltb_compare, (String.compare_antisym a b).
  destruct (b ?= a)%string eqn:E; simpl; auto.
  apply String.compare_eq_iff in E. congruence.
Qed.

Lemma ltb_asym (a b : string) : String.ltb a b = true -> String.ltb b a = false.
Proof.
  rewrite ltb_compare. intros H. apply not_true_iff_false.
  rewrite ltb_compare, String.compare_antisym, H. discriminate.
Qed.

Lemma py_min_max_lt (a b : string) :
  a <> b -> String.ltb (py_min a b) (py_max a b) = true.
Proof.
  intros Hab. unfold py_min, py_max.
  destruct (ltb_total a b Hab) as [H|H].
  - rewrite H, (ltb_asym _ _ H). exact H.
  - rewrite H, (ltb_asym _ _ H). exact H.
Qed.

Lemma py_min_comm (a b : string) : py_min a b = py_min b a.
Proof.
  unfold py_min. destruct (String.ltb b a) eqn:E1, (String.ltb a b) eqn:E2;
    try reflexivity.
  - apply ltb_asym in E1. congruence.
  - destruct (string_dec a b) as [->|Hne]; [reflexivity|].
    destruct (ltb_total a b Hne); congruence.
Qed.

Lemma py_max_comm (a b : string) : py_max a b = py_max b a.
Proof.
  unfold py_max. destruct (String.ltb b a) eqn:E1, (String.ltb a b) eqn:E2;
    try reflexivity.
  - apply ltb_asym in E1. congruence.
  - destruct (string_dec a b) as [->|Hne]; [reflexivity|].
    destruct (ltb_total a b Hne); congruence.
Qed.

Lemma py_min_max_pair (a b : string) :
  (py_min a b = a /\ py_max a b = b) \/ (py_min a b = b /\ py_max a b = a).
Proof.
  unfold py_min, py_max.
  destruct (String.ltb b a) eqn:E1, (String.ltb a b) eqn:E2; auto.
  - apply ltb_asym in E1. congruence.
  - destruct (string_dec a b) as [->|Hne]; [auto|].
    destruct (ltb_total a b Hne); congruence.
Qed.

(** ** What the operations leave unchanged *)

Section Frames.

Variable F : relation World.
Context {F_pre : PreOrder F}.

Lemma returns_in_ret {T} (a : T) : returns_in F (ret a).
Proof. intros w x w' [= _ <-]. reflexivity. Qed.

Lemma returns_in_raise {T} e : returns_in F (@raise T e).
Proof. intros w x w' [=]. Qed.

Lemma returns_in_lift {T} (r : Res T) : returns_in F (lift r).
Proof. intros w x w' H. apply lift_Ok in H as [_ ->]. reflexivity. Qed.

Lemma returns_in_bind {T U} (m : Py T) (k : T -> Py U) :
  returns_in F m -> (forall x, returns_in F (k x)) -> returns_in F (bind m k).
Proof.
  intros Hm Hk w y w' H. apply bind_Ok in H as (x & w1 & H1 & H2).
  transitivity w1; [exact (Hm _ _ _ H1) | exact (Hk _ _ _ _ H2)].
Qed.

Lemma returns_in_get_pipe a : returns_in F (get_pipe a).
Proof. intros w x w' H. apply get_pipe_Ok in H as [_ ->]. reflexivity. Qed.

Lemma returns_in_get_node a : returns_in F (get_node a).
Proof. intros w x w' H. apply get_node_Ok in H as [_ ->]. reflexivity. Qed.

Lemma returns_in_get_loop a : returns_in F (get_loop a).
Proof. intros w x w' H. apply get_loop_Ok in H as [_ ->]. reflexivity. Qed.

Lemma returns_in_get_list a : returns_in F (get_list a).
Proof. intros w x w' H. apply get_list_Ok in H as [_ ->]. reflexivity. Qed.

(** Reading a pipe and continuing: the continuation may use the lookup. *)
Lemma returns_in_with_pipe {U} a (k : Pipe.t -> Py U) :
  (forall p w x w', pipe_objs w !! a = Some p -> k p w = Ok (x, w') -> F w w') ->
  returns_in F (bind (get_pipe a) k).
Proof.
  intros Hk w y w' H. apply bind_Ok in H as (p & w1 & H1 & H2).
  apply get_pipe_Ok in H1 as [E ->]. eauto.
Qed.

End Frames.

(** Split a goal [returns_in F m] along the structure of [m]. *)
Ltac frame_leaf :=
  first [ apply returns_in_ret | apply returns_in_raise | apply returns_in_lift
        | apply returns_in_get_pipe | apply returns_in_get_node
        | apply returns_in_get_loop | apply returns_in_get_list
        | solve [eauto] ];
  try typeclasses eauto.
Ltac frame_step :=
  lazymatch goal with
  | |- returns_in _ (bind _ _) =>
      apply returns_in_bind; try typeclasses eauto; [|intros ?]
  | |- returns_in _ (if ?b then _ else _) => destruct b
  | |- returns_in _ (match ?o with Some _ => _ | None => _ end) => destruct o
  | |- returns_in _ (match ?o with Ok _ => _ | Raise _ => _ end) => destruct o
  | |- returns_in _ _ => frame_leaf
  end.
Ltac frame := repeat frame_step.
Ltac side := try assumption; try typeclasses eauto.

Lemma comprehension_hydro_any (F : relation World) `{!PreOrder F} f xs :
  (forall x, returns_in F (f x)) -> returns_in F (comprehension f xs).
Proof.
  intros Hf. induction xs as [|x xs IH]; simpl; frame.
Qed.

Section HydroFrames.

Variable R : relation Pipe.t.
Context {R_pre : PreOrder R}.
Hypothesis R_Q : forall p q, R p (Pipe.with_Q q p).
Hypothesis R_reynolds : forall p x, R p (Pipe.with_reynolds x p).

#[global] Instance hydro_preorder : PreOrder (hydro R).
Proof.
  split.
  - intros w. unfold hydro. repeat split; reflexivity.
  - intros w1 w2 w3 (Hp & Hn & Hl & Hls & Hg & Hd) (Hp' & Hn' & Hl' & Hls' & Hg' & Hd').
    unfold hydro. repeat split; try congruence; [|lia].
    apply Forall2_same_length_lookup. split.
    + apply Forall2_length in Hp, Hp'. congruence.
    + intros i x z Hx Hz.
      destruct (Forall2_lookup_l _ _ _ _ _ Hp Hx) as (y & Hy & Hxy).
      transitivity y; [exact Hxy|].
      exact (Forall2_lookup_lr _ _ _ _ _ _ Hp' Hy Hz).
Qed.

Lemma hydro_put w a p p' :
  pipe_objs w !! a = Some p -> R p p' ->
  hydro R w (set_pipe_objs (<[a := p']> (pipe_objs w)) w).
Proof.
  intros Ha HR. unfold hydro. simpl. repeat split; try reflexivity.
  rewrite <- (list_insert_id (pipe_objs w) a p Ha) at 1.
  apply Forall2_insert; [reflexivity|exact HR].
Qed.

Lemma set_Q_hydro self q : returns_in (hydro R) (set_Q self q).
Proof.
  unfold set_Q. apply returns_in_with_pipe; try typeclasses eauto.
  intros p w x w' Hp [= _ <-]. apply (hydro_put _ _ _ _ Hp), R_Q.
Qed.

Lemma Re_hydro self : returns_in (hydro R) (Re self).
Proof.
  unfold Re. apply returns_in_with_pipe; try typeclasses eauto.
  intros p w x w' Hp H. py_inv H.
  apply (hydro_put _ _ _ _ Hp), R_reynolds.
Qed.

Lemma normalvariate_hydro m sigma : returns_in (hydro R) (normalvariate m sigma).
Proof.
  intros w x w' [= _ <-]. unfold hydro. simpl.
  repeat split; try reflexivity. lia.
Qed.

Lemma getFlowIntoNode_hydro self n : returns_in (hydro R) (getFlowIntoNode self n).
Proof. unfold getFlowIntoNode. frame. Qed.

Lemma add_flows_hydro name ps Qtot : returns_in (hydro R) (add_flows name ps Qtot).
Proof.
  revert Qtot. induction ps as [|p ps IH]; intros Qtot; simpl.
  - frame.
  - apply returns_in_bind; try typeclasses eauto; [apply getFlowIntoNode_hydro|]. intros f. apply IH.
Qed.

Lemma getNetFlowRate_hydro self : returns_in (hydro R) (getNetFlowRate self).
Proof.
  unfold getNetFlowRate. frame. apply add_flows_hydro.
Qed.

Section WithNumerics.

Variable fsolve : list Qc -> Solver.
Variable sqrt : Qc -> Qc.
Variable log10 : Qc -> Qc.

Lemma FrictionFactor_hydro self :
  returns_in (hydro R) (FrictionFactor fsolve sqrt log10 self).
Proof.
  unfold FrictionFactor.
  apply returns_in_bind; try typeclasses eauto; [apply Re_hydro|]. intros x.
  frame. apply normalvariate_hydro.
Qed.

Lemma frictionHeadLoss_hydro self :
  returns_in (hydro R) (frictionHeadLoss fsolve sqrt log10 self).
Proof.
  unfold frictionHeadLoss.
  apply returns_in_bind; try typeclasses eauto; [apply FrictionFactor_hydro|]. intros ff. frame.
Qed.

Lemma getFlowHeadLoss_hydro self s :
  returns_in (hydro R) (getFlowHeadLoss fsolve sqrt log10 self s).
Proof.
  unfold getFlowHeadLoss. frame. apply frictionHeadLoss_hydro.
Qed.

Lemma add_head_losses_hydro ps startNode deltaP :
  returns_in (hydro R) (add_head_losses fsolve sqrt log10 ps startNode deltaP).
Proof.
  revert startNode deltaP. induction ps as [|p ps IH]; intros s d; simpl.
  - frame.
  - apply returns_in_bind; try typeclasses eauto; [apply getFlowHeadLoss_hydro|]. intros phl.
    frame.
Qed.

Lemma getLoopHeadLoss_hydro self :
  returns_in (hydro R) (getLoopHeadLoss fsolve sqrt log10 self).
Proof.
  unfold getLoopHeadLoss. frame.
  destruct x0 as [|p0 ps]; frame. apply add_head_losses_hydro.
Qed.

Lemma comprehension_hydro f xs :
  (forall x, returns_in (hydro R) (f x)) ->
  returns_in (hydro R) (comprehension f xs).
Proof.
  intros Hf. induction xs as [|x xs IH]; simpl; frame.
Qed.

Lemma set_flows_hydro ps i q : returns_in (hydro R) (set_flows ps i q).
Proof.
  revert i. induction ps as [|p ps IH]; intros i; simpl.
  - frame.
  - destruct (q !! i); [|frame].
    apply returns_in_bind; try typeclasses eauto; [apply set_Q_hydro|]. intros _. apply IH.
Qed.

Lemma fn_hydro self q :
  returns_in (hydro R) (fn fsolve sqrt log10 self q).
Proof.
  unfold fn, getNodeFlowRates, getLoopHeadLosses. frame.
  - apply set_flows_hydro.
  - apply comprehension_hydro, getNetFlowRate_hydro.
  - apply comprehension_hydro, getLoopHeadLoss_hydro.
Qed.

Lemma solveM_hydro s f :
  (forall q, returns_in (hydro R) (f q)) -> returns_in (hydro R) (solveM s f).
Proof.
  intros Hf. induction s as [x|q next IH]; simpl; frame.
Qed.

Lemma findFlowRates_hydro self :
  returns_in (hydro R) (findFlowRates fsolve sqrt log10 self).
Proof.
  unfold findFlowRates. frame. apply solveM_hydro. intros q. apply fn_hydro.
Qed.

End WithNumerics.

End HydroFrames.

Section KeepFrames.

Variable R : relation Pipe.t.
Context {R_pre : PreOrder R}.
Hypothesis R_Q : forall p q, R p (Pipe.with_Q q p).
Hypothesis R_reynolds : forall p x, R p (Pipe.with_reynolds x p).
Hypothesis R_vel : forall p v, R p (Pipe.with_vel v p).

#[global] Instance pipes_keep_preorder : PreOrder (pipes_keep R).
Proof.
  split.
  - intros w a p Hp. exists p. split; [exact Hp|reflexivity].
  - intros w1 w2 w3 H12 H23 a p Hp.
    destruct (H12 a p Hp) as (p2 & Hp2 & HR2).
    destruct (H23 a p2 Hp2) as (p3 & Hp3 & HR3).
    exists p3. split; [exact Hp3|]. transitivity p2; assumption.
Qed.

Lemma hydro_pipes_keep w w' : hydro R w w' -> pipes_keep R w w'.
Proof. intros (Hp & _) a p Ha. exact (Forall2_lookup_l _ _ _ _ _ Hp Ha). Qed.

Lemma returns_in_hydro_keep {T} (m : Py T) :
  returns_in (hydro R) m -> returns_in (pipes_keep R) m.
Proof. intros H w x w' Hm. apply hydro_pipes_keep. exact (H _ _ _ Hm). Qed.

Lemma pipes_keep_same w w' : pipe_objs w' = pipe_objs w -> pipes_keep R w w'.
Proof. intros E a p Hp. exists p. rewrite E. split; [exact Hp|reflexivity]. Qed.

Lemma pipes_keep_put w a p p' :
  pipe_objs w !! a = Some p -> R p p' ->
  pipes_keep R w (set_pipe_objs (<[a := p']> (pipe_objs w)) w).
Proof.
  intros Ha HR b q Hb. simpl. destruct (decide (a = b)) as [->|Hne].
  - exists p'. rewrite list_lookup_insert_eq by (eapply lookup_lt_Some; eauto).
    split; [reflexivity|]. congruence.
  - exists q. rewrite list_lookup_insert_ne by exact Hne.
    split; [exact Hb|reflexivity].
Qed.

Lemma V_keep self : returns_in (pipes_keep R) (V self).
Proof.
  unfold V. apply returns_in_with_pipe; try typeclasses eauto.
  intros p w x w' Hp H. py_inv H.
  apply (pipes_keep_put _ _ _ _ Hp), R_vel.
Qed.

Lemma Re_keep self : returns_in (pipes_keep R) (Re self).
Proof. apply returns_in_hydro_keep, Re_hydro; side. Qed.

Lemma new_pipe_keep p : returns_in (pipes_keep R) (new_pipe p).
Proof.
  intros w x w' [= _ <-] a q Ha. exists q. simpl.
  rewrite lookup_app_l by (eapply lookup_lt_Some; eauto).
  split; [exact Ha|reflexivity].
Qed.

Lemma new_list_keep l : returns_in (pipes_keep R) (new_list l).
Proof. intros w x w' [= _ <-]. apply pipes_keep_same. reflexivity. Qed.

Lemma new_node_keep n : returns_in (pipes_keep R) (new_node n).
Proof. intros w x w' [= _ <-]. apply pipes_keep_same. reflexivity. Qed.

Lemma new_loop_keep l : returns_in (pipes_keep R) (new_loop l).
Proof. intros w x w' [= _ <-]. apply pipes_keep_same. reflexivity. Qed.

Lemma list_append_keep l x : returns_in (pipes_keep R) (list_append l x).
Proof.
  unfold list_append. apply returns_in_bind; try typeclasses eauto.
  - apply returns_in_get_list; try typeclasses eauto.
  - intros xs w y w' [= _ <-]. apply pipes_keep_same. reflexivity.
Qed.

Lemma set_extFlow_keep n x : returns_in (pipes_keep R) (set_extFlow n x).
Proof.
  unfold set_extFlow. apply returns_in_bind; try typeclasses eauto.
  - apply returns_in_get_node; try typeclasses eauto.
  - intros N w y w' [= _ <-]. apply pipes_keep_same. reflexivity.
Qed.

Lemma Pipe_init_keep Start End L D r fluid :
  returns_in (pipes_keep R) (Pipe_init Start End L D r fluid).
Proof.
  unfold Pipe_init. frame.
  - apply new_pipe_keep.
  - apply V_keep.
  - apply Re_keep.
Qed.

Lemma find_pipe_keep name ps : returns_in (pipes_keep R) (find_pipe name ps).
Proof. induction ps as [|p ps IH]; simpl; unfold Name; frame. Qed.

Lemma find_node_keep name ns : returns_in (pipes_keep R) (find_node name ns).
Proof. induction ns as [|n ns IH]; simpl; frame. Qed.

Lemma collect_pipes_keep node ps l :
  returns_in (pipes_keep R) (collect_pipes node ps l).
Proof.
  induction ps as [|p ps IH]; simpl; unfold oContainsNode; frame.
  apply list_append_keep.
Qed.

Lemma getNodePipes_keep PN node : returns_in (pipes_keep R) (getNodePipes PN node).
Proof.
  unfold getNodePipes. frame.
  - apply new_list_keep.
  - apply collect_pipes_keep.
Qed.

Lemma build_node_keep PN name : returns_in (pipes_keep R) (build_node PN name).
Proof.
  unfold build_node, nodeBuilt, Node_init. frame.
  - apply find_node_keep.
  - apply getNodePipes_keep.
  - apply new_node_keep.
  - apply list_append_keep.
Qed.

Lemma build_nodes_from_keep PN ps :
  returns_in (pipes_keep R) (build_nodes_from PN ps).
Proof.
  induction ps as [|p ps IH]; simpl; frame; apply build_node_keep.
Qed.

Lemma returns_in_void {T} (F : relation World) `{!PreOrder F} (m : Py T) :
  returns_in F m -> returns_in F (void m).
Proof. intros Hm. unfold void. frame. Qed.

Section WithNumerics.

Variable fsolve : list Qc -> Solver.
Variable sqrt : Qc -> Qc.
Variable log10 : Qc -> Qc.

Lemma perform_keep c : returns_in (pipes_keep R) (perform fsolve sqrt log10 c).
Proof.
  destruct c; simpl; try (apply returns_in_void; side);
    first
      [ apply new_node_keep | apply new_loop_keep | apply new_list_keep
      | apply Pipe_init_keep | apply V_keep | apply Re_keep
      | apply getNodePipes_keep | apply list_append_keep
      | apply set_extFlow_keep
      | solve [unfold Name, oContainsNode, getPipe, nodeBuilt, getNode, buildNodes;
               frame;
               first [apply find_pipe_keep | apply find_node_keep
                     | apply build_nodes_from_keep]]
      | apply returns_in_hydro_keep; side;
        first
          [ apply getNetFlowRate_hydro | apply getLoopHeadLoss_hydro
          | apply FrictionFactor_hydro | apply frictionHeadLoss_hydro
          | apply getFlowHeadLoss_hydro | apply getFlowIntoNode_hydro
          | apply findFlowRates_hydro | apply set_Q_hydro
          | unfold getNodeFlowRates, getLoopHeadLosses; frame;
            apply comprehension_hydro; side; intros ?;
            first [apply getNetFlowRate_hydro | apply getLoopHeadLoss_hydro] ];
        side ].
Qed.

Lemma perform_all_keep cs :
  returns_in (pipes_keep R) (perform_all fsolve sqrt log10 cs).
Proof.
  induction cs as [|c cs IH]; simpl; frame. apply perform_keep.
Qed.

End WithNumerics.

End KeepFrames.

#[global] Instance same_endpoints_preorder : PreOrder same_endpoints.
Proof.
  split.
  - intros p. split; reflexivity.
  - intros p1 p2 p3 [H1 H2] [H3 H4]. split; congruence.
Qed.

#[global] Instance same_but_Q_reynolds_preorder : PreOrder same_but_Q_reynolds.
Proof.
  split.
  - intros p. repeat split; reflexivity.
  - intros p1 p2 p3 H1 H2. unfold same_but_Q_reynolds in *.
    repeat split; intuition congruence.
Qed.

(** ** The methods that store a derived quantity *)

Lemma V_Ok self w v w' :
  V self w = Ok (v, w') <->
  exists p, pipe_objs w !! self = Some p /\
            pydiv (Pipe.Q p / lit 1000) (Pipe.A p) = Ok v /\
            w' = set_pipe_objs (<[self := Pipe.with_vel v p]> (pipe_objs w)) w.
Proof.
  unfold V. split.
  - intros H. py_inv H. eauto.
  - intros (p & Hp & Hv & ->).
    rewrite (bind_Ok_intro _ _ w p w) by (apply get_pipe_Ok; auto).
    rewrite (bind_Ok_intro _ _ w v w) by (apply lift_Ok; auto).
    reflexivity.
Qed.

Lemma Re_Ok self w x w' :
  Re self w = Ok (x, w') <->
  exists p, pipe_objs w !! self = Some p /\
            pydiv (Fluid.rho (Pipe.fluid p) * Pipe.vel p * Pipe.diameter p)
                  (Fluid.mu (Pipe.fluid p)) = Ok x /\
            w' = set_pipe_objs (<[self := Pipe.with_reynolds x p]> (pipe_objs w)) w.
Proof.
  unfold Re. split.
  - intros H. py_inv H. eauto.
  - intros (p & Hp & Hv & ->).
    rewrite (bind_Ok_intro _ _ w p w) by (apply get_pipe_Ok; auto).
    rewrite (bind_Ok_intro _ _ w x w) by (apply lift_Ok; auto).
    reflexivity.
Qed.

Lemma lookup_new {T} (l : list T) (x : T) : (l ++ [x]) !! List.length l = Some x.
Proof. apply list_lookup_middle. reflexivity. Qed.

(** What the constructor builds. *)
Lemma Pipe_init_Ok Start End L D r fluid w self w' :
  Pipe_init Start End L D r fluid w = Ok (self, w') ->
  self = List.length (pipe_objs w) /\
  exists v x,
    pydiv (lit 10 / lit 1000) (math_pi * sq (D / lit 1000 / lit 2)) = Ok v /\
    pydiv (Fluid.rho fluid * v * (D / lit 1000)) (Fluid.mu fluid) = Ok x /\
    pipe_objs w' !! self =
      Some (Pipe.mk (py_min Start End) (py_max Start End) L (D / lit 1000) r fluid
                    (math_pi * sq (D / lit 1000 / lit 2)) (lit 10) v x).
Proof.
  unfold Pipe_init. intros H.
  apply bind_Ok in H as (a & w1 & Hnew & H).
  unfold new_pipe in Hnew. injection Hnew as <- <-.
  apply bind_Ok in H as (v & w2 & HV & H).
  apply bind_Ok in H as (x & w3 & HRe & H).
  injection H as <- <-. split; [reflexivity|].
  apply V_Ok in HV as (p & Hp & Hv & ->). simpl in Hp.
  rewrite lookup_new in Hp. injection Hp as <-. simpl in Hv.
  apply Re_Ok in HRe as (p & Hp & Hx & ->). simpl in Hp.
  rewrite list_lookup_insert_eq in Hp
    by (rewrite length_app; simpl; lia).
  injection Hp as <-. simpl in Hx.
  exists v, x. repeat split; try assumption. simpl.
  rewrite list_lookup_insert_eq
    by (rewrite length_insert, length_app; simpl; lia).
  reflexivity.
Qed.

Lemma Qc_div_eq_zero (x y : Qc) : y <> 0 -> x / y = 0 -> x = 0.
Proof.
  intros Hy H. rewrite <- (Qcmult_div_r x y Hy), H. ring.
Qed.

Lemma lit_nonzero (q : Q) : Qeq_bool q 0 = false -> lit q <> 0.
Proof.
  intros H E. apply not_true_iff_false in H. apply H.
  apply Qeq_bool_iff. apply (f_equal this) in E. simpl in E.
  rewrite <- (Qred_correct q). rewrite E. reflexivity.
Qed.

(** The constructor returns whenever the diameter and the viscosity are
    not zero. *)
Lemma Pipe_init_returns Start End L D r fluid w :
  D <> 0 -> Fluid.mu fluid <> 0 ->
  exists w', Pipe_init Start End L D r fluid w
             = Ok (List.length (pipe_objs w), w').
Proof.
  intros HD Hmu.
  assert (HA : math_pi * sq (D / lit 1000 / lit 2) <> 0).
  { unfold sq. intros H.
    apply Qcmult_integral in H as [H|H].
    { revert H. apply lit_nonzero. reflexivity. }
    assert (Hd : D / lit 1000 / lit 2 = 0)
      by (apply Qcmult_integral in H as [H|H]; exact H).
    apply HD.
    apply Qc_div_eq_zero in Hd; [|apply lit_nonzero; reflexivity].
    apply Qc_div_eq_zero in Hd; [|apply lit_nonzero; reflexivity].
    exact Hd. }
  unfold Pipe_init.
  erewrite bind_Ok_intro by reflexivity.
  erewrite bind_Ok_intro.
  2:{ apply V_Ok. eexists. split; [apply lookup_new|]. split; [|reflexivity].
      simpl. apply pydiv_nonzero. exact HA. }
  erewrite bind_Ok_intro.
  2:{ apply Re_Ok. eexists. split.
      { simpl. apply list_lookup_insert_eq. rewrite length_app. simpl. lia. }
      split; [|reflexivity]. simpl. apply pydiv_nonzero. exact Hmu. }
  eexists. reflexivity.
Qed.

Lemma same_endpoints_Q p q : same_endpoints p (Pipe.with_Q q p).
Proof. split; reflexivity. Qed.
Lemma same_endpoints_reynolds p x : same_endpoints p (Pipe.with_reynolds x p).
Proof. split; reflexivity. Qed.
Lemma same_endpoints_vel p v : same_endpoints p (Pipe.with_vel v p).
Proof. split; reflexivity. Qed.

(** ** Operations that raise *)

Section InterruptedFrames.

Variable F : relation World.
Context {F_pre : PreOrder F}.

Lemma ends_in_ret {T} (a : T) : ends_in F (Interrupted.ret a).
Proof. intros w. reflexivity. Qed.

Lemma ends_in_atomic {T} (m : Py T) :
  returns_in F m -> ends_in F (Interrupted.atomic m).
Proof.
  intros Hm w. unfold Interrupted.atomic.
  destruct (m w) as [[a w']|e] eqn:E; simpl; [exact (Hm _ _ _ E)|reflexivity].
Qed.

Lemma ends_in_bind {T U} (m : Interrupted.PyI T) (k : T -> Interrupted.PyI U) :
  ends_in F m -> (forall x, ends_in F (k x)) -> ends_in F (Interrupted.bind m k).
Proof.
  intros Hm Hk w. unfold Interrupted.bind.
  pose proof (Hm w) as H1. destruct (m w) as [[a|e] w1]; simpl in *.
  - transitivity w1; [exact H1|apply Hk].
  - exact H1.
Qed.

End InterruptedFrames.

Lemma returns_in_of_void {T} (F : relation World) (m : Py T) :
  returns_in F (void m) -> returns_in F m.
Proof.
  intros H w x w' Hm. apply (H w tt w'). unfold void.
  rewrite (bind_Ok_intro _ _ _ _ _ Hm). reflexivity.
Qed.

(** Split a goal [ends_in F m] along the structure of [m]. *)
Ltac ends_step :=
  lazymatch goal with
  | |- ends_in _ (Interrupted.bind _ _) =>
      apply ends_in_bind; try typeclasses eauto; [|intros ?]
  | |- ends_in _ (Interrupted.ret _) => apply ends_in_ret; try typeclasses eauto
  | |- ends_in _ (if ?b then _ else _) => destruct b
  | |- ends_in _ (match ?o with Some _ => _ | None => _ end) => destruct o
  | |- ends_in _ (Interrupted.atomic _) =>
      apply ends_in_atomic; try typeclasses eauto
  end.
Ltac ends := repeat ends_step.

Section InterruptedKeep.

Variable R : relation Pipe.t.
Context {R_pre : PreOrder R}.
Hypothesis R_Q : forall p q, R p (Pipe.with_Q q p).
Hypothesis R_reynolds : forall p x, R p (Pipe.with_reynolds x p).
Hypothesis R_vel : forall p v, R p (Pipe.with_vel v p).

Variable fsolve : list Qc -> Solver.
Variable sqrt : Qc -> Qc.
Variable log10 : Qc -> Qc.

(** The operations of the client interface that are not given a second
    time. *)
Lemma method_keep {T} (m : Py T) c :
  perform fsolve sqrt log10 c = void m -> returns_in (pipes_keep R) m.
Proof.
  intros E. apply returns_in_of_void. rewrite <- E.
  apply perform_keep; assumption.
Qed.

Ltac keep_leaf :=
  first [ apply Re_keep | apply V_keep | apply new_pipe_keep
        | apply new_list_keep | apply list_append_keep
        | apply returns_in_get_pipe | apply returns_in_get_list
        | apply returns_in_get_loop | apply returns_in_lift
        | apply returns_in_raise
        | apply returns_in_hydro_keep; side;
          first [apply normalvariate_hydro | apply set_Q_hydro]
        | lazymatch goal with
          | |- returns_in _ (getNodeFlowRates ?PN) =>
              apply (method_keep _ (call_getNodeFlowRates PN))
          | |- returns_in _ (oContainsNode ?p ?n) =>
              apply (method_keep _ (call_oContainsNode p n))
          | |- returns_in _ (nodeBuilt ?PN ?n) =>
              apply (method_keep _ (call_nodeBuilt PN n))
          | |- returns_in _ (Node_init ?a ?b ?c) =>
              apply (method_keep _ (call_Node_init a b c))
          end; reflexivity ];
  side.

Lemma I_Pipe_init_keep Start End L D r fluid :
  ends_in (pipes_keep R) (Interrupted.Pipe_init Start End L D r fluid).
Proof. unfold Interrupted.Pipe_init. ends; keep_leaf. Qed.

Lemma I_FrictionFactor_keep self :
  ends_in (pipes_keep R) (Interrupted.FrictionFactor fsolve sqrt log10 self).
Proof. unfold Interrupted.FrictionFactor. ends; keep_leaf. Qed.

Lemma I_frictionHeadLoss_keep self :
  ends_in (pipes_keep R) (Interrupted.frictionHeadLoss fsolve sqrt log10 self).
Proof.
  unfold Interrupted.frictionHeadLoss. ends;
    first [apply I_FrictionFactor_keep | keep_leaf].
Qed.

Lemma I_getFlowHeadLoss_keep self s :
  ends_in (pipes_keep R) (Interrupted.getFlowHeadLoss fsolve sqrt log10 self s).
Proof.
  unfold Interrupted.getFlowHeadLoss. ends;
    first [apply I_frictionHeadLoss_keep | keep_leaf].
Qed.

Lemma I_add_head_losses_keep ps startNode deltaP :
  ends_in (pipes_keep R)
    (Interrupted.add_head_losses fsolve sqrt log10 ps startNode deltaP).
Proof.
  revert startNode deltaP.
  induction ps as [|p ps IH]; intros startNode deltaP; simpl; ends;
    first [apply I_getFlowHeadLoss_keep | apply IH | keep_leaf].
Qed.

Lemma I_getLoopHeadLoss_keep self :
  ends_in (pipes_keep R) (Interrupted.getLoopHeadLoss fsolve sqrt log10 self).
Proof.
  unfold Interrupted.getLoopHeadLoss. ends; try keep_leaf.
  destruct x0 as [|p0 ps]; ends;
    first [apply I_add_head_losses_keep | keep_leaf].
Qed.

Lemma I_comprehension_keep f xs :
  (forall x, ends_in (pipes_keep R) (f x)) ->
  ends_in (pipes_keep R) (Interrupted.comprehension f xs).
Proof.
  intros Hf. induction xs as [|x xs IH]; simpl; ends;
    first [apply Hf | apply IH].
Qed.

Lemma I_getLoopHeadLosses_keep PN :
  ends_in (pipes_keep R) (Interrupted.getLoopHeadLosses fsolve sqrt log10 PN).
Proof.
  unfold Interrupted.getLoopHeadLosses. ends; try keep_leaf.
  apply I_comprehension_keep. apply I_getLoopHeadLoss_keep.
Qed.

Lemma I_set_flows_keep ps i q :
  ends_in (pipes_keep R) (Interrupted.set_flows ps i q).
Proof.
  revert i. induction ps as [|p ps IH]; intros i; simpl; ends;
    first [apply IH | keep_leaf].
Qed.

Lemma I_fn_keep PN q :
  ends_in (pipes_keep R) (Interrupted.fn fsolve sqrt log10 PN q).
Proof.
  unfold Interrupted.fn. ends;
    first [apply I_set_flows_keep | apply I_getLoopHeadLosses_keep | keep_leaf].
Qed.

Lemma I_solveM_keep s f :
  (forall q, ends_in (pipes_keep R) (f q)) ->
  ends_in (pipes_keep R) (Interrupted.solveM s f).
Proof.
  intros Hf. induction s as [x|q next IH]; simpl; ends;
    first [apply Hf | apply IH].
Qed.

Lemma I_findFlowRates_keep PN :
  ends_in (pipes_keep R) (Interrupted.findFlowRates fsolve sqrt log10 PN).
Proof.
  unfold Interrupted.findFlowRates. ends; try keep_leaf.
  apply I_solveM_keep. apply I_fn_keep.
Qed.

Lemma I_collect_pipes_keep node ps l :
  ends_in (pipes_keep R) (Interrupted.collect_pipes node ps l).
Proof.
  induction ps as [|p ps IH]; simpl; ends; first [apply IH | keep_leaf].
Qed.

Lemma I_getNodePipes_keep PN node :
  ends_in (pipes_keep R) (Interrupted.getNodePipes PN node).
Proof.
  unfold Interrupted.getNodePipes. ends;
    first [apply I_collect_pipes_keep | keep_leaf].
Qed.

Lemma I_build_node_keep PN name :
  ends_in (pipes_keep R) (Interrupted.build_node PN name).
Proof.
  unfold Interrupted.build_node. ends;
    first [apply I_getNodePipes_keep | keep_leaf].
Qed.

Lemma I_build_nodes_from_keep PN ps :
  ends_in (pipes_keep R) (Interrupted.build_nodes_from PN ps).
Proof.
  induction ps as [|p ps IH]; simpl; ends;
    first [apply I_build_node_keep | apply IH | keep_leaf].
Qed.

Lemma I_buildNodes_keep PN :
  ends_in (pipes_keep R) (Interrupted.buildNodes PN).
Proof.
  unfold Interrupted.buildNodes. ends;
    first [apply I_build_nodes_from_keep | keep_leaf].
Qed.

Lemma I_void_keep {T} (m : Interrupted.PyI T) :
  ends_in (pipes_keep R) m -> ends_in (pipes_keep R) (Interrupted.void m).
Proof. intros Hm. unfold Interrupted.void. ends. exact Hm. Qed.

Lemma I_perform_keep c :
  ends_in (pipes_keep R) (Interrupted.perform fsolve sqrt log10 c).
Proof.
  destruct c;
    lazymatch goal with
    | |- ends_in _ (Interrupted.perform _ _ _ ?c) =>
        simpl;
        first
          [ apply I_void_keep;
            first
              [ apply I_getLoopHeadLoss_keep | apply I_Pipe_init_keep
              | apply I_FrictionFactor_keep | apply I_frictionHeadLoss_keep
              | apply I_getFlowHeadLoss_keep | apply I_findFlowRates_keep
              | apply I_getLoopHeadLosses_keep | apply I_getNodePipes_keep
              | apply ends_in_atomic; side;
                apply (method_keep _ c); reflexivity ]
          | apply I_buildNodes_keep
          | apply ends_in_atomic; side;
            first [ apply list_append_keep | apply set_extFlow_keep
                  | apply returns_in_hydro_keep; side; apply set_Q_hydro ];
            side ]
    end.
Qed.

(** Whatever the client calls next, and whether the calls return or
    raise, every pipe is still at its address, related by [R] to what it
    was. *)
Lemma go_on_keep cs w :
  pipes_keep R w (Interrupted.go_on fsolve sqrt log10 cs w).
Proof.
  revert w. induction cs as [|c cs IH]; intros w; simpl.
  - reflexivity.
  - transitivity (snd (Interrupted.perform fsolve sqrt log10 c w));
      [apply I_perform_keep|apply IH].
Qed.

End InterruptedKeep.

(** *** The second reading agrees with the first *)

Lemma agrees_ret {T} (a : T) : agrees (Interrupted.ret a) (ret a).
Proof. intros w. reflexivity. Qed.

Lemma agrees_atomic {T} (m : Py T) : agrees (Interrupted.atomic m) m.
Proof.
  intros w. unfold Interrupted.atomic. destruct (m w) as [[a w']|e]; reflexivity.
Qed.

Lemma agrees_bind {T U} (mI : Interrupted.PyI T) (m : Py T)
    (kI : T -> Interrupted.PyI U) (k : T -> Py U) :
  agrees mI m -> (forall x, agrees (kI x) (k x)) ->
  agrees (Interrupted.bind mI kI) (bind m k).
Proof.
  intros Hm Hk w. unfold Interrupted.bind, bind.
  pose proof (Hm w) as H. destruct (mI w) as [[a|e] w1]; rewrite H.
  - apply Hk.
  - reflexivity.
Qed.

Ltac agree_step :=
  lazymatch goal with
  | |- agrees (Interrupted.bind _ _) (bind _ _) =>
      apply agrees_bind; [|intros ?]
  | |- agrees (Interrupted.ret _) (ret _) => apply agrees_ret
  | |- agrees (Interrupted.atomic _) _ => apply agrees_atomic
  | |- agrees (if ?b then _ else _) _ => destruct b
  | |- agrees (match ?o with Some _ => _ | None => _ end) _ => destruct o
  end.
Ltac agree := cbv zeta; repeat agree_step.

Lemma agrees_Pipe_init Start End L D r fluid :
  agrees (Interrupted.Pipe_init Start End L D r fluid)
         (Pipe_init Start End L D r fluid).
Proof. unfold Interrupted.Pipe_init, Pipe_init. agree. Qed.

Section Agreement.

Variable fsolve : list Qc -> Solver.
Variable sqrt : Qc -> Qc.
Variable log10 : Qc -> Qc.

Lemma agrees_FrictionFactor self :
  agrees (Interrupted.FrictionFactor fsolve sqrt log10 self)
         (FrictionFactor fsolve sqrt log10 self).
Proof. unfold Interrupted.FrictionFactor, FrictionFactor. agree. Qed.

Lemma agrees_frictionHeadLoss self :
  agrees (Interrupted.frictionHeadLoss fsolve sqrt log10 self)
         (frictionHeadLoss fsolve sqrt log10 self).
Proof.
  unfold Interrupted.frictionHeadLoss, frictionHeadLoss. agree.
  apply agrees_FrictionFactor.
Qed.

Lemma agrees_getFlowHeadLoss self s :
  agrees (Interrupted.getFlowHeadLoss fsolve sqrt log10 self s)
         (getFlowHeadLoss fsolve sqrt log10 self s).
Proof.
  unfold Interrupted.getFlowHeadLoss, getFlowHeadLoss. agree.
  apply agrees_frictionHeadLoss.
Qed.

Lemma agrees_add_head_losses ps startNode deltaP :
  agrees (Interrupted.add_head_losses fsolve sqrt log10 ps startNode deltaP)
         (add_head_losses fsolve sqrt log10 ps startNode deltaP).
Proof.
  revert startNode deltaP.
  induction ps as [|p ps IH]; intros startNode deltaP; simpl; agree;
    first [apply agrees_getFlowHeadLoss | apply IH].
Qed.

Lemma agrees_getLoopHeadLoss self :
  agrees (Interrupted.getLoopHeadLoss fsolve sqrt log10 self)
         (getLoopHeadLoss fsolve sqrt log10 self).
Proof.
  unfold Interrupted.getLoopHeadLoss, getLoopHeadLoss. agree.
  destruct x0 as [|p0 ps]; agree. apply agrees_add_head_losses.
Qed.

Lemma agrees_comprehension fI f xs :
  (forall x, agrees (fI x) (f x)) ->
  agrees (Interrupted.comprehension fI xs) (comprehension f xs).
Proof.
  intros Hf. induction xs as [|x xs IH]; simpl; agree;
    first [apply Hf | apply IH].
Qed.

Lemma agrees_getLoopHeadLosses PN :
  agrees (Interrupted.getLoopHeadLosses fsolve sqrt log10 PN)
         (getLoopHeadLosses fsolve sqrt log10 PN).
Proof.
  unfold Interrupted.getLoopHeadLosses, getLoopHeadLosses. agree.
  apply agrees_comprehension, agrees_getLoopHeadLoss.
Qed.

Lemma agrees_set_flows ps i q :
  agrees (Interrupted.set_flows ps i q) (set_flows ps i q).
Proof.
  revert i. induction ps as [|p ps IH]; intros i; simpl; agree. apply IH.
Qed.

Lemma agrees_fn PN q :
  agrees (Interrupted.fn fsolve sqrt log10 PN q) (fn fsolve sqrt log10 PN q).
Proof.
  unfold Interrupted.fn, fn. agree;
    first [apply agrees_set_flows | apply agrees_getLoopHeadLosses].
Qed.

Lemma agrees_solveM s fI f :
  (forall q, agrees (fI q) (f q)) ->
  agrees (Interrupted.solveM s fI) (solveM s f).
Proof.
  intros Hf. induction s as [x|q next IH]; simpl; agree;
    first [apply Hf | apply IH].
Qed.

Lemma agrees_findFlowRates PN :
  agrees (Interrupted.findFlowRates fsolve sqrt log10 PN)
         (findFlowRates fsolve sqrt log10 PN).
Proof.
  unfold Interrupted.findFlowRates, findFlowRates. agree.
  apply agrees_solveM, agrees_fn.
Qed.

Lemma agrees_collect_pipes node ps l :
  agrees (Interrupted.collect_pipes node ps l) (collect_pipes node ps l).
Proof. induction ps as [|p ps IH]; simpl; agree. apply IH. Qed.

Lemma agrees_getNodePipes PN node :
  agrees (Interrupted.getNodePipes PN node) (getNodePipes PN node).
Proof.
  unfold Interrupted.getNodePipes, getNodePipes. agree.
  apply agrees_collect_pipes.
Qed.

Lemma agrees_build_node PN name :
  agrees (Interrupted.build_node PN name) (build_node PN name).
Proof.
  unfold Interrupted.build_node, build_node. agree. apply agrees_getNodePipes.
Qed.

Lemma agrees_build_nodes_from PN ps :
  agrees (Interrupted.build_nodes_from PN ps) (build_nodes_from PN ps).
Proof.
  induction ps as [|p ps IH]; simpl; agree;
    first [apply agrees_build_node | apply IH].
Qed.

Lemma agrees_buildNodes PN :
  agrees (Interrupted.buildNodes PN) (buildNodes PN).
Proof.
  unfold Interrupted.buildNodes, buildNodes. agree.
  apply agrees_build_nodes_from.
Qed.

Lemma agrees_void {T} (mI : Interrupted.PyI T) (m : Py T) :
  agrees mI m -> agrees (Interrupted.void mI) (void m).
Proof. intros H. unfold Interrupted.void, void. agree. exact H. Qed.

(** Each operation of the client interface returns, in its second
    reading, what it returns in the first, in the same store, and raises
    what it raises there. *)
Lemma agrees_perform c :
  agrees (Interrupted.perform fsolve sqrt log10 c) (perform fsolve sqrt log10 c).
Proof.
  destruct c; simpl;
    first
      [ apply agrees_void;
        first
          [ apply agrees_atomic | apply agrees_getLoopHeadLoss
          | apply agrees_Pipe_init | apply agrees_FrictionFactor
          | apply agrees_frictionHeadLoss | apply agrees_getFlowHeadLoss
          | apply agrees_findFlowRates | apply agrees_getLoopHeadLosses
          | apply agrees_getNodePipes ]
      | apply agrees_buildNodes
      | apply agrees_atomic ].
Qed.

(** A sequence of operations that all return ends in the store in which
    [perform_all] returns. *)
Lemma go_on_returned cs w w' :
  perform_all fsolve sqrt log10 cs w = Ok (tt, w') ->
  Interrupted.go_on fsolve sqrt log10 cs w = w'.
Proof.
  revert w. induction cs as [|c cs IH]; intros w H; simpl in *.
  - injection H as <-. reflexivity.
  - apply bind_Ok in H as ([] & w1 & Hc & H).
    pose proof (agrees_perform c w) as Ha.
    destruct (Interrupted.perform fsolve sqrt log10 c w) as [[[]|e] w2].
    + rewrite Hc in Ha. injection Ha as <-. simpl. apply IH. exact H.
    + rewrite Hc in Ha. discriminate Ha.
Qed.

End Agreement.

(** C9, as the code has it.  The pipe built from two endpoint identifiers
    has them as [startNode] and [endNode], the smaller one first: when
    the identifiers differ, in whichever order they are given,
    [startNode < endNode] in the order on identifiers; when the same
    identifier is given twice, both endpoints are that identifier.
    Whatever the client does next (constructions, method calls,
    assignments of the client interface, each one returning or raising),
    both endpoints are as they were, and [Name()] returns
    ["startNode-endNode"]. *)
Theorem Pipe_endpoints_canonical
    (fsolve : list Qc -> Solver) (sqrt log10 : Qc -> Qc)
    (Start End : string) (L D r : Qc) (fluid : Fluid.t) (w : World)
    (self : addr) (w' : World) :
  Pipe_init Start End L D r fluid w = Ok (self, w') ->
  exists p,
    pipe_objs w' !! self = Some p /\
    (Start <> End -> String.ltb (Pipe.startNode p) (Pipe.endNode p) = true) /\
    (Start = End -> Pipe.startNode p = Start /\ Pipe.endNode p = Start) /\
    ((Pipe.startNode p = Start /\ Pipe.endNode p = End) \/
     (Pipe.startNode p = End /\ Pipe.endNode p = Start)) /\
    forall (cs : list Call),
      exists p',
        pipe_objs (Interrupted.go_on fsolve sqrt log10 cs w') !! self = Some p' /\
        Pipe.startNode p' = Pipe.startNode p /\
        Pipe.endNode p' = Pipe.endNode p /\
        Name self (Interrupted.go_on fsolve sqrt log10 cs w')
        = Ok ((Pipe.startNode p ++ "-" ++ Pipe.endNode p)%string,
              Interrupted.go_on fsolve sqrt log10 cs w').
Proof.
  intros Hinit.
  apply Pipe_init_Ok in Hinit as (_ & v & x & _ & _ & Hp).
  eexists. split; [exact Hp|]. simpl.
  split; [apply py_min_max_lt|].
  split.
  { intros <-. unfold py_min, py_max.
    destruct (String.ltb Start Start); auto. }
  split; [apply py_min_max_pair|].
  intros cs.
  destruct (go_on_keep same_endpoints same_endpoints_Q same_endpoints_reynolds
              same_endpoints_vel fsolve sqrt log10 cs w' _ _ Hp)
    as (p' & Hp' & Hs & He).
  simpl in Hs, He. exists p'. repeat split; try assumption.
  unfold Name. rewrite (bind_Ok_intro _ _ _ p' _)
    by (apply get_pipe_Ok; auto).
  unfold ret. rewrite Hs, He. reflexivity.
Qed.

(** On [Pipe('b', 'a')]: the endpoints are ["a"] and ["b"], in that
    order, whatever the client does next. *)
Lemma Pipe_endpoints_canonical_witness :
  exists p,
    pipe_objs pipe_ba_world !! 0%nat = Some p /\
    ("b" <> "a" -> String.ltb (Pipe.startNode p) (Pipe.endNode p) = true)%string /\
    ("b" = "a" -> Pipe.startNode p = "b" /\ Pipe.endNode p = "b")%string /\
    ((Pipe.startNode p = "b" /\ Pipe.endNode p = "a") \/
     (Pipe.startNode p = "a" /\ Pipe.endNode p = "b"))%string /\
    forall (cs : list Call),
      exists p',
        pipe_objs (Interrupted.go_on fsolve_once sqrt_id log10_id cs pipe_ba_world)
          !! 0%nat = Some p' /\
        Pipe.startNode p' = Pipe.startNode p /\
        Pipe.endNode p' = Pipe.endNode p /\
        Name 0%nat (Interrupted.go_on fsolve_once sqrt_id log10_id cs pipe_ba_world)
        = Ok ((Pipe.startNode p ++ "-" ++ Pipe.endNode p)%string,
              Interrupted.go_on fsolve_once sqrt_id log10_id cs pipe_ba_world).
Proof.
  apply (Pipe_endpoints_canonical fsolve_once sqrt_id log10_id
           "b" "a" (lit 100) (lit 200) (lit 0.00025) Fluid_default
           (module_loaded (constant_gauss 0))).
  vm_compute. reflexivity.
Defined.

(** A counterexample to C9: [Pipe('a', 'a')] is built without complaint,
    and both its endpoints are ["a"]: the start node is not below the end
    node. *)
Lemma Pipe_same_identifier_twice :
  exists w' p,
    Pipe_init "a" "a" (lit 100) (lit 200) (lit 0.00025) Fluid_default
              (module_loaded (constant_gauss 0)) = Ok (0%nat, w') /\
    pipe_objs w' !! 0%nat = Some p /\
    Pipe.startNode p = "a"%string /\ Pipe.endNode p = "a"%string /\
    String.ltb (Pipe.startNode p) (Pipe.endNode p) = false.
Proof.
  do 2 eexists. split; [vm_compute; reflexivity|].
  split; [vm_compute; reflexivity|]. repeat split.
Qed.

(** An operation that raises can leave the store changed:
    [FrictionFactor()] on the pipe [Pipe('b', 'a')] brought to rest stores
    the Reynolds number 0 before it raises [ZeroDivisionError]. *)
Example FrictionFactor_interrupted :
  fst (Interrupted.FrictionFactor fsolve_once sqrt_id log10_id 0%nat
         (world_at_Re 0 0))
  = Raise ZeroDivisionError /\
  Pipe.reynolds (pipe_at (world_at_Re 0 0) 0%nat) <> 0 /\
  Pipe.reynolds
    (pipe_at (snd (Interrupted.FrictionFactor fsolve_once sqrt_id log10_id 0%nat
                     (world_at_Re 0 0))) 0%nat) = 0.
Proof.
  split; [vm_compute; reflexivity|]. split; [qc_neq|qc_eq].
Qed.

(** The example of the specification: [Pipe("b", "a")] has endpoints
    ["a"] and ["b"] and is named ["a-b"]. *)
Example Pipe_b_a :
  (let* p := Pipe_init "b" "a" (lit 100) (lit 200) (lit 0.00025) Fluid_default in
   let* P := get_pipe p in
   let* n := Name p in
   ret (Pipe.startNode P, Pipe.endNode P, n))
    (module_loaded (constant_gauss 0))
  = Ok (("a", "b", "a-b")%string, pipe_ba_world).
Proof. vm_compute. reflexivity. Qed.

(** With twice the same identifier both endpoints are that identifier. *)
Example Pipe_a_a :
  value ((let* p := Pipe_init "a" "a" (lit 100) (lit 200) (lit 0.00025)
                              Fluid_default in
          let* P := get_pipe p in
          ret (Pipe.startNode P, Pipe.endNode P))
           (module_loaded (constant_gauss 0)))
  = Ok ("a", "a")%string.
Proof. vm_compute. reflexivity. Qed.

(** ** The methods of a pipe as functions of the pipe *)

Lemma Re_reynolds_of self w :
  Re self w =
  match pipe_objs w !! self with
  | None => Raise DanglingAddress
  | Some p =>
      match reynolds_of p with
      | Raise e => Raise e
      | Ok x => Ok (x, set_pipe_objs (<[self := Pipe.with_reynolds x p]> (pipe_objs w)) w)
      end
  end.
Proof.
  unfold Re, bind, get_pipe, reynolds_of.
  destruct (pipe_objs w !! self) as [p|]; [|reflexivity].
  unfold lift. destruct (pydiv _ _); reflexivity.
Qed.

Section PipeMethods.

Variable fsolve : list Qc -> Solver.
Variable sqrt : Qc -> Qc.
Variable log10 : Qc -> Qc.

Lemma FrictionFactor_friction_of self w :
  FrictionFactor fsolve sqrt log10 self w =
  match pipe_objs w !! self with
  | None => Raise DanglingAddress
  | Some p =>
      match friction_of fsolve sqrt log10 p (gauss w (drawn w)) with
      | Raise e => Raise e
      | Ok (Re, f, used) => Ok (f, evaluated self p Re used w)
      end
  end.
Proof.
  unfold FrictionFactor, friction_of. unfold bind at 1. rewrite Re_reynolds_of.
  destruct (pipe_objs w !! self) as [p|] eqn:Hp; [|reflexivity].
  destruct (reynolds_of p) as [x|e]; [|reflexivity]. simpl Res_bind.
  unfold bind at 1, get_pipe. simpl pipe_objs.
  rewrite list_lookup_insert_eq by (eapply lookup_lt_Some; eauto).
  unfold bind at 1, lift at 1. simpl Pipe.r. simpl Pipe.diameter.
  destruct (pydiv (Pipe.r p) (Pipe.diameter p)) as [rr|e]; [|reflexivity].
  simpl Res_bind. unfold regime, evaluated.
  destruct (Qc_leb (lit 4000) x).
  { unfold lift. destruct (CB fsolve sqrt log10 rr x); reflexivity. }
  destruct (Qc_leb x (lit 2000)).
  { unfold lift. destruct (lam x); reflexivity. }
  unfold bind, lift.
  destruct (CB fsolve sqrt log10 rr x); [|reflexivity].
  destruct (lam x); reflexivity.
Qed.

Lemma frictionHeadLoss_head_loss_of self w :
  frictionHeadLoss fsolve sqrt log10 self w =
  match pipe_objs w !! self with
  | None => Raise DanglingAddress
  | Some p =>
      match head_loss_of fsolve sqrt log10 p (gauss w (drawn w)) with
      | Raise e => Raise e
      | Ok (Re, hl, used) => Ok (hl, evaluated self p Re used w)
      end
  end.
Proof.
  unfold frictionHeadLoss, head_loss_of. unfold bind at 1.
  rewrite FrictionFactor_friction_of.
  destruct (pipe_objs w !! self) as [p|] eqn:Hp; [|reflexivity].
  destruct (friction_of fsolve sqrt log10 p (gauss w (drawn w)))
    as [[[x ff] used]|e]; [|reflexivity].
  simpl Res_bind. unfold bind at 1, get_pipe, evaluated. simpl pipe_objs.
  rewrite list_lookup_insert_eq by (eapply lookup_lt_Some; eauto).
  unfold bind, lift, ret. simpl.
  destruct (pydiv (ff * Pipe.length p) (Pipe.diameter p)); reflexivity.
Qed.

End PipeMethods.

(** ** Stale velocity *)

Lemma same_but_Q_reynolds_Q p q : same_but_Q_reynolds p (Pipe.with_Q q p).
Proof. repeat split; reflexivity. Qed.
Lemma same_but_Q_reynolds_reynolds p x :
  same_but_Q_reynolds p (Pipe.with_reynolds x p).
Proof. repeat split; reflexivity. Qed.

Section StaleVelocity.

Variable fsolve : list Qc -> Solver.
Variable sqrt : Qc -> Qc.
Variable log10 : Qc -> Qc.

Lemma lookup_put_same (ps : list Pipe.t) self p p' :
  ps !! self = Some p -> <[self := p']> ps !! self = Some p'.
Proof. intros H. apply list_lookup_insert_eq. eapply lookup_lt_Some; eauto. Qed.

(** C2.  Writing a trial flow rate into a pipe, as the residual function
    of [findFlowRates] does, changes neither the Reynolds number that
    [Re()] returns nor the head loss that [frictionHeadLoss()] returns:
    both are computed from the velocity stored by the last call of [V()],
    and no residual evaluation calls [V()]. *)
Theorem written_flow_not_used (w : World) (self : addr) (q : Qc) :
  value ((let* _ := set_Q self q in Re self) w) = value (Re self w) /\
  value ((let* _ := set_Q self q in frictionHeadLoss fsolve sqrt log10 self) w)
  = value (frictionHeadLoss fsolve sqrt log10 self w).
Proof.
  unfold set_Q, bind, get_pipe, put_pipe.
  rewrite (Re_reynolds_of self w), (frictionHeadLoss_head_loss_of _ _ _ self w).
  destruct (pipe_objs w !! self) as [p|] eqn:Hp; [|split; reflexivity].
  rewrite Re_reynolds_of, frictionHeadLoss_head_loss_of.
  simpl pipe_objs. rewrite (lookup_put_same _ _ _ _ Hp). simpl gauss. simpl drawn.
  change (reynolds_of (Pipe.with_Q q p)) with (reynolds_of p).
  change (head_loss_of fsolve sqrt log10 (Pipe.with_Q q p))
    with (head_loss_of fsolve sqrt log10 p).
  split.
  - destruct (reynolds_of p); reflexivity.
  - destruct (head_loss_of fsolve sqrt log10 p (gauss w (drawn w)))
      as [[[x hl] used]|e]; reflexivity.
Qed.

(** A residual evaluation leaves the stored velocity of every pipe as it
    was. *)
Lemma fn_keeps_vel PN q w r w' a p :
  fn fsolve sqrt log10 PN q w = Ok (r, w') ->
  pipe_objs w !! a = Some p ->
  exists p', pipe_objs w' !! a = Some p' /\ Pipe.vel p' = Pipe.vel p.
Proof.
  intros Hfn Hp.
  destruct (fn_hydro same_but_Q_reynolds same_but_Q_reynolds_Q
              same_but_Q_reynolds_reynolds fsolve sqrt log10 PN q w r w' Hfn)
    as (HF & _).
  destruct (Forall2_lookup_l _ _ _ _ _ HF Hp) as (p' & Hp' & HR).
  exists p'. split; [exact Hp'|]. apply HR.
Qed.

End StaleVelocity.

(** The pipe [Pipe('b', 'a')]: the Reynolds number after the flow rate 20
    has been written is the one of the flow rate 10 of the constructor; had
    [V()] been called it would be twice as large. *)
Example Re_after_writing_20 :
  exists x,
    value (Re 0%nat pipe_ba_world) = Ok x /\
    value ((let* _ := set_Q 0%nat (lit 20) in Re 0%nat) pipe_ba_world) = Ok x /\
    value ((let* _ := set_Q 0%nat (lit 20) in
            let* _ := V 0%nat in Re 0%nat) pipe_ba_world) = Ok (lit 2 * x).
Proof.
  eexists. split; [vm_compute; reflexivity|].
  split; [vm_compute; reflexivity|].
  etransitivity; [vm_compute; reflexivity|]. f_equal; try qc_eq.
Qed.

(** ** Reynolds number of a reversed flow *)

Lemma reynolds_of_signed p x :
  reynolds_of p = Ok x ->
  x = Fluid.rho (Pipe.fluid p) * Pipe.vel p * Pipe.diameter p
      / Fluid.mu (Pipe.fluid p).
Proof. unfold reynolds_of. intros H. apply pydiv_Ok in H as [_ ->]. reflexivity. Qed.

(** C6.  For the pipe [Pipe('b', 'a')] the Reynolds number of the flow rate
    10 is positive, and once the flow rate -10 has been written and the
    velocity recomputed by [V()], [Re()] returns its opposite: the Reynolds
    number is computed from the signed velocity and is negative. *)
Theorem Re_of_reversed_flow_negative :
  exists x,
    value (Re 0%nat pipe_ba_world) = Ok x /\ 0 < x /\
    value ((let* _ := set_Q 0%nat (- lit 10) in
            let* _ := V 0%nat in Re 0%nat) pipe_ba_world) = Ok (- x).
Proof.
  eexists. split; [vm_compute; reflexivity|].
  split; [vm_compute; reflexivity|].
  etransitivity; [vm_compute; reflexivity|]. f_equal; try qc_eq.
Qed.

(** ** Default collections *)

(** Two instances built without a collection argument hold the same list
    object. *)
Lemma Node_init_default_pipes Name ExtFlow Name' ExtFlow' w a w1 b w2 A B :
  Node_init Name None ExtFlow w = Ok (a, w1) ->
  Node_init Name' None ExtFlow' w1 = Ok (b, w2) ->
  node_objs w2 !! a = Some A -> node_objs w2 !! b = Some B ->
  Node.pipes A = Node.pipes B.
Proof.
  unfold Node_init, new_node. intros [= <- <-] [= <- <-]. simpl.
  rewrite lookup_new.
  rewrite lookup_app_l by (rewrite length_app; simpl; lia).
  rewrite lookup_new. intros [= <-] [= <-]. reflexivity.
Qed.

(** C10.  In a freshly loaded module, two [Node]s, two [Loop]s and two
    [PipeNetwork]s are built without a collection argument, and [x] (resp.
    [y], [z]) is appended to the [pipes] (resp. [loops], [nodes]) of the
    first of each: the collection of the second then contains it too. *)
Theorem default_collections_shared (g : nat -> Qc) (x y z : addr) :
  value (two_nodes_append x (module_loaded g)) = Ok [x] /\
  value (two_loops_append x (module_loaded g)) = Ok [x] /\
  value (two_networks_append x y z (module_loaded g)) = Ok ([x], [y], [z]).
Proof. repeat split; reflexivity. Qed.

(** ** The three regimes of the friction factor *)

Lemma lit_2000_lt_4000 : lit 2000 < lit 4000.
Proof. reflexivity. Qed.

Lemma regime_turbulent fsolve sqrt log10 Re rr z :
  lit 4000 <= Re ->
  regime fsolve sqrt log10 Re rr z
  = let+ f := CB fsolve sqrt log10 rr Re in Ok (f, false).
Proof.
  intros H. unfold regime. apply Qc_leb_le in H. rewrite H. reflexivity.
Qed.

Lemma regime_laminar fsolve sqrt log10 Re rr z :
  Re <= lit 2000 ->
  regime fsolve sqrt log10 Re rr z = let+ f := lam Re in Ok (f, false).
Proof.
  intros H. unfold regime.
  assert (H4 : Qc_leb (lit 4000) Re = false).
  { apply Qc_leb_gt. eapply Qcle_lt_trans; [exact H|apply lit_2000_lt_4000]. }
  apply Qc_leb_le in H. rewrite H4, H. reflexivity.
Qed.

Lemma regime_transition fsolve sqrt log10 Re rr z :
  lit 2000 < Re -> Re < lit 4000 ->
  regime fsolve sqrt log10 Re rr z
  = let+ CBff := CB fsolve sqrt log10 rr Re in
    let+ Lamff := lam Re in
    Ok (blend Re Lamff CBff + z * (lit 0.2 * blend Re Lamff CBff), true).
Proof.
  intros H2 H4. unfold regime.
  apply Qc_leb_gt in H2, H4. rewrite H4, H2. reflexivity.
Qed.

Lemma blend_2000 Re Lamff CBff :
  blend Re Lamff CBff = Lamff + ((Re - lit 2000) / lit 2000) * (CBff - Lamff).
Proof.
  unfold blend. replace (lit 4000 - lit 2000) with (lit 2000) by qc_eq.
  reflexivity.
Qed.

Section Regimes.

Variable fsolve : list Qc -> Solver.
Variable sqrt : Qc -> Qc.
Variable log10 : Qc -> Qc.

(** The friction factor of a pipe whose Reynolds number [Re] and relative
    roughness [rr] are defined, in terms of [regime]. *)
Lemma FrictionFactor_regime w self p Re rr :
  pipe_objs w !! self = Some p ->
  reynolds_of p = Ok Re ->
  pydiv (Pipe.r p) (Pipe.diameter p) = Ok rr ->
  FrictionFactor fsolve sqrt log10 self w =
  match regime fsolve sqrt log10 Re rr (gauss w (drawn w)) with
  | Raise e => Raise e
  | Ok (f, used) => Ok (f, evaluated self p Re used w)
  end.
Proof.
  intros Hp HRe Hrr. rewrite FrictionFactor_friction_of, Hp.
  unfold friction_of. rewrite HRe, Hrr. simpl Res_bind.
  destruct (regime fsolve sqrt log10 Re rr (gauss w (drawn w))) as [[f used]|e];
    reflexivity.
Qed.

Lemma FrictionFactor_turbulent w self p Re rr :
  pipe_objs w !! self = Some p ->
  reynolds_of p = Ok Re ->
  pydiv (Pipe.r p) (Pipe.diameter p) = Ok rr ->
  lit 4000 <= Re ->
  FrictionFactor fsolve sqrt log10 self w =
  match solve (fsolve [lit 0.01]) (map (cb sqrt log10 rr Re)) !! 0%nat with
  | Some f => Ok (f, evaluated self p Re false w)
  | None => Raise IndexError
  end.
Proof.
  intros Hp HRe Hrr H4. rewrite (FrictionFactor_regime _ _ _ _ _ Hp HRe Hrr).
  rewrite regime_turbulent by exact H4. unfold CB.
  destruct (solve _ _ !! 0%nat); reflexivity.
Qed.

Lemma FrictionFactor_laminar w self p Re rr :
  pipe_objs w !! self = Some p ->
  reynolds_of p = Ok Re ->
  pydiv (Pipe.r p) (Pipe.diameter p) = Ok rr ->
  Re <= lit 2000 ->
  FrictionFactor fsolve sqrt log10 self w =
  match pydiv (lit 64) Re with
  | Ok f => Ok (f, evaluated self p Re false w)
  | Raise e => Raise e
  end.
Proof.
  intros Hp HRe Hrr H2. rewrite (FrictionFactor_regime _ _ _ _ _ Hp HRe Hrr).
  rewrite regime_laminar by exact H2. unfold lam.
  destruct (pydiv (lit 64) Re); reflexivity.
Qed.

End Regimes.

(** C4, as the code has it.  The friction factor of a pipe with non-zero
    diameter and viscosity, for its Reynolds number
    [Re = rho * vel * diameter / mu] and relative roughness
    [rr = r / diameter]:
    - [Re >= 4000]: the first component of what [fsolve] returns, from the
      initial guess [[0.01]], for the function
      [f |-> 1 / f ** 0.5 + 2.0 * log10 (rr / 3.7 + 2.51 / (Re * f ** 0.5))],
      whose roots are the solutions of the Colebrook-White relation
      [1 / f ** 0.5 = - 2.0 * log10 (rr / 3.7 + 2.51 / (Re * f ** 0.5))];
    - [Re <= 2000], [Re] not zero: [64 / Re], which is [0.032] at
      [Re = 2000]; at [Re = 0] the division raises [ZeroDivisionError];
    - [2000 < Re < 4000]: [mean + z * (0.2 * mean)] for the next deviate [z]
      of the generator, with [mean = f_lam + ((Re - 2000) / 2000) *
      (f_turb - f_lam)], [f_lam = 64 / Re] and [f_turb] the value of the
      first case. *)
Theorem FrictionFactor_regimes
    (fsolve : list Qc -> Solver) (sqrt log10 : Qc -> Qc)
    (w : World) (self : addr) (p : Pipe.t) :
  pipe_objs w !! self = Some p ->
  Fluid.mu (Pipe.fluid p) <> 0 ->
  Pipe.diameter p <> 0 ->
  let Re := Fluid.rho (Pipe.fluid p) * Pipe.vel p * Pipe.diameter p
            / Fluid.mu (Pipe.fluid p) in
  let rr := Pipe.r p / Pipe.diameter p in
  let colebrook_white := fun f : Qc =>
        1 / sqrt f + lit 2 * log10 (rr / lit 3.7 + lit 2.51 / (Re * sqrt f)) in
  let found := solve (fsolve [lit 0.01]) (map colebrook_white) !! 0%nat in
  let w' := set_pipe_objs (<[self := Pipe.with_reynolds Re p]> (pipe_objs w)) w in
  (lit 4000 <= Re ->
   FrictionFactor fsolve sqrt log10 self w =
   match found with
   | Some f => Ok (f, w')
   | None => Raise IndexError
   end) /\
  (forall f, found = Some f -> colebrook_white f = 0 ->
   1 / sqrt f = - (lit 2 * log10 (rr / lit 3.7 + lit 2.51 / (Re * sqrt f)))) /\
  (Re <= lit 2000 -> Re <> 0 ->
   FrictionFactor fsolve sqrt log10 self w = Ok (lit 64 / Re, w')) /\
  (Re = 0 ->
   FrictionFactor fsolve sqrt log10 self w = Raise ZeroDivisionError) /\
  (Re = lit 2000 ->
   FrictionFactor fsolve sqrt log10 self w = Ok (lit 0.032, w')) /\
  (lit 2000 < Re -> Re < lit 4000 ->
   forall f_turb, found = Some f_turb ->
   let f_lam := lit 64 / Re in
   let mean := f_lam + ((Re - lit 2000) / lit 2000) * (f_turb - f_lam) in
   FrictionFactor fsolve sqrt log10 self w
   = Ok (mean + gauss w (drawn w) * (lit 0.2 * mean),
         set_drawn (S (drawn w)) w')).
Proof.
  intros Hp Hmu Hd Re0 rr colebrook_white found w'.
  assert (HRe : reynolds_of p = Ok Re0) by (apply pydiv_nonzero; exact Hmu).
  assert (Hrr : pydiv (Pipe.r p) (Pipe.diameter p) = Ok rr)
    by (apply pydiv_nonzero; exact Hd).
  assert (HCB : CB fsolve sqrt log10 rr Re0
                = match found with Some f => Ok f | None => Raise IndexError end)
    by reflexivity.
  assert (Hlam : Re0 <= lit 2000 -> Re0 <> 0 ->
                 FrictionFactor fsolve sqrt log10 self w = Ok (lit 64 / Re0, w')).
  { intros H2 H0.
    rewrite (FrictionFactor_laminar _ _ _ _ _ _ _ _ Hp HRe Hrr H2).
    rewrite pydiv_nonzero by exact H0. reflexivity. }
  split; [|split; [|split; [|split; [|split]]]].
  - intros H4.
    rewrite (FrictionFactor_regime _ _ _ _ _ _ _ _ Hp HRe Hrr).
    rewrite regime_turbulent by exact H4. rewrite HCB.
    destruct found; reflexivity.
  - intros f _ Hfound. unfold colebrook_white in Hfound.
    rewrite <- (Qcplus_0_l (- _)), <- Hfound. ring.
  - exact Hlam.
  - intros E.
    rewrite (FrictionFactor_laminar _ _ _ _ _ _ _ _ Hp HRe Hrr).
    + rewrite E. reflexivity.
    + rewrite E. discriminate.
  - intros E. rewrite Hlam.
    + rewrite E. do 2 f_equal. qc_eq.
    + rewrite E. apply Qcle_refl.
    + rewrite E. apply lit_nonzero. reflexivity.
  - intros H2 H4 f_turb Hfound f_lam mean.
    rewrite (FrictionFactor_regime _ _ _ _ _ _ _ _ Hp HRe Hrr).
    rewrite regime_transition by assumption. rewrite HCB, Hfound. simpl Res_bind.
    unfold lam. rewrite pydiv_nonzero.
    + simpl Res_bind. rewrite blend_2000. reflexivity.
    + intros E. rewrite E in H2. discriminate H2.
Qed.

(** On the pipe [Pipe('b', 'a')], with the stand-in solver, which
    returns its initial guess: [0.032] at the Reynolds number 2000 and
    [0.01] at the Reynolds number 5000. *)
Lemma FrictionFactor_regimes_witness :
  value (FrictionFactor fsolve_once sqrt_id log10_id 0%nat
           (world_at_Re (lit 2000) 0))
  = Ok (lit 0.032) /\
  value (FrictionFactor fsolve_once sqrt_id log10_id 0%nat
           (world_at_Re (lit 5000) 0))
  = Ok (lit 0.01).
Proof.
  split.
  - assert (Hp : pipe_objs (world_at_Re (lit 2000) 0) !! 0%nat
                 = Some (pipe_at (world_at_Re (lit 2000) 0) 0%nat))
      by (vm_compute; reflexivity).
    assert (Hmu : Fluid.mu (Pipe.fluid (pipe_at (world_at_Re (lit 2000) 0) 0%nat))
                  <> 0) by qc_neq.
    assert (Hd : Pipe.diameter (pipe_at (world_at_Re (lit 2000) 0) 0%nat) <> 0)
      by qc_neq.
    destruct (FrictionFactor_regimes fsolve_once sqrt_id log10_id
                (world_at_Re (lit 2000) 0) 0%nat
                (pipe_at (world_at_Re (lit 2000) 0) 0%nat) Hp Hmu Hd)
      as (_ & _ & _ & _ & H & _).
    rewrite H; [reflexivity|qc_eq].
  - assert (Hp : pipe_objs (world_at_Re (lit 5000) 0) !! 0%nat
                 = Some (pipe_at (world_at_Re (lit 5000) 0) 0%nat))
      by (vm_compute; reflexivity).
    assert (Hmu : Fluid.mu (Pipe.fluid (pipe_at (world_at_Re (lit 5000) 0) 0%nat))
                  <> 0) by qc_neq.
    assert (Hd : Pipe.diameter (pipe_at (world_at_Re (lit 5000) 0) 0%nat) <> 0)
      by qc_neq.
    destruct (FrictionFactor_regimes fsolve_once sqrt_id log10_id
                (world_at_Re (lit 5000) 0) 0%nat
                (pipe_at (world_at_Re (lit 5000) 0) 0%nat) Hp Hmu Hd)
      as (H & _).
    rewrite H; [reflexivity|vm_compute; discriminate].
Defined.

(** A counterexample to C4: the pipe [Pipe('b', 'a')] at rest (flow rate
    0 assigned to [Q], then [V()]) has the Reynolds number 0, which is
    below 2000, and [FrictionFactor] does not return [64 / Re], nor
    anything else: whatever the external functions, it raises. *)
Lemma FrictionFactor_laminar_at_rest :
  value (Re 0%nat (world_at_Re 0 1)) = Ok 0 /\
  0 <= lit 2000 /\
  forall fsolve sqrt log10,
    ~ exists f w', FrictionFactor fsolve sqrt log10 0%nat (world_at_Re 0 1)
                   = Ok (f, w').
Proof.
  split; [value_eq|]. split; [vm_compute; discriminate|].
  intros fsolve sqrt log10 (f & w' & H).
  assert (E : FrictionFactor fsolve sqrt log10 0%nat (world_at_Re 0 1)
              = Raise ZeroDivisionError) by (vm_compute; reflexivity).
  rewrite E in H. discriminate H.
Qed.

(** The regimes on the pipe [Pipe('b', 'a')], at flow rates chosen for
    the Reynolds number, with deviates all equal to 1 and the stand-in
    solver (which returns its initial guess 0.01). *)
Example FrictionFactor_at_5000 :
  value (FrictionFactor fsolve_once sqrt_id log10_id 0%nat
           (world_at_Re (lit 5000) 1)) = Ok (lit 0.01).
Proof. vm_compute. reflexivity. Qed.

Example FrictionFactor_at_3000 :
  value (FrictionFactor fsolve_once sqrt_id log10_id 0%nat
           (world_at_Re (lit 3000) 1)) = Ok (lit 0.0188).
Proof. etransitivity; [vm_compute; reflexivity|]. f_equal; try qc_eq. Qed.

Example FrictionFactor_at_minus_1000 :
  value (FrictionFactor fsolve_once sqrt_id log10_id 0%nat
           (world_at_Re (- lit 1000) 1)) = Ok (- lit 0.064).
Proof. etransitivity; [vm_compute; reflexivity|]. f_equal; try qc_eq. Qed.

(** ** No fallback in the friction model *)

(** A counterexample to C7: at the flow rate 0 (assigned to [Q], then
    [V()]), the Reynolds number of the pipe [Pipe('b', 'a')] is 0 and its
    friction factor is not the laminar estimate: whatever the external
    functions, [FrictionFactor] raises [ZeroDivisionError]. *)
Lemma FrictionFactor_raises_at_zero_Re :
  value (Re 0%nat (world_at_Re 0 0)) = Ok 0 /\
  (forall fsolve sqrt log10,
      FrictionFactor fsolve sqrt log10 0%nat (world_at_Re 0 0)
      = Raise ZeroDivisionError).
Proof.
  split; [value_eq|].
  intros fsolve sqrt log10. vm_compute. reflexivity.
Qed.

(** An exception raised by a probe ends the run of the solver. *)
Lemma solveM_Probe_raises q next f w e :
  f q w = Raise e -> solveM (Probe q next) f w = Raise e.
Proof. intros H. simpl. apply bind_Raise_intro. exact H. Qed.

(** C7, as the code has it.  For a pipe with non-zero diameter and
    viscosity: when its Reynolds number is negative, [FrictionFactor]
    returns the laminar value [64 / Re], which is negative, and the only
    change in the store is the Reynolds number stored in the pipe; when it
    is zero, [FrictionFactor] raises [ZeroDivisionError]; when it is 4000 or
    more, the first component of whatever [fsolve] answers is returned, with
    no test of convergence. *)
Theorem FrictionFactor_no_fallback
    (fsolve : list Qc -> Solver) (sqrt log10 : Qc -> Qc)
    (w : World) (self : addr) (p : Pipe.t) :
  pipe_objs w !! self = Some p ->
  Fluid.mu (Pipe.fluid p) <> 0 ->
  Pipe.diameter p <> 0 ->
  let Re := Fluid.rho (Pipe.fluid p) * Pipe.vel p * Pipe.diameter p
            / Fluid.mu (Pipe.fluid p) in
  let rr := Pipe.r p / Pipe.diameter p in
  let w' := set_pipe_objs (<[self := Pipe.with_reynolds Re p]> (pipe_objs w)) w in
  (Re < 0 ->
   FrictionFactor fsolve sqrt log10 self w = Ok (lit 64 / Re, w') /\
   lit 64 / Re < 0) /\
  (Re = 0 ->
   FrictionFactor fsolve sqrt log10 self w = Raise ZeroDivisionError) /\
  (lit 4000 <= Re ->
   forall answer, solve (fsolve [lit 0.01]) (map (cb sqrt log10 rr Re)) = answer ->
   FrictionFactor fsolve sqrt log10 self w =
   match answer !! 0%nat with
   | Some f => Ok (f, w')
   | None => Raise IndexError
   end).
Proof.
  intros Hp Hmu Hd Re0 rr w'.
  assert (HRe : reynolds_of p = Ok Re0) by (apply pydiv_nonzero; exact Hmu).
  assert (Hrr : pydiv (Pipe.r p) (Pipe.diameter p) = Ok rr)
    by (apply pydiv_nonzero; exact Hd).
  repeat split.
  - rewrite (FrictionFactor_laminar _ _ _ _ _ _ _ _ Hp HRe Hrr).
    + rewrite pydiv_nonzero; [reflexivity|].
      intros E. rewrite E in H. discriminate H.
    + apply Qclt_le_weak. eapply Qclt_trans; [exact H|reflexivity].
  - apply Qcdiv_pos_neg; [reflexivity|exact H].
  - intros E.
    rewrite (FrictionFactor_laminar _ _ _ _ _ _ _ _ Hp HRe Hrr)
      by (rewrite E; discriminate).
    rewrite E. reflexivity.
  - intros H4 answer <-.
    exact (FrictionFactor_turbulent _ _ _ _ _ _ _ _ Hp HRe Hrr H4).
Qed.

Lemma FrictionFactor_no_fallback_witness :
  value (FrictionFactor fsolve_once sqrt_id log10_id 0%nat
           (world_at_Re (- lit 1000) 0))
  = Ok (- lit 0.064).
Proof.
  assert (Hp : pipe_objs (world_at_Re (- lit 1000) 0) !! 0%nat
               = Some (pipe_at (world_at_Re (- lit 1000) 0) 0%nat))
    by (vm_compute; reflexivity).
  assert (Hmu : Fluid.mu (Pipe.fluid (pipe_at (world_at_Re (- lit 1000) 0) 0%nat))
                <> 0) by qc_neq.
  assert (Hd : Pipe.diameter (pipe_at (world_at_Re (- lit 1000) 0) 0%nat) <> 0)
    by qc_neq.
  destruct (FrictionFactor_no_fallback fsolve_once sqrt_id log10_id
              (world_at_Re (- lit 1000) 0) 0%nat
              (pipe_at (world_at_Re (- lit 1000) 0) 0%nat) Hp Hmu Hd)
    as (H & _ & _).
  destruct H as [H _]; [vm_compute; reflexivity|].
  rewrite H. simpl value. f_equal. qc_eq.
Defined.

(** ** Friction is sampled at every evaluation *)

(** A counterexample to C3: the first residual evaluation of the solve on
    [transition_network], at the initial guess.  With deviates all 0 and
    with deviates all 1 the residual of the loop differs (the friction
    factor is [mean] in one case and [1.2 * mean] in the other), and the
    evaluation has consumed a deviate. *)
Lemma residual_depends_on_deviate :
  exists r0 r1 w0 w1,
    transition_residual 0 = Ok (r0, w0) /\
    transition_residual 1 = Ok (r1, w1) /\
    take 2 r0 = take 2 r1 /\
    (exists h, r0 !! 2%nat = Some h /\ r1 !! 2%nat = Some (lit 1.2 * h) /\ 0 < h) /\
    drawn w0 = 1%nat /\ drawn w1 = 1%nat.
Proof.
  do 4 eexists.
  split; [vm_compute; reflexivity|].
  split; [vm_compute; reflexivity|].
  split; [reflexivity|].
  split; [|split; reflexivity].
  eexists. split; [reflexivity|]. split; [|reflexivity].
  simpl. f_equal. qc_eq.
Qed.

Section Sampling.

Variable fsolve : list Qc -> Solver.
Variable sqrt : Qc -> Qc.
Variable log10 : Qc -> Qc.

Lemma getFlowHeadLoss_head_loss_of self s w :
  getFlowHeadLoss fsolve sqrt log10 self s w =
  match pipe_objs w !! self with
  | None => Raise DanglingAddress
  | Some p =>
      match head_loss_of fsolve sqrt log10 p (gauss w (drawn w)) with
      | Raise e => Raise e
      | Ok (Re, hl, used) =>
          Ok ((if String.eqb s (Pipe.startNode p) then 1 else - (1))
              * (if Qc_leb 0 (Pipe.Q p) then 1 else - (1)) * hl,
              evaluated self p Re used w)
      end
  end.
Proof.
  unfold getFlowHeadLoss. unfold bind at 1, get_pipe.
  destruct (pipe_objs w !! self) as [p|] eqn:Hp; [|reflexivity].
  unfold bind. rewrite frictionHeadLoss_head_loss_of, Hp.
  destruct (head_loss_of fsolve sqrt log10 p (gauss w (drawn w)))
    as [[[x hl] used]|e]; reflexivity.
Qed.

(** C3, as the code has it.  The signed head loss that a residual
    evaluation asks of a pipe whose Reynolds number lies strictly between
    2000 and 4000 is computed from a sampled friction factor: for the next
    deviate [z] of the generator, [f = mean + z * (0.2 * mean)] with [mean]
    the blended mean; the evaluation consumes that deviate. *)
Theorem getFlowHeadLoss_transition_sampled
    (w : World) (self : addr) (s : string) (p : Pipe.t) (f_turb : Qc) :
  pipe_objs w !! self = Some p ->
  Fluid.mu (Pipe.fluid p) <> 0 ->
  Pipe.diameter p <> 0 ->
  let Re := Fluid.rho (Pipe.fluid p) * Pipe.vel p * Pipe.diameter p
            / Fluid.mu (Pipe.fluid p) in
  let rr := Pipe.r p / Pipe.diameter p in
  lit 2000 < Re -> Re < lit 4000 ->
  CB fsolve sqrt log10 rr Re = Ok f_turb ->
  let z := gauss w (drawn w) in
  let mean := blend Re (lit 64 / Re) f_turb in
  let f := mean + z * (lit 0.2 * mean) in
  let nTraverse : Qc := if String.eqb s (Pipe.startNode p) then 1 else - (1) in
  let nFlow : Qc := if Qc_leb 0 (Pipe.Q p) then 1 else - (1) in
  getFlowHeadLoss fsolve sqrt log10 self s w
  = Ok (nTraverse * nFlow
        * (f * Pipe.length p / Pipe.diameter p
           * (sq (Pipe.vel p) / (lit 2 * lit 9.81))),
        set_drawn (S (drawn w))
          (set_pipe_objs (<[self := Pipe.with_reynolds Re p]> (pipe_objs w)) w)).
Proof.
  intros Hp Hmu Hd Re0 rr H2 H4 HCB z mean f nTraverse nFlow.
  rewrite getFlowHeadLoss_head_loss_of, Hp.
  unfold head_loss_of, friction_of, reynolds_of.
  rewrite pydiv_nonzero by exact Hmu. fold Re0.
  rewrite (pydiv_nonzero (Pipe.r p)) by exact Hd. fold rr. simpl Res_bind.
  rewrite regime_transition by assumption. rewrite HCB. simpl Res_bind.
  unfold lam. rewrite pydiv_nonzero
    by (intros E; rewrite E in H2; discriminate H2).
  simpl Res_bind. simpl fst. simpl snd.
  rewrite pydiv_nonzero by exact Hd. simpl Res_bind.
  reflexivity.
Qed.

End Sampling.

Lemma getFlowHeadLoss_transition_sampled_witness :
  exists h,
    value (getFlowHeadLoss fsolve_once sqrt_id log10_id 0%nat "a"
             (world_at_Re (lit 3000) 1)) = Ok h /\
    value (getFlowHeadLoss fsolve_once sqrt_id log10_id 0%nat "a"
             (world_at_Re (lit 3000) 0)) = Ok (h / lit 1.2) /\
    drawn (after (getFlowHeadLoss fsolve_once sqrt_id log10_id 0%nat "a")
             (world_at_Re (lit 3000) 1)) = 1%nat.
Proof.
  set (w := world_at_Re (lit 3000) 1).
  assert (Hp : pipe_objs w !! 0%nat = Some (pipe_at w 0%nat))
    by (vm_compute; reflexivity).
  assert (Hmu : Fluid.mu (Pipe.fluid (pipe_at w 0%nat)) <> 0) by qc_neq.
  assert (Hd : Pipe.diameter (pipe_at w 0%nat) <> 0) by qc_neq.
  pose proof (getFlowHeadLoss_transition_sampled fsolve_once sqrt_id log10_id
                w 0%nat "a" (pipe_at w 0%nat) (lit 0.01) Hp Hmu Hd) as H.
  cbv zeta in H.
  assert (H2 : lit 2000 < Fluid.rho (Pipe.fluid (pipe_at w 0%nat))
                          * Pipe.vel (pipe_at w 0%nat)
                          * Pipe.diameter (pipe_at w 0%nat)
                          / Fluid.mu (Pipe.fluid (pipe_at w 0%nat)))
    by (vm_compute; reflexivity).
  assert (H4 : Fluid.rho (Pipe.fluid (pipe_at w 0%nat))
               * Pipe.vel (pipe_at w 0%nat)
               * Pipe.diameter (pipe_at w 0%nat)
               / Fluid.mu (Pipe.fluid (pipe_at w 0%nat)) < lit 4000)
    by (vm_compute; reflexivity).
  specialize (H H2 H4 ltac:(vm_compute; reflexivity)).
  eexists. split; [rewrite H; reflexivity|].
  split; [|unfold after; rewrite H; reflexivity].
  etransitivity; [vm_compute; reflexivity|]. f_equal. qc_eq.
Defined.

(** ** Traversal of a loop *)

Lemma eqb_eq_iff (a b : string) : String.eqb a b = true <-> a = b.
Proof. apply String.eqb_eq. Qed.

(** The node the code moves to is an endpoint of the pipe, and it is not
    the current node when the endpoints differ. *)
Lemma next_node_other (current : string) (p : Pipe.t) :
  (next_node current p = Pipe.startNode p \/ next_node current p = Pipe.endNode p) /\
  (Pipe.startNode p <> Pipe.endNode p -> next_node current p <> current).
Proof.
  unfold next_node.
  destruct (String.eqb current (Pipe.endNode p)) eqn:E; simpl.
  - apply eqb_eq_iff in E. subst current. split; [auto|]. intros H. exact H.
  - apply String.eqb_neq in E. split; [auto|]. intros _ H. auto.
Qed.

(** On a node of the pipe, it is the other endpoint. *)
Lemma next_node_other_endpoint (current : string) (p : Pipe.t) :
  current = Pipe.startNode p \/ current = Pipe.endNode p ->
  next_node current p = other_endpoint p current.
Proof.
  unfold next_node, other_endpoint. intros H.
  destruct (String.eqb current (Pipe.endNode p)) eqn:E1,
           (String.eqb current (Pipe.startNode p)) eqn:E2; simpl;
    try reflexivity.
  - apply eqb_eq_iff in E1, E2. congruence.
  - apply String.eqb_neq in E1, E2. destruct H; contradiction.
Qed.

Lemma chain_evaluated self p Re used w current ps :
  pipe_objs w !! self = Some p ->
  chain w current ps -> chain (evaluated self p Re used w) current ps.
Proof.
  intros Hp. revert current. induction ps as [|a ps IH]; intros current; simpl.
  - auto.
  - intros (P & HP & Hc & Hch).
    destruct (decide (self = a)) as [->|Hne].
    + rewrite Hp in HP. injection HP as <-.
      exists (Pipe.with_reynolds Re p). split; [|split].
      * apply lookup_put_same with (p := p). exact Hp.
      * exact Hc.
      * apply IH. exact Hch.
    + exists P. split; [|split].
      * rewrite list_lookup_insert_ne by exact Hne. exact HP.
      * exact Hc.
      * apply IH. exact Hch.
Qed.

Section Traversal.

Variable fsolve : list Qc -> Solver.
Variable sqrt : Qc -> Qc.
Variable log10 : Qc -> Qc.

Lemma add_head_losses_netHeadLoss_from ps current total w :
  chain w current ps ->
  add_head_losses fsolve sqrt log10 ps current total w
  = netHeadLoss_from fsolve sqrt log10 ps current total w.
Proof.
  revert current total w. induction ps as [|a ps IH]; intros current total w; simpl.
  - reflexivity.
  - intros (P & HP & Hc & Hch).
    unfold bind at 1. rewrite getFlowHeadLoss_head_loss_of, HP.
    unfold bind at 2, get_pipe at 2. rewrite HP.
    unfold bind at 2. rewrite frictionHeadLoss_head_loss_of, HP.
    destruct (head_loss_of fsolve sqrt log10 P (gauss w (drawn w)))
      as [[[x hl] used]|e]; [|reflexivity].
    unfold bind, get_pipe. unfold evaluated at 1. simpl pipe_objs.
    rewrite (lookup_put_same _ _ _ _ HP).
    change (next_node current (Pipe.with_reynolds x P)) with (next_node current P).
    rewrite (next_node_other_endpoint _ _ Hc).
    fold (evaluated a P x used w).
    rewrite IH by (apply chain_evaluated; assumption).
    f_equal. unfold traversalSign, flowSign. ring.
Qed.

(** C5.  For a loop whose pipes can be followed from the start node of the
    first one, [getLoopHeadLoss] is the traversal of the specification: it
    starts at that node, adds for each pipe in stored order its head loss
    times the traversal sign (+1 when the current node is the start node of
    the pipe, else -1) times the flow sign (+1 when [Q >= 0], else -1), and
    moves to the other endpoint of the pipe. *)
Theorem getLoopHeadLoss_traversal
    (w : World) (self : addr) (l : Loop.t) (p0 : addr) (ps : list addr)
    (P0 : Pipe.t) :
  loop_objs w !! self = Some l ->
  list_objs w !! Loop.pipes l = Some (p0 :: ps) ->
  pipe_objs w !! p0 = Some P0 ->
  chain w (Pipe.startNode P0) (p0 :: ps) ->
  getLoopHeadLoss fsolve sqrt log10 self w
  = netHeadLoss_from fsolve sqrt log10 (p0 :: ps) (Pipe.startNode P0) 0 w.
Proof.
  intros Hl Hps HP0 Hch. unfold getLoopHeadLoss.
  rewrite (bind_Ok_intro _ _ w l w) by (apply get_loop_Ok; auto).
  rewrite (bind_Ok_intro _ _ w (p0 :: ps) w) by (apply get_list_Ok; auto).
  rewrite (bind_Ok_intro _ _ w P0 w) by (apply get_pipe_Ok; auto).
  apply add_head_losses_netHeadLoss_from. exact Hch.
Qed.

End Traversal.

(** Loop [A] of [main]: the pipes a-b, b-e, d-e, c-d, a-c, followed from
    the node [a]. *)
Lemma getLoopHeadLoss_traversal_witness :
  getLoopHeadLoss fsolve_once sqrt_id log10_id 0%nat main_world
  = netHeadLoss_from fsolve_once sqrt_id log10_id
      [0; 2; 5; 3; 1]%nat "a" 0 main_world.
Proof.
  apply (getLoopHeadLoss_traversal fsolve_once sqrt_id log10_id main_world
           0%nat (Loop.mk "A" 13%nat) 0%nat [2; 5; 3; 1]%nat
           (pipe_at main_world 0%nat)).
  - vm_compute. reflexivity.
  - vm_compute. reflexivity.
  - vm_compute. reflexivity.
  - repeat (eexists; split; [vm_compute; reflexivity|];
            split; [vm_compute; auto|]).
    exact I.
Defined.

(** The net head loss of loop [A] of [main] with the stand-in solver, for
    which every friction factor is 0.01: the pipes a-b, b-e are followed
    forwards and d-e, c-d, a-c backwards. *)
Example main_loop_A_signs :
  exists h_ab h_be h_de h_cd h_ac,
    value (frictionHeadLoss fsolve_once sqrt_id log10_id 0%nat main_world) = Ok h_ab /\
    value (frictionHeadLoss fsolve_once sqrt_id log10_id 2%nat main_world) = Ok h_be /\
    value (frictionHeadLoss fsolve_once sqrt_id log10_id 5%nat main_world) = Ok h_de /\
    value (frictionHeadLoss fsolve_once sqrt_id log10_id 3%nat main_world) = Ok h_cd /\
    value (frictionHeadLoss fsolve_once sqrt_id log10_id 1%nat main_world) = Ok h_ac /\
    value (getLoopHeadLoss fsolve_once sqrt_id log10_id 0%nat main_world)
    = Ok (h_ab + h_be - h_de - h_cd - h_ac).
Proof.
  do 5 eexists. repeat (split; [vm_compute; reflexivity|]).
  value_eq.
Qed.

(** ** The solve does not compare the counts *)

(** A counterexample to C8: the network of [main] has 10 pipes, 8 nodes and
    3 loops, and 10 is not 8 + 3; [findFlowRates] reports no error on it.
    With the stand-in solver, which evaluates the residual function once at
    the initial guess, it returns the 11 entries of that guess. *)
Lemma main_network_counts_differ :
  value (main_network (module_loaded (constant_gauss 0))) = Ok main_PN /\
  counts main_PN main_world = Some (10, 8, 3)%nat /\
  (10 <> 8 + 3)%nat /\
  value (findFlowRates fsolve_once sqrt_id log10_id main_PN main_world)
  = Ok (repeat (lit 10) 11).
Proof.
  split; [vm_compute; reflexivity|].
  split; [vm_compute; reflexivity|].
  split; [lia|].
  vm_compute. reflexivity.
Qed.

Lemma set_Q_valid self q w :
  is_Some (pipe_objs w !! self) ->
  exists w', set_Q self q w = Ok (tt, w') /\
             List.length (pipe_objs w') = List.length (pipe_objs w).
Proof.
  intros [p Hp]. unfold set_Q.
  rewrite (bind_Ok_intro _ _ w p w) by (apply get_pipe_Ok; auto).
  eexists. split; [reflexivity|]. simpl. apply length_insert.
Qed.

Section Counts.

Variable fsolve : list Qc -> Solver.
Variable sqrt : Qc -> Qc.
Variable log10 : Qc -> Qc.

Lemma set_flows_short ps i q w :
  (i <= List.length q)%nat ->
  (List.length q < i + List.length ps)%nat ->
  Forall (fun p => is_Some (pipe_objs w !! p)) ps ->
  set_flows ps i q w = Raise IndexError.
Proof.
  revert i w. induction ps as [|p ps IH]; intros i w Hi Hlen Hvalid; simpl in *.
  - lia.
  - destruct (q !! i) as [x|] eqn:Hq; [|reflexivity].
    inversion_clear Hvalid as [|? ? Hp Hps].
    destruct (set_Q_valid p x w Hp) as (w1 & Hset & Hl).
    rewrite (bind_Ok_intro _ _ w tt w1 Hset).
    apply lookup_lt_Some in Hq. apply IH.
    + lia.
    + lia.
    + eapply List.Forall_impl; [|exact Hps]. simpl. intros a Ha.
      apply lookup_lt_is_Some. apply lookup_lt_is_Some in Ha. lia.
Qed.

Lemma set_flows_take ps i q n w :
  (i + List.length ps <= n)%nat ->
  set_flows ps i q w = set_flows ps i (take n q) w.
Proof.
  revert i w. induction ps as [|p ps IH]; intros i w Hlen; simpl in *.
  - reflexivity.
  - rewrite lookup_take_lt by lia.
    destruct (q !! i) as [x|]; [|reflexivity].
    unfold bind. destruct (set_Q p x w) as [[[] w1]|e]; [|reflexivity].
    apply IH. lia.
Qed.

(** C8, as the code has it.  [findFlowRates] does not compare the number
    of pipes with the numbers of nodes and loops: it hands [fsolve] an
    initial guess of as many entries, all 10, as there are nodes and loops,
    and the residual function.  A residual evaluation on a vector with
    fewer entries than there are pipes raises [IndexError]; on a vector
    with more entries, it uses only the first ones, one per pipe. *)
Theorem findFlowRates_no_count_check
    (PN : PipeNetwork.t) (w : World) (ps ns ls : list addr) :
  list_objs w !! PipeNetwork.pipes PN = Some ps ->
  list_objs w !! PipeNetwork.nodes PN = Some ns ->
  list_objs w !! PipeNetwork.loops PN = Some ls ->
  Forall (fun p => is_Some (pipe_objs w !! p)) ps ->
  findFlowRates fsolve sqrt log10 PN w
  = solveM (fsolve (repeat (lit 10) (List.length ns + List.length ls)))
           (fn fsolve sqrt log10 PN) w /\
  (forall q, (List.length q < List.length ps)%nat ->
             fn fsolve sqrt log10 PN q w = Raise IndexError) /\
  (forall q, (List.length ps <= List.length q)%nat ->
             fn fsolve sqrt log10 PN q w
             = fn fsolve sqrt log10 PN (take (List.length ps) q) w).
Proof.
  intros Hps Hns Hls Hvalid. repeat split.
  - unfold findFlowRates.
    rewrite (bind_Ok_intro _ _ w ns w) by (apply get_list_Ok; auto).
    rewrite (bind_Ok_intro _ _ w ls w) by (apply get_list_Ok; auto).
    reflexivity.
  - intros q Hq. unfold fn.
    rewrite (bind_Ok_intro _ _ w ps w) by (apply get_list_Ok; auto).
    apply bind_Raise_intro. apply set_flows_short; [lia|simpl; lia|exact Hvalid].
  - intros q Hq. unfold fn.
    rewrite !(bind_Ok_intro _ _ w ps w) by (apply get_list_Ok; auto).
    unfold bind at 1.
    rewrite (set_flows_take ps 0 q (List.length ps) w) by (simpl; lia).
    reflexivity.
Qed.

End Counts.

(** On the network of [main], with its 10 pipes, the eleventh entry of a
    trial vector is not used. *)
Lemma findFlowRates_no_count_check_witness :
  fn fsolve_once sqrt_id log10_id main_PN (repeat (lit 10) 10 ++ [lit 77]) main_world
  = fn fsolve_once sqrt_id log10_id main_PN (repeat (lit 10) 10) main_world.
Proof.
  assert (Hps : list_objs main_world !! PipeNetwork.pipes main_PN
                = Some (seq 0 10)) by (vm_compute; reflexivity).
  assert (Hns : list_objs main_world !! PipeNetwork.nodes main_PN
                = Some (seq 0 8)) by (vm_compute; reflexivity).
  assert (Hls : list_objs main_world !! PipeNetwork.loops main_PN
                = Some (seq 0 3)) by (vm_compute; reflexivity).
  assert (Hvalid : Forall (fun p => is_Some (pipe_objs main_world !! p)) (seq 0 10)).
  { simpl seq.
    repeat (apply List.Forall_cons; [vm_compute; eexists; reflexivity|]).
    apply List.Forall_nil. }
  destruct (findFlowRates_no_count_check fsolve_once sqrt_id log10_id
              main_PN main_world _ _ _ Hps Hns Hls Hvalid) as (_ & _ & H).
  apply (H (repeat (lit 10) 10 ++ [lit 77])). simpl. lia.
Defined.

(** ** The residual vector and the flows left in the pipes *)

Lemma comprehension_length f xs w r w' :
  comprehension f xs w = Ok (r, w') -> List.length r = List.length xs.
Proof.
  revert w r w'. induction xs as [|x xs IH]; intros w r w' H; simpl in H.
  - injection H as <- <-. reflexivity.
  - apply bind_Ok in H as (y & w1 & _ & H).
    apply bind_Ok in H as (ys & w2 & Hys & H).
    injection H as <- <-. simpl. f_equal. exact (IH _ _ _ Hys).
Qed.

Lemma set_Q_Ok self q w u w' :
  set_Q self q w = Ok (u, w') ->
  exists p, pipe_objs w !! self = Some p /\
            w' = set_pipe_objs (<[self := Pipe.with_Q q p]> (pipe_objs w)) w.
Proof.
  unfold set_Q. intros H. apply bind_Ok in H as (p & w1 & Hp & H).
  apply get_pipe_Ok in Hp as [Hp ->]. injection H as _ <-. eauto.
Qed.

Section Residual.

Variable fsolve : list Qc -> Solver.
Variable sqrt : Qc -> Qc.
Variable log10 : Qc -> Qc.

(** The residual vector is the net flow rate of every node, in the order
    of the nodes, followed by the head loss of every loop, in the order of
    the loops; all of them are evaluated once the flow rates have been
    written. *)
Lemma fn_residual_layout PN q w r w' :
  fn fsolve sqrt log10 PN q w = Ok (r, w') ->
  exists ps ns ls w1 w2 L L',
    list_objs w !! PipeNetwork.pipes PN = Some ps /\
    set_flows ps 0 q w = Ok (tt, w1) /\
    list_objs w1 !! PipeNetwork.nodes PN = Some ns /\
    comprehension getNetFlowRate ns w1 = Ok (L, w2) /\
    list_objs w2 !! PipeNetwork.loops PN = Some ls /\
    comprehension (getLoopHeadLoss fsolve sqrt log10) ls w2 = Ok (L', w') /\
    r = L ++ L' /\
    List.length L = List.length ns /\ List.length L' = List.length ls.
Proof.
  unfold fn, getNodeFlowRates, getLoopHeadLosses. intros H.
  apply bind_Ok in H as (ps & w0 & Hps & H). apply get_list_Ok in Hps as [Hps ->].
  apply bind_Ok in H as ([] & w1 & Hset & H).
  apply bind_Ok in H as (L & w2 & HL & H).
  apply bind_Ok in HL as (ns & w1' & Hns & HL). apply get_list_Ok in Hns as [Hns ->].
  apply bind_Ok in H as (L' & w3 & HL' & H).
  apply bind_Ok in HL' as (ls & w2' & Hls & HL'). apply get_list_Ok in Hls as [Hls ->].
  injection H as <- <-.
  exists ps, ns, ls, w1, w2, L, L'.
  repeat split; try assumption.
  - exact (comprehension_length _ _ _ _ _ HL).
  - exact (comprehension_length _ _ _ _ _ HL').
Qed.

Lemma set_flows_untouched ps k q w u w' a :
  a ∉ ps -> set_flows ps k q w = Ok (u, w') ->
  pipe_objs w' !! a = pipe_objs w !! a.
Proof.
  revert k w. induction ps as [|p ps IH]; intros k w Ha H; simpl in H.
  - injection H as _ <-. reflexivity.
  - apply not_elem_of_cons in Ha as [Hne Ha].
    destruct (q !! k) as [x|]; [|discriminate H].
    apply bind_Ok in H as ([] & w1 & Hset & H).
    apply set_Q_Ok in Hset as (P & HP & ->).
    rewrite (IH _ _ Ha H). simpl.
    apply list_lookup_insert_ne. congruence.
Qed.

(** After the flow rates have been written, pipe number [j] of a network
    without repeated pipes holds entry [j] of the trial vector. *)
Lemma set_flows_resident ps k q w u w' j p :
  NoDup ps -> set_flows ps k q w = Ok (u, w') -> ps !! j = Some p ->
  exists P x, q !! (k + j)%nat = Some x /\ pipe_objs w' !! p = Some P /\
              Pipe.Q P = x.
Proof.
  revert k w j. induction ps as [|p0 ps IH]; intros k w j Hnd H Hj; simpl in H.
  - discriminate Hj.
  - inversion_clear Hnd as [|? ? Hnotin Hnd'].
    destruct (q !! k) as [x|] eqn:Hq; [|discriminate H].
    apply bind_Ok in H as ([] & w1 & Hset & H).
    destruct j as [|j]; simpl in Hj.
    + injection Hj as <-.
      apply set_Q_Ok in Hset as (P & HP & ->).
      exists (Pipe.with_Q x P), x. rewrite Nat.add_0_r.
      split; [exact Hq|]. split; [|reflexivity].
      rewrite (set_flows_untouched _ _ _ _ _ _ _ Hnotin H). simpl.
      apply lookup_put_same with (p := P). exact HP.
    + destruct (IH _ _ _ Hnd' H Hj) as (P & y & Hy & HP & HQ).
      exists P, y. replace (k + S j)%nat with (S k + j)%nat by lia. auto.
Qed.

End Residual.

(** ** Evaluating the residuals again *)

#[global] Instance same_but_reynolds_equiv : Equivalence same_but_reynolds.
Proof.
  split.
  - intros [a b c d e f g h i j]. reflexivity.
  - intros [a b c d e f g h i j] [a' b' c' d' e' f' g' h' i' j'].
    unfold same_but_reynolds. simpl. intros [= -> -> -> -> -> -> -> -> ->].
    reflexivity.
  - intros [a b c d e f g h i j] [a' b' c' d' e' f' g' h' i' j']
           [a'' b'' c'' d'' e'' f'' g'' h'' i'' j''].
    unfold same_but_reynolds. simpl.
    intros [= -> -> -> -> -> -> -> -> ->] [= -> -> -> -> -> -> -> -> ->].
    reflexivity.
Qed.

Lemma same_but_reynolds_with p x : same_but_reynolds p (Pipe.with_reynolds x p).
Proof. destruct p. reflexivity. Qed.

#[global] Instance alike_equiv : Equivalence alike.
Proof.
  split.
  - intros w. repeat split; reflexivity.
  - intros w w' (Hp & Hn & Hl & Hls). repeat split; try congruence.
    symmetry. exact Hp.
  - intros w1 w2 w3 (Hp & Hn & Hl & Hls) (Hp' & Hn' & Hl' & Hls').
    repeat split; try congruence. etransitivity; eassumption.
Qed.

Lemma hydro_alike w w' : hydro same_but_reynolds w w' -> alike w w'.
Proof. intros (Hp & Hn & Hl & Hls & _). repeat split; assumption. Qed.

Lemma alike_lookup w w' a p :
  alike w w' -> pipe_objs w !! a = Some p ->
  exists x, pipe_objs w' !! a = Some (Pipe.with_reynolds x p).
Proof.
  intros (Hp & _) Ha.
  destruct (Forall2_lookup_l _ _ _ _ _ Hp Ha) as (p' & Hp' & HR).
  exists (Pipe.reynolds p'). rewrite Hp'. f_equal. exact HR.
Qed.

Lemma alike_lookup_None w w' a :
  alike w w' -> pipe_objs w !! a = None -> pipe_objs w' !! a = None.
Proof.
  intros (Hp & _) Ha. apply lookup_ge_None. apply lookup_ge_None in Ha.
  apply Forall2_length in Hp. lia.
Qed.

Lemma calm_alike w w' : alike w w' -> calm w -> calm w'.
Proof.
  intros Hal Hc a p' Hp'. symmetry in Hal.
  destruct (alike_lookup _ _ _ _ Hal Hp') as (x & Hp).
  exact (Hc _ _ Hp).
Qed.

Lemma alike_evaluated w w' self p x Re Re' used used' :
  alike w w' -> pipe_objs w !! self = Some p ->
  alike (evaluated self p Re used w)
        (evaluated self (Pipe.with_reynolds x p) Re' used' w').
Proof.
  intros (Hp & Hn & Hl & Hls) Hself. unfold evaluated, alike. simpl.
  repeat split; try assumption.
  apply Forall2_insert; [exact Hp|]. destruct p. reflexivity.
Qed.

Lemma returns_in_eq_getNetFlowRate n : returns_in eq (getNetFlowRate n).
Proof.
  unfold getNetFlowRate. frame.
  match goal with |- returns_in _ (add_flows ?a ?b ?c) => generalize c end.
  induction x0 as [|p ps IH]; intros Qtot; simpl; unfold getFlowIntoNode; frame.
Qed.

Lemma getFlowIntoNode_alike self n wa wb x wa' :
  alike wa wb -> getFlowIntoNode self n wa = Ok (x, wa') ->
  getFlowIntoNode self n wb = Ok (x, wb).
Proof.
  intros Hal H. unfold getFlowIntoNode in *.
  apply bind_Ok in H as (p & w1 & Hp & H). apply get_pipe_Ok in Hp as [Hp ->].
  destruct (alike_lookup _ _ _ _ Hal Hp) as (y & Hp').
  rewrite (bind_Ok_intro _ _ wb _ wb) by (apply get_pipe_Ok; eauto).
  destruct p; simpl in *.
  destruct (String.eqb n startNode); injection H as <- _; reflexivity.
Qed.

Lemma add_flows_alike name ps Qtot wa wb x wa' :
  alike wa wb -> add_flows name ps Qtot wa = Ok (x, wa') ->
  add_flows name ps Qtot wb = Ok (x, wb).
Proof.
  intros Hal. revert Qtot. induction ps as [|p ps IH]; intros Qtot H; simpl in *.
  - injection H as <- _. reflexivity.
  - apply bind_Ok in H as (f & w1 & Hf & H).
    assert (w1 = wa) as ->.
    { symmetry. unfold getFlowIntoNode in Hf.
      apply bind_Ok in Hf as (P & w2 & HP & Hf). apply get_pipe_Ok in HP as [_ ->].
      destruct (String.eqb name (Pipe.startNode P)); injection Hf as _ <-;
        reflexivity. }
    rewrite (bind_Ok_intro _ _ wb f wb)
      by (eapply getFlowIntoNode_alike; eassumption).
    apply IH. exact H.
Qed.

Lemma getNetFlowRate_alike n wa wb x wa' :
  alike wa wb -> getNetFlowRate n wa = Ok (x, wa') ->
  getNetFlowRate n wb = Ok (x, wb).
Proof.
  intros Hal H. unfold getNetFlowRate in *.
  apply bind_Ok in H as (N & w1 & HN & H). apply get_node_Ok in HN as [HN ->].
  apply bind_Ok in H as (ps & w1 & Hps & H). apply get_list_Ok in Hps as [Hps ->].
  destruct Hal as (Hp & Hn & Hl & Hls).
  rewrite (bind_Ok_intro _ _ wb N wb) by (apply get_node_Ok; split; congruence).
  rewrite (bind_Ok_intro _ _ wb ps wb) by (apply get_list_Ok; split; congruence).
  eapply add_flows_alike; [|exact H]. repeat split; assumption.
Qed.

Lemma comprehension_lookup (F : relation World) `{!PreOrder F} f xs w r w' :
  (forall x, returns_in F (f x)) ->
  comprehension f xs w = Ok (r, w') ->
  forall j x, xs !! j = Some x ->
  exists y wj wj', F w wj /\ f x wj = Ok (y, wj') /\ F wj' w' /\ r !! j = Some y.
Proof.
  intros Hf. revert w r. induction xs as [|x0 xs IH]; intros w r H j x Hj.
  - discriminate Hj.
  - simpl in H. apply bind_Ok in H as (y0 & w1 & Hy0 & H).
    apply bind_Ok in H as (ys & w2 & Hys & H). injection H as <- <-.
    destruct j as [|j]; simpl in Hj.
    + injection Hj as <-. exists y0, w, w1. repeat split; try assumption.
      * reflexivity.
      * eapply comprehension_hydro_any; eassumption.
    + destruct (IH _ _ Hys _ _ Hj) as (y & wj & wj' & H1 & H2 & H3 & H4).
      exists y, wj, wj'. repeat split; try assumption.
      transitivity w1; [exact (Hf _ _ _ _ Hy0)|exact H1].
Qed.

Section Reevaluation.

Variable fsolve : list Qc -> Solver.
Variable sqrt : Qc -> Qc.
Variable log10 : Qc -> Qc.

(** Outside the transition regime the deviate is not used. *)
Lemma head_loss_of_calm p z z' :
  calm_pipe p ->
  head_loss_of fsolve sqrt log10 p z = head_loss_of fsolve sqrt log10 p z'.
Proof.
  intros Hc. unfold head_loss_of, friction_of.
  destruct (reynolds_of p) as [Re0|e] eqn:HRe; [|reflexivity]. simpl Res_bind.
  destruct (pydiv (Pipe.r p) (Pipe.diameter p)) as [rr|e]; [|reflexivity].
  simpl Res_bind.
  destruct (Hc Re0 HRe) as [H|H].
  - rewrite !regime_laminar by exact H. reflexivity.
  - rewrite !regime_turbulent by exact H. reflexivity.
Qed.

Lemma getFlowHeadLoss_alike self s wa wb x wa' :
  alike wa wb -> calm wa ->
  getFlowHeadLoss fsolve sqrt log10 self s wa = Ok (x, wa') ->
  exists wb', getFlowHeadLoss fsolve sqrt log10 self s wb = Ok (x, wb') /\
              alike wa' wb'.
Proof.
  intros Hal Hc H. rewrite getFlowHeadLoss_head_loss_of in H.
  destruct (pipe_objs wa !! self) as [p|] eqn:Hp; [|discriminate H].
  destruct (alike_lookup _ _ _ _ Hal Hp) as (y & Hp').
  assert (E : getFlowHeadLoss fsolve sqrt log10 self s wb =
              match head_loss_of fsolve sqrt log10 p (gauss wa (drawn wa)) with
              | Raise e => Raise e
              | Ok (Re0, hl, used) =>
                  Ok ((if String.eqb s (Pipe.startNode p) then 1 else - (1))
                      * (if Qc_leb 0 (Pipe.Q p) then 1 else - (1)) * hl,
                      evaluated self (Pipe.with_reynolds y p) Re0 used wb)
              end).
  { rewrite getFlowHeadLoss_head_loss_of, Hp'.
    change (head_loss_of fsolve sqrt log10 (Pipe.with_reynolds y p))
      with (head_loss_of fsolve sqrt log10 p).
    rewrite (head_loss_of_calm p (gauss wb (drawn wb)) (gauss wa (drawn wa)))
      by exact (Hc _ _ Hp).
    reflexivity. }
  rewrite E. clear E.
  destruct (head_loss_of fsolve sqrt log10 p (gauss wa (drawn wa)))
    as [[[Re0 hl] used]|e]; [|discriminate H].
  injection H as <- <-. eexists. split; [reflexivity|].
  apply alike_evaluated; assumption.
Qed.

Lemma returns_alike {T} (m : Py T) w x w' :
  returns_in (hydro same_but_reynolds) m -> m w = Ok (x, w') -> alike w w'.
Proof. intros Hm H. apply hydro_alike. exact (Hm _ _ _ H). Qed.

Lemma getFlowHeadLoss_keeps self s :
  returns_in (hydro same_but_reynolds) (getFlowHeadLoss fsolve sqrt log10 self s).
Proof.
  apply getFlowHeadLoss_hydro; [typeclasses eauto|].
  apply same_but_reynolds_with.
Qed.

Lemma add_head_losses_alike ps current total wa wb x wa' :
  alike wa wb -> calm wa ->
  add_head_losses fsolve sqrt log10 ps current total wa = Ok (x, wa') ->
  exists wb', add_head_losses fsolve sqrt log10 ps current total wb = Ok (x, wb') /\
              alike wa' wb'.
Proof.
  revert current total wa wb.
  induction ps as [|a ps IH]; intros current total wa wb Hal Hc H; simpl in *.
  - injection H as <- <-. eauto.
  - apply bind_Ok in H as (phl & wa1 & Hphl & H).
    apply bind_Ok in H as (P & wa2 & HP & H). apply get_pipe_Ok in HP as [HP ->].
    destruct (getFlowHeadLoss_alike _ _ _ _ _ _ Hal Hc Hphl) as (wb1 & Hphl' & Hal1).
    destruct (alike_lookup _ _ _ _ Hal1 HP) as (y & HP').
    assert (Hc1 : calm wa1).
    { eapply calm_alike; [|exact Hc].
      eapply returns_alike; [apply getFlowHeadLoss_keeps|exact Hphl]. }
    destruct (IH _ _ _ _ Hal1 Hc1 H) as (wb' & H' & Hal').
    exists wb'. split; [|exact Hal'].
    rewrite (bind_Ok_intro _ _ wb phl wb1 Hphl').
    rewrite (bind_Ok_intro _ _ wb1 _ wb1) by (apply get_pipe_Ok; eauto).
    exact H'.
Qed.

Lemma getLoopHeadLoss_alike self wa wb x wa' :
  alike wa wb -> calm wa ->
  getLoopHeadLoss fsolve sqrt log10 self wa = Ok (x, wa') ->
  exists wb', getLoopHeadLoss fsolve sqrt log10 self wb = Ok (x, wb').
Proof.
  intros Hal Hc H. unfold getLoopHeadLoss in *.
  apply bind_Ok in H as (l & w1 & Hl & H). apply get_loop_Ok in Hl as [Hl ->].
  apply bind_Ok in H as (ps & w1 & Hps & H). apply get_list_Ok in Hps as [Hps ->].
  destruct ps as [|p0 ps]; [discriminate H|].
  apply bind_Ok in H as (P0 & w1 & HP0 & H). apply get_pipe_Ok in HP0 as [HP0 ->].
  destruct (alike_lookup _ _ _ _ Hal HP0) as (y & HP0').
  destruct (add_head_losses_alike _ _ _ _ _ _ _ Hal Hc H) as (wb' & H' & _).
  exists wb'. destruct Hal as (_ & _ & Hls & Hlists).
  rewrite (bind_Ok_intro _ _ wb l wb) by (apply get_loop_Ok; split; congruence).
  rewrite (bind_Ok_intro _ _ wb (p0 :: ps) wb)
    by (apply get_list_Ok; split; congruence).
  rewrite (bind_Ok_intro _ _ wb _ wb) by (apply get_pipe_Ok; eauto).
  exact H'.
Qed.

End Reevaluation.

(** ** Evaluating the residuals at the same trial vector *)

Lemma reynolds_of_same p p' :
  same_but_Q_reynolds p p' -> reynolds_of p' = reynolds_of p.
Proof.
  intros (_ & _ & _ & Hd & _ & Hf & _ & Hv). unfold reynolds_of.
  rewrite Hd, Hf, Hv. reflexivity.
Qed.

Lemma calm_written w w' : hydro same_but_Q_reynolds w w' -> calm w <-> calm w'.
Proof.
  intros (HF & _). split; intros Hc a p Hp.
  - destruct (Forall2_lookup_r _ _ _ _ _ HF Hp) as (p0 & Hp0 & HR).
    unfold calm_pipe. rewrite (reynolds_of_same _ _ HR). exact (Hc _ _ Hp0).
  - destruct (Forall2_lookup_l _ _ _ _ _ HF Hp) as (p1 & Hp1 & HR).
    unfold calm_pipe. rewrite <- (reynolds_of_same _ _ HR). exact (Hc _ _ Hp1).
Qed.

#[global] Instance apart_preorder PN : PreOrder (apart PN).
Proof.
  split.
  - intros w. split; [reflexivity|].
    intros ps a P P' _ _ HP HP'. congruence.
  - intros w1 w2 w3 [H12 Q12] [H23 Q23]. split; [etransitivity; eassumption|].
    intros ps a P1 P3 Hps Ha HP1 HP3.
    destruct H12 as (HF & _ & _ & Hl & _).
    destruct (Forall2_lookup_l _ _ _ _ _ HF HP1) as (P2 & HP2 & _).
    rewrite (Q23 ps a P2 P3), (Q12 ps a P1 P2); congruence.
Qed.

Section Determinism.

Variable fsolve : list Qc -> Solver.
Variable sqrt : Qc -> Qc.
Variable log10 : Qc -> Qc.

(** A residual evaluation writes flow rates in the pipes of the network
    only. *)
Lemma fn_apart PN q : returns_in (apart PN) (fn fsolve sqrt log10 PN q).
Proof.
  intros w r w' Hfn. split.
  { exact (fn_hydro same_but_Q_reynolds same_but_Q_reynolds_Q
             same_but_Q_reynolds_reynolds fsolve sqrt log10 PN q w r w' Hfn). }
  intros ps0 a P P' Hps0 Ha HP HP'.
  destruct (fn_residual_layout _ _ _ _ _ _ _ _ Hfn)
    as (ps & ns & ls & w1 & w2 & L & L' & Hps & Hset & Hns & HL & Hls & HL' & _).
  rewrite Hps0 in Hps. injection Hps as <-.
  assert (H12 : w1 = w2).
  { eapply (comprehension_hydro_any eq); [|exact HL].
    apply returns_in_eq_getNetFlowRate. }
  subst w2.
  assert (H1' : alike w1 w').
  { apply hydro_alike.
    eapply (comprehension_hydro same_but_reynolds); [|exact HL'].
    intros l. apply getLoopHeadLoss_hydro; [typeclasses eauto|].
    apply same_but_reynolds_with. }
  rewrite <- (set_flows_untouched _ _ _ _ _ _ _ Ha Hset) in HP.
  destruct (alike_lookup _ _ _ _ H1' HP) as (y & HP1).
  rewrite HP' in HP1. injection HP1 as ->. reflexivity.
Qed.

Lemma set_Q_written self x w P :
  pipe_objs w !! self = Some P ->
  set_Q self x w
  = Ok (tt, set_pipe_objs (<[self := Pipe.with_Q x P]> (pipe_objs w)) w).
Proof.
  intros HP. unfold set_Q.
  rewrite (bind_Ok_intro _ _ w P w) by (apply get_pipe_Ok; auto). reflexivity.
Qed.

(** Written in two stores that differ in the flow rates of the pipes
    [ps] only, the same trial vector leaves the same flow rates. *)
Lemma set_flows_level ps k q wa wb u wa1 :
  Forall2 same_but_Q_reynolds (pipe_objs wa) (pipe_objs wb) ->
  (forall a P P', a ∉ ps -> pipe_objs wa !! a = Some P ->
                  pipe_objs wb !! a = Some P' -> Pipe.Q P' = Pipe.Q P) ->
  set_flows ps k q wa = Ok (u, wa1) ->
  exists wb1, set_flows ps k q wb = Ok (tt, wb1) /\
              Forall2 same_but_reynolds (pipe_objs wa1) (pipe_objs wb1).
Proof.
  revert k wa wb. induction ps as [|p ps IH]; intros k wa wb HF HQ H; simpl in H |- *.
  - injection H as _ <-. exists wb. split; [reflexivity|].
    apply Forall2_same_length_lookup. split; [eapply Forall2_length; exact HF|].
    intros a P P' HP HP'.
    pose proof (Forall2_lookup_lr _ _ _ _ _ _ HF HP HP')
      as (Hs & He & Hl & Hd & Hr & Hf & HA & Hv).
    pose proof (HQ a P P' ltac:(apply not_elem_of_nil) HP HP') as HQ'.
    destruct P, P'. unfold same_but_reynolds, Pipe.with_reynolds. cbn in *.
    subst. reflexivity.
  - destruct (q !! k) as [x|]; [|discriminate H].
    apply bind_Ok in H as ([] & wa2 & Hset & H).
    apply set_Q_Ok in Hset as (P & HP & ->).
    destruct (Forall2_lookup_l _ _ _ _ _ HF HP) as (P' & HP' & HR).
    rewrite (bind_Ok_intro _ _ _ _ _ (set_Q_written p x wb P' HP')).
    eapply IH; [| |exact H]; simpl.
    + apply Forall2_insert; [exact HF|].
      destruct HR as (Hs & He & Hl & Hd & Hr & Hf & HA & Hv).
      repeat split; assumption.
    + intros a Pa Pb Ha HPa HPb.
      destruct (decide (a = p)) as [->|Hne].
      * rewrite (lookup_put_same _ _ _ _ HP) in HPa.
        rewrite (lookup_put_same _ _ _ _ HP') in HPb.
        injection HPa as <-. injection HPb as <-. reflexivity.
      * rewrite list_lookup_insert_ne in HPa, HPb by congruence.
        apply (HQ a); try assumption.
        apply not_elem_of_cons. auto.
Qed.

Lemma nodes_alike ns wa wb L wa' :
  alike wa wb ->
  comprehension getNetFlowRate ns wa = Ok (L, wa') ->
  comprehension getNetFlowRate ns wb = Ok (L, wb).
Proof.
  intros Hal. revert L wa'. induction ns as [|n ns IH]; intros L wa' H; simpl in *.
  - injection H as <- _. reflexivity.
  - apply bind_Ok in H as (y & w1 & Hy & H).
    assert (w1 = wa) as -> by (symmetry; exact (returns_in_eq_getNetFlowRate _ _ _ _ Hy)).
    apply bind_Ok in H as (ys & w2 & Hys & H). injection H as <- _.
    rewrite (bind_Ok_intro _ _ wb y wb)
      by (eapply getNetFlowRate_alike; eassumption).
    rewrite (bind_Ok_intro _ _ wb ys wb) by (eapply IH; exact Hys).
    reflexivity.
Qed.

Lemma getLoopHeadLoss_alike_stores self wa wb x wa' :
  alike wa wb -> calm wa ->
  getLoopHeadLoss fsolve sqrt log10 self wa = Ok (x, wa') ->
  exists wb', getLoopHeadLoss fsolve sqrt log10 self wb = Ok (x, wb') /\
              alike wa' wb'.
Proof.
  intros Hal Hc H. unfold getLoopHeadLoss in *.
  apply bind_Ok in H as (l & w1 & Hl & H). apply get_loop_Ok in Hl as [Hl ->].
  apply bind_Ok in H as (ps & w1 & Hps & H). apply get_list_Ok in Hps as [Hps ->].
  destruct ps as [|p0 ps]; [discriminate H|].
  apply bind_Ok in H as (P0 & w1 & HP0 & H). apply get_pipe_Ok in HP0 as [HP0 ->].
  destruct (alike_lookup _ _ _ _ Hal HP0) as (y & HP0').
  destruct (add_head_losses_alike _ _ _ _ _ _ _ _ _ _ Hal Hc H)
    as (wb' & H' & Hal').
  exists wb'. split; [|exact Hal'].
  destruct Hal as (_ & _ & Hls & Hlists).
  rewrite (bind_Ok_intro _ _ wb l wb) by (apply get_loop_Ok; split; congruence).
  rewrite (bind_Ok_intro _ _ wb (p0 :: ps) wb)
    by (apply get_list_Ok; split; congruence).
  rewrite (bind_Ok_intro _ _ wb _ wb) by (apply get_pipe_Ok; eauto).
  exact H'.
Qed.

Lemma loops_alike ls wa wb L wa' :
  alike wa wb -> calm wa ->
  comprehension (getLoopHeadLoss fsolve sqrt log10) ls wa = Ok (L, wa') ->
  exists wb', comprehension (getLoopHeadLoss fsolve sqrt log10) ls wb
              = Ok (L, wb').
Proof.
  revert wa wb L wa'.
  induction ls as [|l ls IH]; intros wa wb L wa' Hal Hc H; simpl in *.
  - injection H as <- _. eauto.
  - apply bind_Ok in H as (y & wa1 & Hy & H).
    apply bind_Ok in H as (ys & wa2 & Hys & H). injection H as <- _.
    destruct (getLoopHeadLoss_alike_stores _ _ _ _ _ Hal Hc Hy)
      as (wb1 & Hy' & Hal1).
    assert (Hc1 : calm wa1).
    { eapply calm_alike; [|exact Hc].
      eapply returns_alike; [|exact Hy].
      apply getLoopHeadLoss_hydro; [typeclasses eauto|].
      apply same_but_reynolds_with. }
    destruct (IH _ _ _ _ Hal1 Hc1 Hys) as (wb2 & Hys').
    exists wb2.
    rewrite (bind_Ok_intro _ _ wb y wb1 Hy').
    rewrite (bind_Ok_intro _ _ wb1 ys wb2 Hys'). reflexivity.
Qed.

(** The residual vector is a function of the trial vector: evaluated in
    two stores of the same solve, the residuals of the nodes are the
    same, and, when no pipe has a Reynolds number strictly between 2000
    and 4000, so are those of the loops. *)
Lemma fn_again PN q wa wb ra wa' rb wb' ns :
  apart PN wa wb ->
  list_objs wa !! PipeNetwork.nodes PN = Some ns ->
  fn fsolve sqrt log10 PN q wa = Ok (ra, wa') ->
  fn fsolve sqrt log10 PN q wb = Ok (rb, wb') ->
  take (List.length ns) rb = take (List.length ns) ra /\
  (calm wa -> rb = ra).
Proof.
  intros [Hh HQ] Hns0 Ha Hb.
  destruct (fn_residual_layout _ _ _ _ _ _ _ _ Ha)
    as (ps & ns1 & ls & wa1 & wa2 & L & L' & Hps & Hset & Hns & HL & Hls & HL'
        & -> & HlenL & _).
  assert (H12 : wa1 = wa2).
  { eapply (comprehension_hydro_any eq); [|exact HL].
    apply returns_in_eq_getNetFlowRate. }
  subst wa2.
  pose proof (set_flows_hydro same_but_Q_reynolds same_but_Q_reynolds_Q
                _ _ _ _ _ _ Hset) as Ha1.
  assert (ns1 = ns) as ->.
  { destruct Ha1 as (_ & _ & _ & E & _). congruence. }
  pose proof Hh as (HF & Hn & Hl & Hlists & _).
  destruct (set_flows_level ps 0 q wa wb _ wa1 HF
              (fun a P P' => HQ ps a P P' Hps) Hset) as (wb1 & Hsetb & HF1).
  pose proof (set_flows_hydro same_but_Q_reynolds same_but_Q_reynolds_Q
                _ _ _ _ _ _ Hsetb) as Hb1.
  assert (Hal : alike wa1 wb1).
  { destruct Ha1 as (_ & En & El & Els & _).
    destruct Hb1 as (_ & En' & El' & Els' & _).
    repeat split; [exact HF1|congruence..]. }
  pose proof (nodes_alike _ _ _ _ _ Hal HL) as HLb.
  unfold fn in Hb.
  rewrite (bind_Ok_intro _ _ wb ps wb) in Hb
    by (apply get_list_Ok; split; congruence).
  rewrite (bind_Ok_intro _ _ wb tt wb1 Hsetb) in Hb.
  assert (HNb : getNodeFlowRates PN wb1 = Ok (L, wb1)).
  { unfold getNodeFlowRates.
    rewrite (bind_Ok_intro _ _ wb1 ns wb1); [exact HLb|].
    apply get_list_Ok. split; [|reflexivity].
    destruct Hal as (_ & _ & _ & E). congruence. }
  rewrite (bind_Ok_intro _ _ wb1 L wb1 HNb) in Hb.
  apply bind_Ok in Hb as (Lb & wb2 & HLb' & Hb). injection Hb as <- <-.
  split.
  - rewrite <- HlenL, !take_app_length. reflexivity.
  - intros Hc. f_equal.
    assert (Hc1 : calm wa1) by (apply (calm_written _ _ Ha1); exact Hc).
    destruct (loops_alike _ _ _ _ _ Hal Hc1 HL') as (wb3 & HL3).
    unfold getLoopHeadLosses in HLb'.
    rewrite (bind_Ok_intro _ _ wb1 ls wb1) in HLb'.
    + rewrite HL3 in HLb'. injection HLb' as <- _. reflexivity.
    + apply get_list_Ok. split; [|reflexivity].
      destruct Hal as (_ & _ & _ & E). congruence.
Qed.

End Determinism.

(** ** The runs of the solver *)

Lemma probed_run f s w q r x w' :
  probed f s w q r x w' -> solveM s f w = Ok (x, w').
Proof.
  induction 1 as [q next w r w1 x w' Hf Hrun
                 |q0 next w r0 w0 q r x w' Hf _ IH]; simpl.
  - rewrite (bind_Ok_intro _ _ w r w1 Hf). exact Hrun.
  - rewrite (bind_Ok_intro _ _ w r0 w0 Hf). exact IH.
Qed.

Lemma last_probe_store (F : relation World) `{!PreOrder F} f s w q r x w' :
  (forall q, returns_in F (f q)) ->
  last_probe f s w q r x w' ->
  exists wq, F w wq /\ f q wq = Ok (r, w').
Proof.
  intros HF.
  induction 1 as [q next w r w' x Hf Hnext
                 |q0 next w r0 w0 q r x w' Hf _ (wq & Hwq & IH)].
  - exists w. split; [reflexivity|exact Hf].
  - exists wq. split; [|exact IH].
    transitivity w0; [exact (HF _ _ _ _ Hf)|exact Hwq].
Qed.

(** The store of an evaluation of the run and the store of its last
    evaluation. *)
Lemma probed_before_last (F : relation World) `{!PreOrder F} f s w q r x w'
    ql rl :
  (forall q, returns_in F (f q)) ->
  probed f s w q r x w' ->
  last_probe f s w ql rl x w' ->
  exists wq wq' wl,
    f q wq = Ok (r, wq') /\ f ql wl = Ok (rl, w') /\ F w wq /\ F wq wl.
Proof.
  intros HF Hp. revert ql rl.
  induction Hp as [q next w r w1 x w' Hf Hrun
                  |q0 next w r0 w0 q r x w' Hf Hp IH]; intros ql rl Hl.
  - inversion Hl as [? ? ? ? ? ? Hf' Hnext|? ? ? ? ? ? ? ? ? Hf' Hl']; subst.
    + exists w, w1, w. rewrite Hf in Hf'. injection Hf' as <- <-.
      repeat split; try assumption; reflexivity.
    + rewrite Hf in Hf'. injection Hf' as <- <-.
      destruct (last_probe_store F _ _ _ _ _ _ _ HF Hl') as (wl & Hwl & Hfl).
      exists w, w1, wl. repeat split; try assumption; [reflexivity|].
      transitivity w1; [exact (HF _ _ _ _ Hf)|exact Hwl].
  - inversion Hl as [? ? ? ? ? ? Hf' Hnext|? ? ? ? ? ? ? ? ? Hf' Hl']; subst.
    + rewrite Hf in Hf'. injection Hf' as <- <-.
      rewrite Hnext in Hp. inversion Hp.
    + rewrite Hf in Hf'. injection Hf' as <- <-.
      destruct (IH _ _ Hl') as (wq & wq' & wl & H1 & H2 & H3 & H4).
      exists wq, wq', wl. repeat split; try assumption.
      transitivity w0; [exact (HF _ _ _ _ Hf)|exact H3].
Qed.

Section ResidentFlows.

Variable fsolve : list Qc -> Solver.
Variable sqrt : Qc -> Qc.
Variable log10 : Qc -> Qc.

Lemma getLoopHeadLoss_keeps l :
  returns_in (hydro same_but_reynolds) (getLoopHeadLoss fsolve sqrt log10 l).
Proof.
  apply getLoopHeadLoss_hydro; [typeclasses eauto|].
  apply same_but_reynolds_with.
Qed.

Lemma within_lookup tol r i x : within tol r -> r !! i = Some x -> Qcabs.Qcabs x < tol.
Proof. intros H Hi. exact (proj1 (Forall_lookup _ r) H i x Hi). Qed.

(** A residual evaluation returns one entry per node followed by one
    entry per loop and leaves the trial flow rates in the pipes; in the
    store it leaves, [getNetFlowRate()] of node number [i] returns entry
    [i], and, when no pipe has a Reynolds number strictly between 2000 and
    4000, [getLoopHeadLoss()] of loop number [j] returns the entry that
    follows those of the nodes by [j]. *)
Lemma residual_evaluated_again
    (PN : PipeNetwork.t) (q : list Qc) (w : World) (r : list Qc) (w' : World) :
  fn fsolve sqrt log10 PN q w = Ok (r, w') ->
  exists ps ns ls,
    list_objs w' !! PipeNetwork.pipes PN = Some ps /\
    list_objs w' !! PipeNetwork.nodes PN = Some ns /\
    list_objs w' !! PipeNetwork.loops PN = Some ls /\
    List.length r = (List.length ns + List.length ls)%nat /\
    (NoDup ps -> forall j p, ps !! j = Some p ->
       exists P x, q !! j = Some x /\ pipe_objs w' !! p = Some P /\ Pipe.Q P = x) /\
    (forall i n, ns !! i = Some n ->
       exists x, getNetFlowRate n w' = Ok (x, w') /\ r !! i = Some x) /\
    (calm w' -> forall j l, ls !! j = Some l ->
       exists x w'', getLoopHeadLoss fsolve sqrt log10 l w' = Ok (x, w'') /\
                     r !! (List.length ns + j)%nat = Some x).
Proof.
  intros Hfn.
  destruct (fn_residual_layout _ _ _ _ _ _ _ _ Hfn)
    as (ps & ns & ls & w1 & w2 & L & L' & Hps & Hset & Hns & HL & Hls & HL'
        & -> & HlenL & HlenL').
  assert (H01 : hydro same_endpoints w w1).
  { eapply (set_flows_hydro same_endpoints); [apply same_endpoints_Q|exact Hset]. }
  assert (H12 : w1 = w2).
  { eapply (comprehension_hydro_any eq); [|exact HL].
    apply returns_in_eq_getNetFlowRate. }
  subst w2.
  assert (H1' : alike w1 w').
  { apply hydro_alike.
    eapply (comprehension_hydro same_but_reynolds); [|exact HL'].
    apply getLoopHeadLoss_keeps. }
  assert (Hlists : list_objs w' = list_objs w).
  { destruct H1' as (_ & _ & _ & E1). destruct H01 as (_ & _ & _ & E0 & _).
    congruence. }
  assert (Hlists1 : list_objs w' = list_objs w1) by apply H1'.
  exists ps, ns, ls.
  split; [congruence|]. split; [congruence|]. split; [congruence|].
  split; [rewrite length_app; congruence|].
  split; [|split].
  - intros Hnd j p Hj.
    destruct (set_flows_resident _ _ _ _ _ _ _ _ Hnd Hset Hj)
      as (P & x & Hx & HP & HQ).
    destruct (alike_lookup _ _ _ _ H1' HP) as (y & HP').
    exists (Pipe.with_reynolds y P), x. repeat split; assumption.
  - intros i n Hi.
    destruct (comprehension_lookup eq _ _ _ _ _ returns_in_eq_getNetFlowRate
                HL _ _ Hi) as (x & wj & wj' & <- & Hx & <- & HLi).
    exists x.
    split; [eapply getNetFlowRate_alike; eassumption|].
    apply lookup_app_l_Some. exact HLi.
  - intros Hcalm j l Hj.
    destruct (comprehension_lookup (hydro same_but_reynolds) _ _ _ _ _
                getLoopHeadLoss_keeps HL' _ _ Hj)
      as (x & wj & wj' & H1j & Hx & _ & HLj).
    assert (Hal : alike wj w').
    { transitivity w1; [symmetry; apply hydro_alike; exact H1j|exact H1']. }
    assert (Hcj : calm wj) by (eapply calm_alike; [symmetry; exact Hal|exact Hcalm]).
    destruct (getLoopHeadLoss_alike fsolve sqrt log10 _ _ _ _ _ Hal Hcj Hx)
      as (w'' & Hx').
    exists x, w''. split; [exact Hx'|].
    rewrite <- HlenL. rewrite lookup_app_r by lia.
    replace (List.length L + j - List.length L)%nat with j by lia. exact HLj.
Qed.

(** C1, as the code has it.  Let [findFlowRates] return a converged
    solution [FR]: the solver evaluated the residuals at [FR], and the
    vector [r] it saw has all its entries below the tolerance in absolute
    value.  Let the last evaluation of the solve be at [FR] too.  Then
    [r] has one entry per node followed by one entry per loop; the flow
    rates [FR] are the ones left in the pipes; on them
    [getNetFlowRate()] of node number [i] returns entry [i] of [r], and,
    when no pipe has a Reynolds number strictly between 2000 and 4000,
    [getLoopHeadLoss()] of loop number [j] returns the entry that follows
    those of the nodes by [j]: all are below the tolerance in absolute
    value. *)
Theorem resident_flows_within_tolerance
    (PN : PipeNetwork.t) (w : World) (ns0 ls0 : list addr)
    (FR r r' : list Qc) (w' : World) (tol : Qc) :
  list_objs w !! PipeNetwork.nodes PN = Some ns0 ->
  list_objs w !! PipeNetwork.loops PN = Some ls0 ->
  probed (fn fsolve sqrt log10 PN)
         (fsolve (repeat (lit 10) (List.length ns0 + List.length ls0)))
         w FR r FR w' ->
  within tol r ->
  last_probe (fn fsolve sqrt log10 PN)
             (fsolve (repeat (lit 10) (List.length ns0 + List.length ls0)))
             w FR r' FR w' ->
  findFlowRates fsolve sqrt log10 PN w = Ok (FR, w') /\
  exists ps ns ls,
    list_objs w' !! PipeNetwork.pipes PN = Some ps /\
    list_objs w' !! PipeNetwork.nodes PN = Some ns /\
    list_objs w' !! PipeNetwork.loops PN = Some ls /\
    List.length r = (List.length ns + List.length ls)%nat /\
    (NoDup ps -> forall j p, ps !! j = Some p ->
       exists P x, FR !! j = Some x /\ pipe_objs w' !! p = Some P /\ Pipe.Q P = x) /\
    (forall i n, ns !! i = Some n ->
       exists x, getNetFlowRate n w' = Ok (x, w') /\ r !! i = Some x /\
                 Qcabs.Qcabs x < tol) /\
    (calm w' -> forall j l, ls !! j = Some l ->
       exists x w'', getLoopHeadLoss fsolve sqrt log10 l w' = Ok (x, w'') /\
                     r !! (List.length ns + j)%nat = Some x /\
                     Qcabs.Qcabs x < tol).
Proof.
  intros Hns0 Hls0 Hprobed Htol Hlast.
  split.
  { unfold findFlowRates.
    rewrite (bind_Ok_intro _ _ w ns0 w) by (apply get_list_Ok; auto).
    rewrite (bind_Ok_intro _ _ w ls0 w) by (apply get_list_Ok; auto).
    exact (probed_run _ _ _ _ _ _ _ Hprobed). }
  destruct (probed_before_last (apart PN) _ _ _ _ _ _ _ _ _
              (fn_apart fsolve sqrt log10 PN) Hprobed Hlast)
    as (wq & wq' & wl & Hq & Hl & _ & Hql).
  destruct (residual_evaluated_again PN FR wl r' w' Hl)
    as (ps & ns & ls & Hps & Hns & Hls & Hlen' & Hres & Hnodes & Hloops).
  pose proof (fn_hydro same_but_Q_reynolds same_but_Q_reynolds_Q
                same_but_Q_reynolds_reynolds fsolve sqrt log10 PN FR wl r' w' Hl)
    as Hl'.
  pose proof (fn_hydro same_but_Q_reynolds same_but_Q_reynolds_Q
                same_but_Q_reynolds_reynolds fsolve sqrt log10 PN FR wq r wq' Hq)
    as Hq'.
  assert (Hlists : list_objs wq = list_objs w').
  { destruct Hql as [(_ & _ & _ & E1 & _) _]. destruct Hl' as (_ & _ & _ & E2 & _).
    congruence. }
  assert (Hnsq : list_objs wq !! PipeNetwork.nodes PN = Some ns) by congruence.
  destruct (fn_again fsolve sqrt log10 PN FR wq wl r wq' r' w' ns Hql Hnsq Hq Hl)
    as [Htake Hsame].
  assert (Hlen : List.length r = (List.length ns + List.length ls)%nat).
  { destruct (residual_evaluated_again PN FR wq r wq' Hq)
      as (ps1 & ns1 & ls1 & _ & Hns1 & Hls1 & Hlen1 & _).
    destruct Hq' as (_ & _ & _ & E & _).
    rewrite E, Hlists in Hns1, Hls1. congruence. }
  exists ps, ns, ls.
  split; [exact Hps|]. split; [exact Hns|]. split; [exact Hls|].
  split; [exact Hlen|]. split; [exact Hres|]. split.
  - intros i n Hi. destruct (Hnodes i n Hi) as (x & Hx & Hri).
    assert (Hr : r !! i = Some x).
    { apply lookup_lt_Some in Hi.
      rewrite <- (lookup_take_lt r (List.length ns) i Hi), <- Htake,
        (lookup_take_lt r' (List.length ns) i Hi). exact Hri. }
    exists x. split; [exact Hx|]. split; [exact Hr|].
    exact (within_lookup _ _ _ _ Htol Hr).
  - intros Hcalm j l Hj. destruct (Hloops Hcalm j l Hj) as (x & w'' & Hx & Hrj).
    assert (Hcq : calm wq).
    { apply (calm_written wq w'); [|exact Hcalm].
      transitivity wl; [apply Hql|exact Hl']. }
    rewrite (Hsame Hcq) in Hrj.
    exists x, w''. split; [exact Hx|]. split; [exact Hrj|].
    exact (within_lookup _ _ _ _ Htol Hrj).
Qed.

End ResidentFlows.

(** Two counterexamples to C1, with stand-in solvers.

    On [triangle_network], where no pipe is in the transition regime, the
    solver evaluates the residuals at the flow rates 10, which are all 0,
    tries one more L/s in the pipe a-b, and returns the flow rates 10:
    the solution is converged, but the flow rates left in the pipes are
    those of the trial, its last evaluation, and [getNetFlowRate()] of
    the node [a] returns -0.001 m^3/s.

    On [transition_network], whose pipe has a Reynolds number of about
    3498, the residual evaluation at the flow rates 10 returns exactly 0
    for both nodes and for the loop when the deviate it draws is -5; the
    solver stops there, returns those flow rates and leaves them in the
    pipe.  Evaluated next, with the deviate 0, [getLoopHeadLoss()]
    returns more than 0.03. *)
Lemma converged_solution_unbalanced :
  (probed (fn (fsolve_back [lit 11; lit 10; lit 10; lit 10])
              sqrt_id log10_id main_PN)
          (fsolve_back [lit 11; lit 10; lit 10; lit 10] (repeat (lit 10) 4))
          triangle_world (repeat (lit 10) 4) triangle_r (repeat (lit 10) 4)
          triangle_back /\
   Forall (fun x => x = 0) triangle_r /\
   findFlowRates (fsolve_back [lit 11; lit 10; lit 10; lit 10])
                 sqrt_id log10_id main_PN triangle_world
   = Ok (repeat (lit 10) 4, triangle_back) /\
   (exists r1,
      last_probe (fn (fsolve_back [lit 11; lit 10; lit 10; lit 10])
                     sqrt_id log10_id main_PN)
                 (fsolve_back [lit 11; lit 10; lit 10; lit 10]
                              (repeat (lit 10) 4))
                 triangle_world [lit 11; lit 10; lit 10; lit 10] r1
                 (repeat (lit 10) 4) triangle_back) /\
   calm triangle_back /\
   (exists P, pipe_objs triangle_back !! 0%nat = Some P /\ Pipe.Q P = lit 11) /\
   exists x,
     getNetFlowRate 0%nat triangle_back = Ok (x, triangle_back) /\
     x = - lit 0.001 /\ lit 0.000001 < Qcabs.Qcabs x) /\
  (probed (fn fsolve_once sqrt_id log10_id main_PN)
          (fsolve_once (repeat (lit 10) 3))
          transition_world (repeat (lit 10) 3) transition_r (repeat (lit 10) 3)
          transition_world' /\
   last_probe (fn fsolve_once sqrt_id log10_id main_PN)
              (fsolve_once (repeat (lit 10) 3))
              transition_world (repeat (lit 10) 3) transition_r
              (repeat (lit 10) 3) transition_world' /\
   Forall (fun x => x = 0) transition_r /\
   findFlowRates fsolve_once sqrt_id log10_id main_PN transition_world
   = Ok (repeat (lit 10) 3, transition_world') /\
   (exists P Re,
      pipe_objs transition_world' !! 0%nat = Some P /\ Pipe.Q P = lit 10 /\
      reynolds_of P = Ok Re /\ lit 2000 < Re /\ Re < lit 4000) /\
   exists h,
     value (getLoopHeadLoss fsolve_once sqrt_id log10_id 0%nat transition_world')
     = Ok h /\
     lit 0.03 < h).
Proof.
  split.
  - split.
    { apply probed_here with (w1 := triangle_world'); vm_compute; reflexivity. }
    split.
    { apply (Forall_by_bool _ (fun x => Qc_eqb x 0)).
      - intros x. apply Qc_eqb_eq.
      - vm_compute. reflexivity. }
    split; [vm_compute; reflexivity|].
    split.
    { eexists.
      apply last_probe_later with (r0 := triangle_r) (w0 := triangle_world');
        [vm_compute; reflexivity|].
      apply last_probe_here; [vm_compute; reflexivity|reflexivity]. }
    split.
    { intros a p Hp.
      destruct a as [|[|[|a]]]; vm_compute in Hp; [..|discriminate Hp];
        injection Hp as <-; intros Re HRe; vm_compute in HRe;
        injection HRe as <-; right; vm_compute; discriminate. }
    split.
    { eexists. split; [vm_compute; reflexivity|]. qc_eq. }
    eexists. split; [vm_compute; reflexivity|].
    split; [qc_eq|vm_compute; reflexivity].
  - split.
    { apply probed_here with (w1 := transition_world'); vm_compute; reflexivity. }
    split.
    { apply last_probe_here; [vm_compute; reflexivity|reflexivity]. }
    split.
    { apply (Forall_by_bool _ (fun x => Qc_eqb x 0)).
      - intros x. apply Qc_eqb_eq.
      - vm_compute. reflexivity. }
    split; [vm_compute; reflexivity|].
    split.
    { do 2 eexists. split; [vm_compute; reflexivity|]. split; [qc_eq|].
      split; [vm_compute; reflexivity|]. split; vm_compute; reflexivity. }
    eexists. split; [vm_compute; reflexivity|]. vm_compute. reflexivity.
Qed.

(** On [triangle_network], with the stand-in solver that stops at its
    initial guess: the balance of the node [a] and the closure of the
    loop, evaluated again on the flow rates left in the pipes, are those
    of the residual vector. *)
Lemma resident_flows_within_tolerance_witness :
  (exists x,
     getNetFlowRate 0%nat triangle_world' = Ok (x, triangle_world') /\
     triangle_r !! 0%nat = Some x /\
     Qcabs.Qcabs x < lit 0.000001) /\
  (exists x w'',
     getLoopHeadLoss fsolve_once sqrt_id log10_id 0%nat triangle_world'
     = Ok (x, w'') /\
     triangle_r !! 3%nat = Some x /\
     Qcabs.Qcabs x < lit 0.000001).
Proof.
  assert (Hns0 : list_objs triangle_world !! PipeNetwork.nodes main_PN
                 = Some [0; 1; 2]%nat) by (vm_compute; reflexivity).
  assert (Hls0 : list_objs triangle_world !! PipeNetwork.loops main_PN
                 = Some [0]%nat) by (vm_compute; reflexivity).
  assert (Hprobed : probed (fn fsolve_once sqrt_id log10_id main_PN)
                      (fsolve_once (repeat (lit 10)
                                      (List.length [0; 1; 2]%nat
                                       + List.length [0]%nat)))
                      triangle_world (repeat (lit 10) 4) triangle_r
                      (repeat (lit 10) 4) triangle_world').
  { apply probed_here with (w1 := triangle_world'); vm_compute; reflexivity. }
  assert (Hlast : last_probe (fn fsolve_once sqrt_id log10_id main_PN)
                    (fsolve_once (repeat (lit 10)
                                    (List.length [0; 1; 2]%nat
                                     + List.length [0]%nat)))
                    triangle_world (repeat (lit 10) 4) triangle_r
                    (repeat (lit 10) 4) triangle_world').
  { apply last_probe_here; [vm_compute; reflexivity|reflexivity]. }
  assert (Htol : within (lit 0.000001) triangle_r).
  { apply (Forall_by_bool _ (fun x => negb (Qc_leb (lit 0.000001) (Qcabs.Qcabs x)))).
    - intros x Hx. apply Qc_leb_gt. apply negb_true_iff. exact Hx.
    - vm_compute. reflexivity. }
  assert (Hcalm : calm triangle_world').
  { intros a p Hp.
    destruct a as [|[|[|a]]]; vm_compute in Hp; [..|discriminate Hp];
      injection Hp as <-; intros Re HRe; vm_compute in HRe;
      injection HRe as <-; right; vm_compute; discriminate. }
  destruct (resident_flows_within_tolerance fsolve_once sqrt_id log10_id
              main_PN triangle_world _ _ _ _ _ _ (lit 0.000001)
              Hns0 Hls0 Hprobed Htol Hlast)
    as (_ & ps & ns & ls & _ & Hns & Hls & _ & _ & Hnodes & Hloops).
  assert (En : list_objs triangle_world' !! PipeNetwork.nodes main_PN
               = Some [0; 1; 2]%nat) by (vm_compute; reflexivity).
  assert (El : list_objs triangle_world' !! PipeNetwork.loops main_PN
               = Some [0]%nat) by (vm_compute; reflexivity).
  rewrite En in Hns. injection Hns as <-.
  rewrite El in Hls. injection Hls as <-.
  split.
  - apply (Hnodes 0%nat 0%nat). reflexivity.
  - apply (Hloops Hcalm 0%nat 0%nat). reflexivity.
Defined.

(** ** More on the solve, the pipes and the loops *)

Section Solving.

Variable fsolve : list Qc -> Solver.
Variable sqrt : Qc -> Qc.
Variable log10 : Qc -> Qc.

(** X1.  What a solve leaves behind.  When [findFlowRates] returns, it
    has created no object and changed no node, loop or list; every pipe
    is where it was and differs at most in its flow rate [Q] and in the
    Reynolds number stored by [Re()]; the random generator has only moved
    forward. *)
Theorem findFlowRates_frame (PN : PipeNetwork.t) (w : World) (x : list Qc)
    (w' : World) :
  findFlowRates fsolve sqrt log10 PN w = Ok (x, w') ->
  hydro same_but_Q_reynolds w w'.
Proof.
  apply (findFlowRates_hydro same_but_Q_reynolds same_but_Q_reynolds_Q
           same_but_Q_reynolds_reynolds).
Qed.

(** X4.  Traversal against the pipe.  From any node other than the start
    node of the pipe (its end node, or a node that the pipe does not touch)
    [getFlowHeadLoss] returns the opposite of what it returns from the
    start node, and leaves the same store. *)
Theorem getFlowHeadLoss_against (w : World) (self : addr) (p : Pipe.t)
    (s : string) (x : Qc) (w' : World) :
  pipe_objs w !! self = Some p ->
  s <> Pipe.startNode p ->
  getFlowHeadLoss fsolve sqrt log10 self (Pipe.startNode p) w = Ok (x, w') ->
  getFlowHeadLoss fsolve sqrt log10 self s w = Ok (- x, w').
Proof.
  intros Hp Hs. rewrite !getFlowHeadLoss_head_loss_of, Hp.
  destruct (head_loss_of fsolve sqrt log10 p (gauss w (drawn w)))
    as [[[Re hl] used]|e]; [|discriminate].
  rewrite String.eqb_refl.
  destruct (String.eqb s (Pipe.startNode p)) eqn:E.
  { apply String.eqb_eq in E. contradiction. }
  intros [= <- <-]. do 2 f_equal. ring.
Qed.

(** X6.  A loop without pipes, such as [Loop()] while the default list is
    empty.  [getLoopHeadLoss] raises [IndexError] on it, and no residual
    evaluation of a network that has such a loop returns: [fn] raises,
    whatever the trial vector. *)
Theorem empty_loop_raises (PN : PipeNetwork.t) (w : World) (ls : list addr)
    (l : addr) (L : Loop.t) :
  list_objs w !! PipeNetwork.loops PN = Some ls ->
  l ∈ ls ->
  loop_objs w !! l = Some L ->
  list_objs w !! Loop.pipes L = Some [] ->
  getLoopHeadLoss fsolve sqrt log10 l w = Raise IndexError /\
  forall q, exists e, fn fsolve sqrt log10 PN q w = Raise e.
Proof.
  intros Hls Hl HL Hempty.
  assert (Hraise : forall w0, loop_objs w0 = loop_objs w ->
                              list_objs w0 = list_objs w ->
            getLoopHeadLoss fsolve sqrt log10 l w0 = Raise IndexError).
  { intros w0 E1 E2. unfold getLoopHeadLoss.
    rewrite (bind_Ok_intro _ _ w0 L w0) by (apply get_loop_Ok; rewrite E1; auto).
    rewrite (bind_Ok_intro _ _ w0 [] w0) by (apply get_list_Ok; rewrite E2; auto).
    reflexivity. }
  split; [apply Hraise; reflexivity|].
  intros q. destruct (fn fsolve sqrt log10 PN q w) as [[r w']|e] eqn:E; [|eauto].
  exfalso.
  apply fn_residual_layout in E
    as (ps & ns & ls' & w1 & w2 & R & R' & Hps & Hset & Hns & HR & Hls' & HR' & _).
  pose proof (set_flows_hydro same_but_Q_reynolds same_but_Q_reynolds_Q
                _ _ _ _ _ _ Hset) as (_ & _ & Hl1 & Hli1 & _).
  pose proof (comprehension_hydro same_but_Q_reynolds _ _
                (getNetFlowRate_hydro same_but_Q_reynolds) _ _ _ HR)
    as (_ & _ & Hl2 & Hli2 & _).
  rewrite Hli2, Hli1, Hls in Hls'. injection Hls' as <-.
  apply list_elem_of_lookup in Hl as [j Hj].
  assert (Hh : forall x, returns_in (hydro same_but_Q_reynolds)
                           (getLoopHeadLoss fsolve sqrt log10 x)).
  { intros x. apply getLoopHeadLoss_hydro;
      first [apply same_but_Q_reynolds_Q | apply same_but_Q_reynolds_reynolds
            | typeclasses eauto]. }
  destruct (comprehension_lookup (hydro same_but_Q_reynolds) _ _ _ _ _ Hh
              HR' _ _ Hj) as (y & wj & wj' & (_ & _ & Hl3 & Hli3 & _) & Hy & _).
  rewrite Hraise in Hy by congruence. discriminate Hy.
Qed.

End Solving.

Lemma pydiv_raises (x y : Qc) e : pydiv x y = Raise e -> e = ZeroDivisionError /\ y = 0.
Proof.
  unfold pydiv. destruct (Qc_eqb y 0) eqn:E; [|discriminate].
  intros [= <-]. apply Qc_eqb_eq in E. auto.
Qed.

Lemma V_raises self w p e :
  pipe_objs w !! self = Some p -> V self w = Raise e ->
  e = ZeroDivisionError /\ Pipe.A p = 0.
Proof.
  intros Hp. unfold V.
  rewrite (bind_Ok_intro _ _ w p w) by (apply get_pipe_Ok; auto).
  unfold bind, lift. destruct (pydiv _ _) eqn:E; [discriminate|].
  intros [= <-]. exact (pydiv_raises _ _ _ E).
Qed.

Lemma Re_raises self w p e :
  pipe_objs w !! self = Some p -> Re self w = Raise e ->
  e = ZeroDivisionError /\ Fluid.mu (Pipe.fluid p) = 0.
Proof.
  intros Hp. rewrite Re_reynolds_of, Hp. unfold reynolds_of.
  destruct (pydiv _ _) eqn:E; [discriminate|].
  intros [= <-]. exact (pydiv_raises _ _ _ E).
Qed.

Lemma area_zero (D : Qc) : math_pi * sq (D / lit 1000 / lit 2) = 0 <-> D = 0.
Proof.
  split.
  - unfold sq. intros H.
    apply Qcmult_integral in H as [H|H].
    { exfalso. revert H. apply lit_nonzero. reflexivity. }
    assert (Hd : D / lit 1000 / lit 2 = 0)
      by (apply Qcmult_integral in H as [H|H]; exact H).
    apply Qc_div_eq_zero in Hd; [|apply lit_nonzero; reflexivity].
    apply Qc_div_eq_zero in Hd; [|apply lit_nonzero; reflexivity].
    exact Hd.
  - intros ->. replace (0 / lit 1000 / lit 2) with 0 by qc_eq. unfold sq. ring.
Qed.

(** X3.  The constructor of a pipe divides twice: [V()] by the area and
    [Re()] by the viscosity of the fluid.  With the diameter 0 the area
    is 0 and the constructor raises [ZeroDivisionError]; with a fluid of
    viscosity 0 it raises an exception; so when it returns the new pipe,
    which is the next object of the store, neither the diameter nor the
    viscosity is zero. *)
Theorem Pipe_init_outcome (Start End : string) (L D r : Qc) (fluid : Fluid.t)
    (w : World) :
  (D = 0 -> Pipe_init Start End L D r fluid w = Raise ZeroDivisionError) /\
  (Fluid.mu fluid = 0 -> exists e, Pipe_init Start End L D r fluid w = Raise e) /\
  (forall self w',
      Pipe_init Start End L D r fluid w = Ok (self, w') ->
      self = List.length (pipe_objs w) /\ D <> 0 /\ Fluid.mu fluid <> 0).
Proof.
  assert (HOk : forall self w',
             Pipe_init Start End L D r fluid w = Ok (self, w') ->
             self = List.length (pipe_objs w) /\ D <> 0 /\ Fluid.mu fluid <> 0).
  { intros self w' E.
    apply Pipe_init_Ok in E as (-> & v & x & Hv & Hx & _).
    apply pydiv_Ok in Hv as [HA _]. apply pydiv_Ok in Hx as [Hmu _].
    repeat split; [|exact Hmu].
    intros ->. apply HA. apply area_zero. reflexivity. }
  split; [|split; [|exact HOk]].
  - intros ->. unfold Pipe_init.
    erewrite bind_Ok_intro by reflexivity.
    apply bind_Raise_intro. unfold V.
    erewrite bind_Ok_intro
      by (apply get_pipe_Ok; split; [apply lookup_new|reflexivity]).
    apply bind_Raise_intro. unfold lift. simpl Pipe.Q. simpl Pipe.A.
    rewrite (proj2 (area_zero 0) eq_refl). reflexivity.
  - intros Hmu.
    destruct (Pipe_init Start End L D r fluid w) as [[self w']|e] eqn:E.
    + destruct (HOk _ _ eq_refl) as (_ & _ & H). contradiction.
    + exists e. reflexivity.
Qed.

(** On [Pipe('a', 'b', D=0)]. *)
Lemma Pipe_init_outcome_witness :
  Pipe_init "a" "b" (lit 100) 0 (lit 0.00025) Fluid_default
            (module_loaded (constant_gauss 0))
  = Raise ZeroDivisionError.
Proof.
  apply (Pipe_init_outcome "a" "b" (lit 100) 0 (lit 0.00025) Fluid_default
           (module_loaded (constant_gauss 0))).
  reflexivity.
Defined.

(** ** Searching the network *)

Lemma set_list_objs_same w : set_list_objs (list_objs w) w = w.
Proof. destruct w. reflexivity. Qed.

Lemma oContainsNode_Ok p node w P :
  pipe_objs w !! p = Some P -> oContainsNode p node w = Ok (contains node P, w).
Proof.
  intros Hp. unfold oContainsNode.
  rewrite (bind_Ok_intro _ _ w P w) by (apply get_pipe_Ok; auto). reflexivity.
Qed.

Lemma list_append_Ok l x w acc :
  list_objs w !! l = Some acc ->
  list_append l x w = Ok (tt, set_list_objs (<[l := acc ++ [x]]> (list_objs w)) w).
Proof.
  intros Hl. unfold list_append.
  rewrite (bind_Ok_intro _ _ w acc w) by (apply get_list_Ok; auto). reflexivity.
Qed.

Lemma touching_cons w node p ps P :
  pipe_objs w !! p = Some P ->
  touching w node (p :: ps)
  = if contains node P then p :: touching w node ps else touching w node ps.
Proof. intros Hp. unfold touching. simpl. rewrite Hp. reflexivity. Qed.

Lemma collect_pipes_Ok node ps l w acc :
  valid_pipes w ps -> list_objs w !! l = Some acc ->
  collect_pipes node ps l w
  = Ok (tt, set_list_objs (<[l := acc ++ touching w node ps]> (list_objs w)) w).
Proof.
  revert w acc. induction ps as [|p ps IH]; intros w acc Hvalid Hl.
  - simpl. unfold ret. rewrite app_nil_r, (list_insert_id _ _ _ Hl),
      set_list_objs_same. reflexivity.
  - inversion_clear Hvalid as [|? ? [P HP] Hps].
    simpl collect_pipes.
    rewrite (bind_Ok_intro _ _ w (contains node P) w)
      by (apply oContainsNode_Ok; exact HP).
    rewrite (touching_cons _ _ _ _ _ HP).
    destruct (contains node P).
    + rewrite (bind_Ok_intro _ _ _ _ _ (list_append_Ok l p w acc Hl)).
      rewrite (IH _ (acc ++ [p])).
      * simpl. rewrite list_insert_insert_eq, <- app_assoc. reflexivity.
      * exact Hps.
      * simpl. apply list_lookup_insert_eq. eapply lookup_lt_Some; eauto.
    + rewrite (bind_Ok_intro _ _ w tt w) by reflexivity.
      apply IH; assumption.
Qed.

Lemma getNodePipes_Ok (PN : PipeNetwork.t) (node : string)
    (w : World) (ps : list addr) :
  list_objs w !! PipeNetwork.pipes PN = Some ps ->
  valid_pipes w ps ->
  getNodePipes PN node w
  = Ok (List.length (list_objs w),
        set_list_objs (list_objs w ++ [touching w node ps]) w).
Proof.
  intros Hps Hvalid. unfold getNodePipes.
  erewrite bind_Ok_intro by reflexivity.
  erewrite bind_Ok_intro.
  2:{ apply get_list_Ok. split; [|reflexivity]. simpl.
      rewrite lookup_app_l by (eapply lookup_lt_Some; eauto). exact Hps. }
  erewrite bind_Ok_intro.
  2:{ apply (collect_pipes_Ok node ps _ _ []); [exact Hvalid|].
      simpl. apply lookup_new. }
  unfold ret. simpl. do 2 f_equal.
  unfold set_list_objs. simpl. f_equal.
  rewrite insert_app_r_alt by lia. rewrite Nat.sub_diag. reflexivity.
Qed.

Lemma elem_of_touching w node ps p :
  p ∈ touching w node ps <->
  p ∈ ps /\ exists P, pipe_objs w !! p = Some P /\
                      (Pipe.startNode P = node \/ Pipe.endNode P = node).
Proof.
  unfold touching. rewrite !list_elem_of_In, List.filter_In.
  split; intros [Hp H]; (split; [exact Hp|]).
  - destruct (pipe_objs w !! p) as [P|]; [|discriminate].
    exists P. split; [reflexivity|]. unfold contains in H.
    apply orb_prop in H as [H|H]; apply String.eqb_eq in H; auto.
  - destruct H as (P & -> & H). unfold contains.
    apply orb_true_iff. rewrite !String.eqb_eq. exact H.
Qed.

(** X11.  [getNodePipes(node)] returns a new list object, and changes
    nothing else in the store; the list holds the pipes of the network
    that are connected to [node], in the order of the list of pipes of the
    network: a pipe is in it exactly when it is in the network and has
    [node] as its start or its end node. *)
Theorem getNodePipes_fresh_list (PN : PipeNetwork.t) (node : string)
    (w : World) (ps : list addr) :
  list_objs w !! PipeNetwork.pipes PN = Some ps ->
  valid_pipes w ps ->
  getNodePipes PN node w
  = Ok (List.length (list_objs w),
        set_list_objs (list_objs w ++ [touching w node ps]) w) /\
  list_objs w !! List.length (list_objs w) = None /\
  forall p, p ∈ touching w node ps <->
            p ∈ ps /\ exists P, pipe_objs w !! p = Some P /\
                                (Pipe.startNode P = node \/ Pipe.endNode P = node).
Proof.
  intros Hps Hvalid.
  split; [exact (getNodePipes_Ok PN node w ps Hps Hvalid)|].
  split; [apply lookup_ge_None; lia|].
  intros p. apply elem_of_touching.
Qed.

Lemma Name_Ok p w P :
  pipe_objs w !! p = Some P ->
  Name p w = Ok ((Pipe.startNode P ++ "-" ++ Pipe.endNode P)%string, w).
Proof.
  intros Hp. unfold Name.
  rewrite (bind_Ok_intro _ _ w P w) by (apply get_pipe_Ok; auto). reflexivity.
Qed.

Lemma find_pipe_first name ps w :
  valid_pipes w ps ->
  exists o, find_pipe name ps w = Ok (o, w) /\
    match o with
    | Some p =>
        exists i, ps !! i = Some p /\ pipe_name w p = Some name /\
                  forall j q, (j < i)%nat -> ps !! j = Some q ->
                              pipe_name w q <> Some name
    | None => forall q, q ∈ ps -> pipe_name w q <> Some name
    end.
Proof.
  induction ps as [|p ps IH]; intros Hvalid.
  - exists None. split; [reflexivity|]. intros q Hq. inversion Hq.
  - inversion_clear Hvalid as [|? ? [P HP] Hps].
    simpl find_pipe. rewrite (bind_Ok_intro _ _ _ _ _ (Name_Ok p w P HP)).
    destruct (String.eqb name _) eqn:E.
    + apply String.eqb_eq in E. exists (Some p). split; [reflexivity|].
      exists 0%nat. split; [reflexivity|]. split.
      * unfold pipe_name. rewrite HP, E. reflexivity.
      * intros j q Hj. lia.
    + apply String.eqb_neq in E.
      destruct (IH Hps) as (o & Ho & Hspec). exists o. split; [exact Ho|].
      assert (Hp : pipe_name w p <> Some name).
      { unfold pipe_name. rewrite HP. congruence. }
      destruct o as [p'|].
      * destruct Hspec as (i & Hi & Hn & Hbefore).
        exists (S i). split; [exact Hi|]. split; [exact Hn|].
        intros [|j] q Hj Hq; simpl in Hq.
        -- injection Hq as <-. exact Hp.
        -- apply (Hbefore j q); [lia|exact Hq].
      * intros q Hq. apply elem_of_cons in Hq as [->|Hq]; auto.
Qed.

Lemma getPipe_find PN name w ps :
  list_objs w !! PipeNetwork.pipes PN = Some ps ->
  getPipe PN name w = find_pipe name ps w.
Proof.
  intros Hps. unfold getPipe.
  rewrite (bind_Ok_intro _ _ w ps w) by (apply get_list_Ok; auto). reflexivity.
Qed.

(** X7.  [getPipe(name)], on a network whose list of pipes holds pipes,
    returns without changing the store: the first pipe of the list whose
    [Name()] is [name], or Python's [None] when no pipe of the list has
    that name. *)
Theorem getPipe_first_match (PN : PipeNetwork.t) (name : string) (w : World)
    (ps : list addr) :
  list_objs w !! PipeNetwork.pipes PN = Some ps ->
  valid_pipes w ps ->
  exists o, getPipe PN name w = Ok (o, w) /\
    match o with
    | Some p =>
        exists i, ps !! i = Some p /\ pipe_name w p = Some name /\
                  forall j q, (j < i)%nat -> ps !! j = Some q ->
                              pipe_name w q <> Some name
    | None => forall q, q ∈ ps -> pipe_name w q <> Some name
    end.
Proof.
  intros Hps Hvalid. rewrite (getPipe_find PN name w ps Hps).
  apply find_pipe_first. exact Hvalid.
Qed.

Lemma find_node_first name ns w :
  valid_nodes w ns ->
  exists o, find_node name ns w = Ok (o, w) /\
    match o with
    | Some n =>
        exists i, ns !! i = Some n /\ node_name w n = Some name /\
                  forall j m, (j < i)%nat -> ns !! j = Some m ->
                              node_name w m <> Some name
    | None => forall m, m ∈ ns -> node_name w m <> Some name
    end.
Proof.
  induction ns as [|n ns IH]; intros Hvalid.
  - exists None. split; [reflexivity|]. intros q Hq. inversion Hq.
  - inversion_clear Hvalid as [|? ? [N HN] Hns].
    simpl find_node.
    rewrite (bind_Ok_intro _ _ w N w) by (apply get_node_Ok; auto).
    destruct (String.eqb (Node.name N) name) eqn:E.
    + apply String.eqb_eq in E. exists (Some n). split; [reflexivity|].
      exists 0%nat. split; [reflexivity|]. split.
      * unfold node_name. rewrite HN, E. reflexivity.
      * intros j q Hj. lia.
    + apply String.eqb_neq in E.
      destruct (IH Hns) as (o & Ho & Hspec). exists o. split; [exact Ho|].
      assert (Hn : node_name w n <> Some name).
      { unfold node_name. rewrite HN. congruence. }
      destruct o as [n'|].
      * destruct Hspec as (i & Hi & Hnm & Hbefore).
        exists (S i). split; [exact Hi|]. split; [exact Hnm|].
        intros [|j] q Hj Hq; simpl in Hq.
        -- injection Hq as <-. exact Hn.
        -- apply (Hbefore j q); [lia|exact Hq].
      * intros q Hq. apply elem_of_cons in Hq as [->|Hq]; auto.
Qed.

Lemma nodeBuilt_first PN name w ns :
  list_objs w !! PipeNetwork.nodes PN = Some ns ->
  valid_nodes w ns ->
  (nodeBuilt PN name w = Ok (true, w) /\ named w ns name) \/
  (nodeBuilt PN name w = Ok (false, w) /\
   forall m, m ∈ ns -> node_name w m <> Some name).
Proof.
  intros Hns Hvalid. unfold nodeBuilt.
  rewrite (bind_Ok_intro _ _ w ns w) by (apply get_list_Ok; auto).
  destruct (find_node_first name ns w Hvalid) as (o & Ho & Hspec).
  rewrite (bind_Ok_intro _ _ _ _ _ Ho). destruct o as [n|].
  - left. split; [reflexivity|]. destruct Hspec as (i & Hi & Hn & _).
    exists n. split; [eapply list_elem_of_lookup_2; eauto|exact Hn].
  - right. split; [reflexivity|exact Hspec].
Qed.

(** X10.  [getNode(name)], on a network whose list of nodes holds nodes,
    returns without changing the store: the first node of the list that
    is called [name], or [None] when there is none; [nodeBuilt(name)]
    returns [True] in the first case and [False] in the second. *)
Theorem getNode_first_match (PN : PipeNetwork.t) (name : string) (w : World)
    (ns : list addr) :
  list_objs w !! PipeNetwork.nodes PN = Some ns ->
  valid_nodes w ns ->
  exists o, getNode PN name w = Ok (o, w) /\
    nodeBuilt PN name w
    = Ok (match o with Some _ => true | None => false end, w) /\
    match o with
    | Some n =>
        exists i, ns !! i = Some n /\ node_name w n = Some name /\
                  forall j m, (j < i)%nat -> ns !! j = Some m ->
                              node_name w m <> Some name
    | None => forall m, m ∈ ns -> node_name w m <> Some name
    end.
Proof.
  intros Hns Hvalid. unfold getNode, nodeBuilt.
  rewrite !(bind_Ok_intro _ _ w ns w) by (apply get_list_Ok; auto).
  destruct (find_node_first name ns w Hvalid) as (o & Ho & Hspec).
  exists o. split; [exact Ho|]. split; [|exact Hspec].
  rewrite (bind_Ok_intro _ _ _ _ _ Ho). destruct o; reflexivity.
Qed.

(** ** Names of pipes *)

Lemma hyphen_split (s1 e1 s2 e2 : string) :
  occurs "-" s1 = false -> occurs "-" s2 = false ->
  (s1 ++ "-" ++ e1 = s2 ++ "-" ++ e2)%string -> s1 = s2 /\ e1 = e2.
Proof.
  assert (Hcons : forall c s t, (String c s ++ t)%string = String c (s ++ t)%string)
    by reflexivity.
  assert (Hnil : forall t, ("" ++ t)%string = t) by reflexivity.
  revert s2. induction s1 as [|c s1 IH]; intros [|c' s2] H1 H2 E; simpl in H1, H2;
    rewrite ?Hcons, ?Hnil in E.
  - injection E as ->. auto.
  - injection E as <- _. discriminate H2.
  - injection E as -> _. discriminate H1.
  - injection E as <- E.
    apply orb_false_elim in H1 as [_ H1]. apply orb_false_elim in H2 as [_ H2].
    destruct (IH _ H1 H2 E) as [-> ->]. auto.
Qed.

(** X8.  Two pipes whose start nodes contain no hyphen and for which
    [Name()] returns the same string have the same start node and the same
    end node. *)
Theorem Name_identifies_endpoints (w : World) (a b : addr) (P P' : Pipe.t) :
  pipe_objs w !! a = Some P ->
  pipe_objs w !! b = Some P' ->
  occurs "-" (Pipe.startNode P) = false ->
  occurs "-" (Pipe.startNode P') = false ->
  value (Name a w) = value (Name b w) ->
  Pipe.startNode P = Pipe.startNode P' /\ Pipe.endNode P = Pipe.endNode P'.
Proof.
  intros Ha Hb H1 H2. rewrite (Name_Ok _ _ _ Ha), (Name_Ok _ _ _ Hb). simpl.
  intros [= E]. exact (hyphen_split _ _ _ _ H1 H2 E).
Qed.

(** X9.  Round trip.  In a network none of whose start nodes contains a
    hyphen, looking a pipe [p] of the network up by its own name,
    [getPipe(p.Name())], returns a pipe of the network that has the
    endpoints of [p], and changes nothing. *)
Theorem getPipe_of_Name (PN : PipeNetwork.t) (w : World) (ps : list addr)
    (p : addr) (P : Pipe.t) :
  list_objs w !! PipeNetwork.pipes PN = Some ps ->
  valid_pipes w ps ->
  (forall q Q, q ∈ ps -> pipe_objs w !! q = Some Q ->
               occurs "-" (Pipe.startNode Q) = false) ->
  p ∈ ps ->
  pipe_objs w !! p = Some P ->
  exists p' P',
    (let* n := Name p in getPipe PN n) w = Ok (Some p', w) /\
    p' ∈ ps /\ pipe_objs w !! p' = Some P' /\
    Pipe.startNode P' = Pipe.startNode P /\ Pipe.endNode P' = Pipe.endNode P.
Proof.
  intros Hps Hvalid Hfree Hin HP.
  rewrite (bind_Ok_intro _ _ _ _ _ (Name_Ok p w P HP)).
  rewrite (getPipe_find PN _ w ps Hps).
  destruct (find_pipe_first (Pipe.startNode P ++ "-" ++ Pipe.endNode P)%string
              ps w Hvalid) as (o & Ho & Hspec).
  destruct o as [p'|].
  - destruct Hspec as (i & Hi & Hn & _).
    unfold pipe_name in Hn. destruct (pipe_objs w !! p') as [P'|] eqn:HP'; [|discriminate].
    assert (Hin' : p' ∈ ps) by (eapply list_elem_of_lookup_2; eauto).
    injection Hn as Hn. exists p', P'. split; [exact Ho|].
    split; [exact Hin'|]. split; [exact HP'|].
    apply hyphen_split in Hn; [exact Hn| |].
    + apply (Hfree p'); [exact Hin'|exact HP'].
    + apply (Hfree p); assumption.
  - exfalso. apply (Hspec p Hin). unfold pipe_name. rewrite HP. reflexivity.
Qed.

#[global] Instance grows_preorder PN : PreOrder (grows PN).
Proof.
  split.
  - intros w. unfold grows. repeat split; try reflexivity; auto.
    intros ns Hns. exists []. rewrite app_nil_r. exact Hns.
  - intros w1 w2 w3 (A1 & A2 & A3 & A4 & A5 & A6 & A7)
                    (B1 & B2 & B3 & B4 & B5 & B6 & B7).
    unfold grows. repeat split; try congruence; auto.
    intros ns Hns. destruct (A7 _ Hns) as (a1 & H1).
    destruct (B7 _ H1) as (a2 & H2). exists (a1 ++ a2).
    rewrite app_assoc. exact H2.
Qed.

Lemma touching_same w w' node ps :
  pipe_objs w' = pipe_objs w -> touching w' node ps = touching w node ps.
Proof. intros E. unfold touching. rewrite E. reflexivity. Qed.

Lemma node_name_grows PN w w' n x :
  grows PN w w' -> node_name w n = Some x -> node_name w' n = Some x.
Proof.
  intros (_ & _ & _ & _ & Hn & _) H. unfold node_name in *.
  destruct (node_objs w !! n) as [N|] eqn:E; [|discriminate].
  rewrite (Hn _ _ E). exact H.
Qed.

Lemma names_cons w n ns :
  names w (n :: ns)
  = match node_name w n with Some x => x :: names w ns | None => names w ns end.
Proof. reflexivity. Qed.

Lemma names_grows PN w w' ns :
  grows PN w w' -> valid_nodes w ns -> names w' ns = names w ns.
Proof.
  intros Hg Hvalid. unfold names.
  induction Hvalid as [|n ns [N HN] _ IH]; [reflexivity|].
  fold (names w' (n :: ns)). fold (names w (n :: ns)).
  fold (names w' ns) in IH. fold (names w ns) in IH.
  rewrite !names_cons, IH.
  assert (E : node_name w n = Some (Node.name N))
    by (unfold node_name; rewrite HN; reflexivity).
  rewrite (node_name_grows _ _ _ _ _ Hg E), E. reflexivity.
Qed.

Lemma named_grows PN w w' ns ns' name :
  grows PN w w' -> ns ⊆ ns' -> named w ns name -> named w' ns' name.
Proof.
  intros Hg Hsub (n & Hn & Hname). exists n. split; [auto|].
  exact (node_name_grows _ _ _ _ _ Hg Hname).
Qed.

Lemma wired_node_grows PN w w' ps n :
  grows PN w w' -> wired_node PN w ps n -> wired_node PN w' ps n.
Proof.
  intros (Hp & _ & _ & _ & Hn & Hl & _) (N & HN & Hne & Hlist).
  exists N. split; [auto|]. split; [exact Hne|].
  rewrite (touching_same _ _ _ _ Hp). auto.
Qed.

Lemma valid_nodes_grows PN w w' ns :
  grows PN w w' -> valid_nodes w ns -> valid_nodes w' ns.
Proof.
  intros (_ & _ & _ & _ & Hn & _). apply List.Forall_impl.
  intros n [N HN]. exists N. auto.
Qed.

Lemma names_valid w ns :
  valid_nodes w ns -> Forall2 (fun n x => node_name w n = Some x) ns (names w ns).
Proof.
  intros Hvalid. induction Hvalid as [|n ns [N HN] _ IH].
  - constructor.
  - assert (E : node_name w n = Some (Node.name N))
      by (unfold node_name; rewrite HN; reflexivity).
    rewrite names_cons, E. constructor; assumption.
Qed.

Lemma named_names w ns name : named w ns name <-> name ∈ names w ns.
Proof.
  unfold named, names. rewrite list_elem_of_omap. reflexivity.
Qed.

(** *** One node *)

Section NodeAdded.

Variable PN : PipeNetwork.t.
Variables (w : World) (ps ns : list addr) (name : string).
Hypothesis Hnet : network PN w ps ns.

Let n' : addr := List.length (node_objs w).
Let w' : World := node_added PN name ps ns w.

Lemma nodes_lt : (PipeNetwork.nodes PN < List.length (list_objs w))%nat.
Proof. destruct Hnet as (_ & Hns & _). eapply lookup_lt_Some; eauto. Qed.

Lemma node_added_grows : grows PN w w'.
Proof.
  destruct Hnet as (Hps & Hns & Hne & Hvp & Hvn).
  unfold grows, w', node_added. simpl. repeat split.
  - intros n N HN. apply lookup_app_l_Some. exact HN.
  - intros a l Ha Hl. rewrite list_lookup_insert_ne by congruence.
    apply lookup_app_l_Some. exact Hl.
  - intros ns0 Hns0. rewrite Hns in Hns0. injection Hns0 as <-.
    exists [n']. apply list_lookup_insert_eq.
    rewrite length_app. pose proof nodes_lt. lia.
Qed.

Lemma node_added_network : network PN w' ps (ns ++ [n']).
Proof.
  pose proof node_added_grows as Hg.
  destruct Hnet as (Hps & Hns & Hne & Hvp & Hvn).
  unfold network. split.
  { destruct Hg as (_ & _ & _ & _ & _ & Hl & _). apply Hl; assumption. }
  split.
  { unfold w', node_added. simpl. apply list_lookup_insert_eq.
    rewrite length_app. pose proof nodes_lt. lia. }
  split; [exact Hne|]. split; [exact Hvp|].
  apply Forall_app. split.
  - exact (valid_nodes_grows _ _ _ _ Hg Hvn).
  - apply List.Forall_cons; [|apply List.Forall_nil].
    unfold w', node_added, n'. simpl. rewrite lookup_new. eauto.
Qed.

Lemma node_added_node :
  node_objs w' !! n' = Some (Node.mk name (List.length (list_objs w)) 0).
Proof. unfold w', node_added, n'. simpl. apply lookup_new. Qed.

Lemma node_added_wired : wired_node PN w' ps n'.
Proof.
  exists (Node.mk name (List.length (list_objs w)) 0).
  split; [exact node_added_node|]. simpl.
  pose proof nodes_lt as Hlt. split; [lia|].
  unfold w', node_added. simpl.
  rewrite list_lookup_insert_ne by lia.
  change (touching _ name ps) with (touching w name ps).
  apply lookup_new.
Qed.

Lemma node_added_names : names w' (ns ++ [n']) = names w ns ++ [name].
Proof.
  destruct Hnet as (_ & _ & _ & _ & Hvn).
  unfold names at 1. rewrite omap_app. fold (names w' ns).
  rewrite (names_grows _ _ _ _ node_added_grows Hvn). f_equal.
  simpl. unfold node_name. rewrite node_added_node. reflexivity.
Qed.

Lemma build_node_new :
  ~ named w ns name -> build_node PN name w = Ok (tt, w').
Proof.
  intros Hnot. destruct Hnet as (Hps & Hns & Hne & Hvp & Hvn).
  destruct (nodeBuilt_first PN name w ns Hns Hvn) as [[_ Hn]|[Hb _]];
    [contradiction|].
  unfold build_node. rewrite (bind_Ok_intro _ _ _ _ _ Hb).
  change (negb false) with true. cbv iota.
  rewrite (bind_Ok_intro _ _ _ _ _ (getNodePipes_Ok PN name w ps Hps Hvp)).
  erewrite bind_Ok_intro by reflexivity.
  rewrite (list_append_Ok _ _ _ ns).
  - reflexivity.
  - simpl. apply lookup_app_l_Some. exact Hns.
Qed.

Lemma build_node_built :
  named w ns name -> build_node PN name w = Ok (tt, w).
Proof.
  intros (n & Hn & Hname). destruct Hnet as (Hps & Hns & Hne & Hvp & Hvn).
  destruct (nodeBuilt_first PN name w ns Hns Hvn) as [[Hb _]|[_ Hnone]].
  - unfold build_node. rewrite (bind_Ok_intro _ _ _ _ _ Hb). reflexivity.
  - exfalso. exact (Hnone n Hn Hname).
Qed.

End NodeAdded.

Lemma grows_no_node PN w w' n :
  grows PN w w' -> node_objs w' !! n = None -> node_objs w !! n = None.
Proof.
  intros (_ & _ & _ & _ & Hn & _) H.
  destruct (node_objs w !! n) as [N|] eqn:E; [|reflexivity].
  rewrite (Hn _ _ E) in H. discriminate H.
Qed.

Lemma sound_grows_app PN w w' ps ns n name :
  network PN w ps ns -> grows PN w w' ->
  names w' (ns ++ [n]) = names w ns ++ [name] ->
  ~ named w ns name -> wired_node PN w' ps n ->
  sound PN w ps ns -> sound PN w' ps (ns ++ [n]).
Proof.
  intros Hnet Hg Hnames Hnot Hwired [Hnd Hw]. split.
  - rewrite Hnames. apply list.NoDup_app. split; [exact Hnd|]. split.
    + intros x Hx Hx'. apply list_elem_of_singleton in Hx' as ->.
      apply Hnot, named_names. exact Hx.
    + apply NoDup_singleton.
  - apply Forall_app. split.
    + eapply List.Forall_impl; [|exact Hw].
      intros a. apply wired_node_grows. exact Hg.
    + apply List.Forall_cons; [exact Hwired|apply List.Forall_nil].
Qed.

(** What building one node does. *)
Lemma build_node_spec PN w ps ns name :
  network PN w ps ns ->
  exists w' ns',
    build_node PN name w = Ok (tt, w') /\ network PN w' ps ns' /\
    grows PN w w' /\ ns ⊆ ns' /\ named w' ns' name /\
    (sound PN w ps ns -> sound PN w' ps ns') /\
    (forall n, n ∈ ns' ->
       n ∈ ns \/ (node_objs w !! n = None /\
                  exists L, node_objs w' !! n = Some (Node.mk name L 0))).
Proof.
  intros Hnet.
  destruct (decide (name ∈ names w ns)) as [Hin|Hnot].
  - apply named_names in Hin. exists w, ns.
    split; [exact (build_node_built PN w ps ns name Hnet Hin)|].
    split; [exact Hnet|]. split; [reflexivity|]. split; [reflexivity|].
    split; [exact Hin|]. split; [auto|]. auto.
  - rewrite <- named_names in Hnot.
    exists (node_added PN name ps ns w), (ns ++ [List.length (node_objs w)]).
    split; [exact (build_node_new PN w ps ns name Hnet Hnot)|].
    split; [exact (node_added_network PN w ps ns name Hnet)|].
    split; [exact (node_added_grows PN w ps ns name Hnet)|].
    split; [apply list_subseteq_app_l; reflexivity|].
    split.
    { exists (List.length (node_objs w)). split.
      - apply elem_of_app. right. apply list_elem_of_singleton. reflexivity.
      - unfold node_name. rewrite node_added_node. reflexivity. }
    split.
    { apply (sound_grows_app PN w _ ps ns _ name Hnet).
      - exact (node_added_grows PN w ps ns name Hnet).
      - exact (node_added_names PN w ps ns name Hnet).
      - exact Hnot.
      - exact (node_added_wired PN w ps ns name Hnet). }
    intros n Hn. apply elem_of_app in Hn as [Hn|Hn]; [auto|].
    apply list_elem_of_singleton in Hn as ->. right. split.
    + apply lookup_ge_None. lia.
    + eexists. apply node_added_node.
Qed.

(** What the loop of [buildNodes] does, from any pipe on. *)
Lemma build_nodes_from_spec PN ps ps0 w ns :
  network PN w ps ns -> valid_pipes w ps0 ->
  exists w' ns',
    build_nodes_from PN ps0 w = Ok (tt, w') /\ network PN w' ps ns' /\
    grows PN w w' /\ ns ⊆ ns' /\ covered w' ps0 ns' /\
    (sound PN w ps ns -> sound PN w' ps ns') /\
    (forall n, n ∈ ns' -> n ∈ ns \/ built_node w w' ps0 n).
Proof.
  revert w ns. induction ps0 as [|p ps0 IH]; intros w ns Hnet Hvalid.
  - exists w, ns. split; [reflexivity|]. split; [exact Hnet|].
    split; [reflexivity|]. split; [reflexivity|].
    split; [intros p P Hp; inversion Hp|]. auto.
  - inversion_clear Hvalid as [|? ? [P HP] Hps0].
    destruct (build_node_spec PN w ps ns (Pipe.startNode P) Hnet)
      as (w1 & ns1 & Hb1 & Hnet1 & Hg1 & Hsub1 & Hnamed1 & Hsound1 & Hnew1).
    assert (HP1 : pipe_objs w1 !! p = Some P)
      by (destruct Hg1 as (E & _); rewrite E; exact HP).
    destruct (build_node_spec PN w1 ps ns1 (Pipe.endNode P) Hnet1)
      as (w2 & ns2 & Hb2 & Hnet2 & Hg2 & Hsub2 & Hnamed2 & Hsound2 & Hnew2).
    assert (Hps2 : valid_pipes w2 ps0).
    { destruct Hg1 as (E1 & _), Hg2 as (E2 & _).
      unfold valid_pipes. rewrite E2, E1. exact Hps0. }
    destruct (IH w2 ns2 Hnet2 Hps2)
      as (w3 & ns3 & Hb3 & Hnet3 & Hg3 & Hsub3 & Hcov3 & Hsound3 & Hnew3).
    assert (Hg13 : grows PN w1 w3) by (transitivity w2; assumption).
    assert (Hg03 : grows PN w w3) by (transitivity w1; assumption).
    assert (Hp3 : pipe_objs w3 = pipe_objs w) by apply Hg03.
    exists w3, ns3. split.
    { simpl build_nodes_from.
      rewrite (bind_Ok_intro _ _ w P w) by (apply get_pipe_Ok; auto).
      rewrite (bind_Ok_intro _ _ _ _ _ Hb1).
      rewrite (bind_Ok_intro _ _ w1 P w1) by (apply get_pipe_Ok; auto).
      rewrite (bind_Ok_intro _ _ _ _ _ Hb2). exact Hb3. }
    split; [exact Hnet3|]. split; [exact Hg03|].
    split; [etransitivity; [exact Hsub1|]; etransitivity; eassumption|].
    split.
    { intros q Q Hq HQ. apply elem_of_cons in Hq as [->|Hq].
      - rewrite Hp3, HP in HQ. injection HQ as <-. split.
        + apply (named_grows PN w1 w3 ns1 ns3); [exact Hg13| |exact Hnamed1].
          etransitivity; eassumption.
        + apply (named_grows PN w2 w3 ns2 ns3); assumption.
      - exact (Hcov3 q Q Hq HQ). }
    split; [auto|].
    intros n Hn. destruct (Hnew3 n Hn) as [Hn2|(Hfresh & N & HN & Hext & q & Q & Hq & HQ & Hname)].
    + destruct (Hnew2 n Hn2) as [Hn1|(Hfresh & L & HN)].
      * destruct (Hnew1 n Hn1) as [Hn0|(Hfresh & L & HN)]; [auto|].
        right. split; [exact Hfresh|].
        exists (Node.mk (Pipe.startNode P) L 0).
        split; [apply Hg13; exact HN|]. split; [reflexivity|].
        exists p, P. split; [apply elem_of_cons; auto|]. auto.
      * right. split; [exact (grows_no_node _ _ _ _ Hg1 Hfresh)|].
        exists (Node.mk (Pipe.endNode P) L 0).
        split; [apply Hg3; exact HN|]. split; [reflexivity|].
        exists p, P. split; [apply elem_of_cons; auto|]. auto.
    + right. split.
      { apply (grows_no_node _ _ _ _ Hg1), (grows_no_node _ _ _ _ Hg2), Hfresh. }
      exists N. split; [exact HN|]. split; [exact Hext|].
      exists q, Q. split; [apply elem_of_cons; auto|].
      split; [|exact Hname].
      destruct Hg1 as (E1 & _), Hg2 as (E2 & _). rewrite <- E1, <- E2. exact HQ.
Qed.

Lemma nodeBuilt_named PN w ps ns name :
  network PN w ps ns -> named w ns name -> nodeBuilt PN name w = Ok (true, w).
Proof.
  intros (Hps & Hns & Hne & Hvp & Hvn) (n & Hn & Hname).
  destruct (nodeBuilt_first PN name w ns Hns Hvn) as [[Hb _]|[_ Hnone]];
    [exact Hb|].
  exfalso. exact (Hnone n Hn Hname).
Qed.

Lemma build_nodes_from_covered PN ps ps0 w ns :
  network PN w ps ns -> valid_pipes w ps0 -> covered w ps0 ns ->
  build_nodes_from PN ps0 w = Ok (tt, w).
Proof.
  intros Hnet Hvalid Hcov. induction ps0 as [|p ps0 IH]; [reflexivity|].
  inversion_clear Hvalid as [|? ? [P HP] Hps0].
  destruct (Hcov p P) as [Hs He]; [apply elem_of_cons; auto|exact HP|].
  simpl build_nodes_from.
  rewrite (bind_Ok_intro _ _ w P w) by (apply get_pipe_Ok; auto).
  rewrite (bind_Ok_intro _ _ _ _ _ (build_node_built PN w ps ns _ Hnet Hs)).
  rewrite (bind_Ok_intro _ _ w P w) by (apply get_pipe_Ok; auto).
  rewrite (bind_Ok_intro _ _ _ _ _ (build_node_built PN w ps ns _ Hnet He)).
  apply IH; [exact Hps0|].
  intros q Q Hq. apply Hcov. apply elem_of_cons. auto.
Qed.

(** X12.  [buildNodes] returns on every network whose lists hold pipes
    and nodes, the two lists being two objects (the loop runs over the
    list of pipes while nodes are appended to the list of nodes).
    Afterwards [nodeBuilt] is [True] for both endpoints of every pipe.
    Nodes are only appended: the nodes there were come first and are
    unchanged, as are the pipes, the loops, the other lists and the
    generator; every node appended is a new object, has the external flow
    0 and is called as an endpoint of one of the pipes. *)
Theorem buildNodes_builds_endpoints (PN : PipeNetwork.t) (w : World)
    (ps ns : list addr) :
  network PN w ps ns ->
  exists w' added,
    buildNodes PN w = Ok (tt, w') /\
    network PN w' ps (ns ++ added) /\
    grows PN w w' /\
    (forall p P, p ∈ ps -> pipe_objs w !! p = Some P ->
       nodeBuilt PN (Pipe.startNode P) w' = Ok (true, w') /\
       nodeBuilt PN (Pipe.endNode P) w' = Ok (true, w')) /\
    (forall n, n ∈ ns ++ added -> n ∈ ns \/ built_node w w' ps n).
Proof.
  intros Hnet. pose proof Hnet as (Hps & Hns & Hne & Hvp & Hvn).
  destruct (build_nodes_from_spec PN ps ps w ns Hnet Hvp)
    as (w' & ns' & Hb & Hnet' & Hg & Hsub & Hcov & _ & Hnew).
  assert (E : exists added, ns' = ns ++ added).
  { destruct Hg as (_ & _ & _ & _ & _ & _ & Hl).
    destruct (Hl _ Hns) as (added & Ha). exists added.
    destruct Hnet' as (_ & Hns' & _). congruence. }
  destruct E as (added & ->). exists w', added.
  split.
  { unfold buildNodes.
    rewrite (bind_Ok_intro _ _ w ps w) by (apply get_list_Ok; auto). exact Hb. }
  split; [exact Hnet'|]. split; [exact Hg|]. split; [|exact Hnew].
  intros p P Hp HP.
  assert (HP' : pipe_objs w' !! p = Some P)
    by (destruct Hg as (E & _); rewrite E; exact HP).
  destruct (Hcov p P Hp HP') as [Hs He].
  split; eapply nodeBuilt_named; eauto.
Qed.

(** X14.  [buildNodes] leaves the nodes well formed.  If the nodes of the
    network have distinct names and each one has a list of its own with
    the pipes of the network connected to it (in particular, if there is
    no node yet), the same holds once [buildNodes] has returned, and every
    endpoint of every pipe is then the name of a node. *)
Theorem buildNodes_sound (PN : PipeNetwork.t) (w : World) (ps ns : list addr)
    (w' : World) :
  network PN w ps ns ->
  sound PN w ps ns ->
  buildNodes PN w = Ok (tt, w') ->
  exists ns',
    network PN w' ps ns' /\ sound PN w' ps ns' /\ covered w' ps ns'.
Proof.
  intros Hnet Hsound Hrun. pose proof Hnet as (Hps & Hns & Hne & Hvp & Hvn).
  destruct (build_nodes_from_spec PN ps ps w ns Hnet Hvp)
    as (w1 & ns' & Hb & Hnet' & Hg & Hsub & Hcov & Hs & _).
  unfold buildNodes in Hrun.
  rewrite (bind_Ok_intro _ _ w ps w) in Hrun by (apply get_list_Ok; auto).
  rewrite Hb in Hrun. injection Hrun as <-.
  exists ns'. auto.
Qed.

(** X15.  [buildNodes] is idempotent: called again in the store in which
    it has returned, it returns and leaves that store as it is. *)
Theorem buildNodes_idempotent (PN : PipeNetwork.t) (w : World)
    (ps ns : list addr) (w' : World) :
  network PN w ps ns ->
  buildNodes PN w = Ok (tt, w') ->
  buildNodes PN w' = Ok (tt, w').
Proof.
  intros Hnet Hrun. pose proof Hnet as (Hps & Hns & Hne & Hvp & Hvn).
  destruct (build_nodes_from_spec PN ps ps w ns Hnet Hvp)
    as (w1 & ns' & Hb & Hnet' & Hg & Hsub & Hcov & _ & _).
  unfold buildNodes in Hrun.
  rewrite (bind_Ok_intro _ _ w ps w) in Hrun by (apply get_list_Ok; auto).
  rewrite Hb in Hrun. injection Hrun as <-.
  pose proof Hnet' as (Hps' & _ & _ & Hvp' & _).
  unfold buildNodes.
  rewrite (bind_Ok_intro _ _ w1 ps w1) by (apply get_list_Ok; auto).
  exact (build_nodes_from_covered PN ps ps w1 ns' Hnet' Hvp' Hcov).
Qed.

(** *** Every pipe joins two nodes *)

Lemma getFlowIntoNode_Ok p n w P :
  pipe_objs w !! p = Some P -> getFlowIntoNode p n w = Ok (flow_into n P, w).
Proof.
  intros Hp. unfold getFlowIntoNode, flow_into.
  rewrite (bind_Ok_intro _ _ w P w) by (apply get_pipe_Ok; auto).
  destruct (String.eqb n (Pipe.startNode P)); reflexivity.
Qed.

(** Among nodes with distinct names, a name is the name of one node. *)
Lemma names_inj w ns n m name :
  NoDup (names w ns) -> n ∈ ns -> m ∈ ns ->
  node_name w n = Some name -> node_name w m = Some name -> n = m.
Proof.
  induction ns as [|x ns IH]; intros Hnd Hn Hm En Em.
  { apply elem_of_nil in Hn. contradiction. }
  rewrite names_cons in Hnd.
  assert (Hlater : forall y, y ∈ ns -> node_name w y = Some name ->
                             node_name w x = Some name -> False).
  { intros y Hy Ey Ex. rewrite Ex in Hnd.
    apply list.NoDup_cons in Hnd as [Hx _]. apply Hx.
    apply named_names. exists y. auto. }
  assert (Hnd' : NoDup (names w ns)).
  { destruct (node_name w x); [|exact Hnd].
    apply list.NoDup_cons in Hnd as [_ Hnd]. exact Hnd. }
  apply elem_of_cons in Hn as [->|Hn]; apply elem_of_cons in Hm as [->|Hm].
  - reflexivity.
  - exfalso. exact (Hlater m Hm Em En).
  - exfalso. exact (Hlater n Hn En Em).
  - exact (IH Hnd' Hn Hm En Em).
Qed.

(** A wired node of the network, by its name. *)
Lemma wired_named PN w ps ns name :
  Forall (wired_node PN w ps) ns -> named w ns name ->
  exists n N, n ∈ ns /\ node_objs w !! n = Some N /\ Node.name N = name /\
              list_objs w !! Node.pipes N = Some (touching w name ps).
Proof.
  intros Hw (n & Hn & Hname).
  destruct (proj1 (List.Forall_forall _ _) Hw n
              (proj1 (list_elem_of_In _ _) Hn)) as (N & HN & _ & Hl).
  unfold node_name in Hname. rewrite HN in Hname. injection Hname as <-.
  exists n, N. auto.
Qed.

(** X16.  Every pipe joins two nodes.  In a network whose pipes each
    join two different identifiers, and whose nodes have distinct names,
    cover every endpoint and each list the pipes connected to them (as
    [buildNodes] builds them), a pipe [p] of the network is in the lists
    of exactly two nodes: the one called as its start node and the one
    called as its end node.  To the first one [getFlowIntoNode] gives the
    flow rate of the pipe with the opposite sign, to the second one the
    flow rate as it is: what the pipe takes from one node it brings to
    the other. *)
Theorem pipe_joins_two_nodes (PN : PipeNetwork.t) (w : World)
    (ps ns : list addr) (p : addr) (P : Pipe.t) :
  network PN w ps ns ->
  sound PN w ps ns ->
  covered w ps ns ->
  proper_pipes w ps ->
  p ∈ ps ->
  pipe_objs w !! p = Some P ->
  exists a b A B la lb,
    a ∈ ns /\ b ∈ ns /\ a <> b /\
    node_objs w !! a = Some A /\ node_objs w !! b = Some B /\
    Node.name A = Pipe.startNode P /\ Node.name B = Pipe.endNode P /\
    list_objs w !! Node.pipes A = Some la /\ p ∈ la /\
    list_objs w !! Node.pipes B = Some lb /\ p ∈ lb /\
    getFlowIntoNode p (Node.name A) w = Ok (- Pipe.Q P, w) /\
    getFlowIntoNode p (Node.name B) w = Ok (Pipe.Q P, w) /\
    forall n N l,
      n ∈ ns -> node_objs w !! n = Some N ->
      list_objs w !! Node.pipes N = Some l -> p ∈ l ->
      n = a \/ n = b.
Proof.
  intros (Hps & Hns & Hne & Hvp & Hvn) [Hnd Hwired] Hcov Hproper Hp HP.
  destruct (Hcov p P Hp HP) as [Hs He].
  destruct (wired_named PN w ps ns _ Hwired Hs) as (a & A & Ha & HA & EA & HlA).
  destruct (wired_named PN w ps ns _ Hwired He) as (b & B & Hb & HB & EB & HlB).
  pose proof (Hproper p P Hp HP) as Hdiff.
  exists a, b, A, B, (touching w (Pipe.startNode P) ps),
    (touching w (Pipe.endNode P) ps).
  split; [exact Ha|]. split; [exact Hb|].
  split. { intros ->. rewrite HA in HB. injection HB as <-. congruence. }
  split; [exact HA|]. split; [exact HB|].
  split; [exact EA|]. split; [exact EB|].
  split; [exact HlA|].
  split. { apply elem_of_touching. split; [exact Hp|]. exists P. auto. }
  split; [exact HlB|].
  split. { apply elem_of_touching. split; [exact Hp|]. exists P. auto. }
  split.
  { rewrite (getFlowIntoNode_Ok p _ w P HP). unfold flow_into.
    rewrite EA, String.eqb_refl. reflexivity. }
  split.
  { rewrite (getFlowIntoNode_Ok p _ w P HP). unfold flow_into. rewrite EB.
    destruct (String.eqb (Pipe.endNode P) (Pipe.startNode P)) eqn:E;
      [|reflexivity].
    apply String.eqb_eq in E. congruence. }
  intros n N l Hn HN Hl Hpl.
  destruct (proj1 (List.Forall_forall _ _) Hwired n
              (proj1 (list_elem_of_In _ _) Hn)) as (N' & HN' & _ & Hl').
  rewrite HN in HN'. injection HN' as <-.
  rewrite Hl in Hl'. injection Hl' as ->.
  apply elem_of_touching in Hpl as (_ & P' & HP' & Hends).
  rewrite HP in HP'. injection HP' as <-.
  assert (En : node_name w n = Some (Node.name N))
    by (unfold node_name; rewrite HN; reflexivity).
  destruct Hends as [E|E]; [left|right];
    apply (names_inj w ns _ _ (Node.name N) Hnd Hn); try assumption;
    unfold node_name; [rewrite HA, EA|rewrite HB, EB]; rewrite E; reflexivity.
Qed.

(** On the network of [main], with the stand-in solver. *)
Lemma findFlowRates_frame_witness :
  hydro same_but_Q_reynolds main_world
    (after (findFlowRates fsolve_once sqrt_id log10_id main_PN) main_world).
Proof.
  apply (findFlowRates_frame fsolve_once sqrt_id log10_id main_PN main_world
           (repeat (lit 10) 11)).
  vm_compute. reflexivity.
Defined.

(** On the pipe [Pipe('b', 'a')], from ["a"] and from ["b"]. *)
Lemma getFlowHeadLoss_against_witness :
  exists x w',
    getFlowHeadLoss fsolve_once sqrt_id log10_id 0%nat "a" pipe_ba_world
    = Ok (x, w') /\
    getFlowHeadLoss fsolve_once sqrt_id log10_id 0%nat "b" pipe_ba_world
    = Ok (- x, w').
Proof.
  do 2 eexists. split; [vm_compute; reflexivity|].
  apply (getFlowHeadLoss_against fsolve_once sqrt_id log10_id pipe_ba_world
           0%nat (pipe_at pipe_ba_world 0%nat) "b").
  - vm_compute. reflexivity.
  - vm_compute. discriminate.
  - vm_compute. reflexivity.
Defined.

(** On the default network with [Loop()] as its only loop. *)
Lemma empty_loop_raises_witness :
  getLoopHeadLoss fsolve_once sqrt_id log10_id 0%nat empty_loop_world
  = Raise IndexError /\
  forall q, exists e,
    fn fsolve_once sqrt_id log10_id main_PN q empty_loop_world = Raise e.
Proof.
  apply (empty_loop_raises fsolve_once sqrt_id log10_id main_PN empty_loop_world
           [0%nat] 0%nat (Loop.mk "A" 1%nat)).
  - vm_compute. reflexivity.
  - apply list_elem_of_singleton. reflexivity.
  - vm_compute. reflexivity.
  - vm_compute. reflexivity.
Defined.

(** Hypotheses on a closed store, by computation. *)
Ltac all_by_compute :=
  repeat (apply List.Forall_cons; [vm_compute; eexists; reflexivity|]);
  apply List.Forall_nil.
Ltac network_by_compute :=
  split; [vm_compute; reflexivity|];
  split; [vm_compute; reflexivity|];
  split; [vm_compute; discriminate|];
  split; [unfold valid_pipes|unfold valid_nodes]; all_by_compute.
Ltac members H :=
  repeat (apply elem_of_cons in H as [->|H]); [..|apply elem_of_nil in H; contradiction].

(** On the network of [main]: the pipes c-d, d-e and d-g meet at ["d"]. *)
Lemma getNodePipes_fresh_list_witness :
  getNodePipes main_PN "d" main_world
  = Ok (List.length (list_objs main_world),
        set_list_objs (list_objs main_world ++ [[3; 5; 6]%nat]) main_world) /\
  list_objs main_world !! List.length (list_objs main_world) = None /\
  forall p, p ∈ [3; 5; 6]%nat <->
            p ∈ seq 0 10 /\
            exists P, pipe_objs main_world !! p = Some P /\
                      (Pipe.startNode P = "d"%string \/ Pipe.endNode P = "d"%string).
Proof.
  replace [3; 5; 6]%nat with (touching main_world "d" (seq 0 10))
    by (vm_compute; reflexivity).
  apply (getNodePipes_fresh_list main_PN "d" main_world (seq 0 10)).
  - vm_compute. reflexivity.
  - unfold valid_pipes. simpl seq. all_by_compute.
Defined.

(** On the network of [main], for the name ["d-e"]. *)
Lemma getPipe_first_match_witness :
  exists o, getPipe main_PN "d-e" main_world = Ok (o, main_world) /\
    match o with
    | Some p =>
        exists i, seq 0 10 !! i = Some p /\
                  pipe_name main_world p = Some "d-e"%string /\
                  forall j q, (j < i)%nat -> seq 0 10 !! j = Some q ->
                              pipe_name main_world q <> Some "d-e"%string
    | None => forall q, q ∈ seq 0 10 -> pipe_name main_world q <> Some "d-e"%string
    end.
Proof.
  apply (getPipe_first_match main_PN "d-e" main_world (seq 0 10)).
  - vm_compute. reflexivity.
  - unfold valid_pipes. simpl seq. all_by_compute.
Defined.

(** On the network of [main], for the name ["d"]. *)
Lemma getNode_first_match_witness :
  exists o, getNode main_PN "d" main_world = Ok (o, main_world) /\
    nodeBuilt main_PN "d" main_world
    = Ok (match o with Some _ => true | None => false end, main_world) /\
    match o with
    | Some n =>
        exists i, seq 0 8 !! i = Some n /\
                  node_name main_world n = Some "d"%string /\
                  forall j m, (j < i)%nat -> seq 0 8 !! j = Some m ->
                              node_name main_world m <> Some "d"%string
    | None => forall m, m ∈ seq 0 8 -> node_name main_world m <> Some "d"%string
    end.
Proof.
  apply (getNode_first_match main_PN "d" main_world (seq 0 8)).
  - vm_compute. reflexivity.
  - unfold valid_nodes. simpl seq. all_by_compute.
Defined.

(** On [Pipe('a', 'b')] and [Pipe('b', 'a')], both called ["a-b"]. *)
Lemma Name_identifies_endpoints_witness :
  Pipe.startNode (pipe_at twin_pipes_world 0%nat)
  = Pipe.startNode (pipe_at twin_pipes_world 1%nat) /\
  Pipe.endNode (pipe_at twin_pipes_world 0%nat)
  = Pipe.endNode (pipe_at twin_pipes_world 1%nat).
Proof.
  apply (Name_identifies_endpoints twin_pipes_world 0%nat 1%nat);
    vm_compute; reflexivity.
Defined.

(** On the same two pipes, for the second one. *)
Lemma getPipe_of_Name_witness :
  exists p' P',
    (let* n := Name 1%nat in getPipe main_PN n) twin_pipes_world
    = Ok (Some p', twin_pipes_world) /\
    p' ∈ [0; 1]%nat /\ pipe_objs twin_pipes_world !! p' = Some P' /\
    Pipe.startNode P' = Pipe.startNode (pipe_at twin_pipes_world 1%nat) /\
    Pipe.endNode P' = Pipe.endNode (pipe_at twin_pipes_world 1%nat).
Proof.
  apply (getPipe_of_Name main_PN twin_pipes_world [0; 1]%nat 1%nat).
  - vm_compute. reflexivity.
  - unfold valid_pipes. all_by_compute.
  - intros q Q Hq HQ. members Hq; vm_compute in HQ; injection HQ as <-; reflexivity.
  - apply elem_of_cons. right. apply elem_of_cons. left. reflexivity.
  - vm_compute. reflexivity.
Defined.

(** On the network of the pipes a-b and b-c, without nodes. *)
Lemma buildNodes_builds_endpoints_witness :
  exists w' added,
    buildNodes main_PN two_pipes_world = Ok (tt, w') /\
    network main_PN w' [0; 1]%nat ([] ++ added) /\
    grows main_PN two_pipes_world w' /\
    (forall p P, p ∈ [0; 1]%nat -> pipe_objs two_pipes_world !! p = Some P ->
       nodeBuilt main_PN (Pipe.startNode P) w' = Ok (true, w') /\
       nodeBuilt main_PN (Pipe.endNode P) w' = Ok (true, w')) /\
    (forall n, n ∈ [] ++ added ->
       n ∈ [] \/ built_node two_pipes_world w' [0; 1]%nat n).
Proof.
  apply (buildNodes_builds_endpoints main_PN two_pipes_world [0; 1]%nat []).
  network_by_compute.
Defined.

(** On the same network. *)
Lemma buildNodes_sound_witness :
  exists ns',
    network main_PN two_pipes_built [0; 1]%nat ns' /\
    sound main_PN two_pipes_built [0; 1]%nat ns' /\
    covered two_pipes_built [0; 1]%nat ns'.
Proof.
  apply (buildNodes_sound main_PN two_pipes_world [0; 1]%nat []).
  - network_by_compute.
  - split; constructor.
  - vm_compute. reflexivity.
Defined.

(** On the same network. *)
Lemma buildNodes_idempotent_witness :
  buildNodes main_PN two_pipes_built = Ok (tt, two_pipes_built).
Proof.
  apply (buildNodes_idempotent main_PN two_pipes_world [0; 1]%nat []).
  - network_by_compute.
  - vm_compute. reflexivity.
Defined.

(** On the network of [main], for the pipe c-d: it is in the lists of
    the nodes ["c"] and ["d"] and in no other. *)
Lemma pipe_joins_two_nodes_witness :
  exists a b A B la lb,
    a ∈ seq 0 8 /\ b ∈ seq 0 8 /\ a <> b /\
    node_objs main_world !! a = Some A /\ node_objs main_world !! b = Some B /\
    Node.name A = Pipe.startNode (pipe_at main_world 3%nat) /\
    Node.name B = Pipe.endNode (pipe_at main_world 3%nat) /\
    list_objs main_world !! Node.pipes A = Some la /\ 3%nat ∈ la /\
    list_objs main_world !! Node.pipes B = Some lb /\ 3%nat ∈ lb /\
    getFlowIntoNode 3%nat (Node.name A) main_world
    = Ok (- Pipe.Q (pipe_at main_world 3%nat), main_world) /\
    getFlowIntoNode 3%nat (Node.name B) main_world
    = Ok (Pipe.Q (pipe_at main_world 3%nat), main_world) /\
    forall n N l,
      n ∈ seq 0 8 -> node_objs main_world !! n = Some N ->
      list_objs main_world !! Node.pipes N = Some l -> 3%nat ∈ l ->
      n = a \/ n = b.
Proof.
  apply (pipe_joins_two_nodes main_PN main_world (seq 0 10) (seq 0 8) 3%nat
           (pipe_at main_world 3%nat)).
  - simpl seq. network_by_compute.
  - split.
    + apply (bool_decide_unpack _). vm_compute. exact I.
    + simpl seq.
      repeat (apply List.Forall_cons;
              [eexists; split; [vm_compute; reflexivity|];
               split; [vm_compute; discriminate|vm_compute; reflexivity]|]).
      apply List.Forall_nil.
  - intros p P Hp HP. simpl seq in Hp.
    members Hp; vm_compute in HP; injection HP as <-;
      split; apply named_names, (bool_decide_unpack _); vm_compute; exact I.
  - intros p P Hp HP. simpl seq in Hp.
    members Hp; vm_compute in HP; injection HP as <-; vm_compute; discriminate.
  - apply (bool_decide_unpack _). vm_compute. exact I.
  - vm_compute. reflexivity.
Defined.

Lemma build_node_names PN w ps ns name :
  network PN w ps ns ->
  exists w' ns',
    build_node PN name w = Ok (tt, w') /\ network PN w' ps ns' /\
    pipe_objs w' = pipe_objs w /\
    names w' ns' = first_seen (names w ns) name.
Proof.
  intros Hnet. unfold first_seen.
  destruct (decide (name ∈ names w ns)) as [Hin|Hnot].
  - rewrite bool_decide_eq_true_2 by exact Hin.
    apply named_names in Hin. exists w, ns.
    split; [exact (build_node_built PN w ps ns name Hnet Hin)|]. auto.
  - rewrite bool_decide_eq_false_2 by exact Hnot.
    rewrite <- named_names in Hnot.
    exists (node_added PN name ps ns w), (ns ++ [List.length (node_objs w)]).
    split; [exact (build_node_new PN w ps ns name Hnet Hnot)|].
    split; [exact (node_added_network PN w ps ns name Hnet)|].
    split; [reflexivity|].
    exact (node_added_names PN w ps ns name Hnet).
Qed.

Lemma build_nodes_from_names PN ps ps0 w ns :
  network PN w ps ns -> valid_pipes w ps0 ->
  exists w' ns',
    build_nodes_from PN ps0 w = Ok (tt, w') /\ network PN w' ps ns' /\
    names w' ns' = foldl first_seen (names w ns) (endpoints w ps0).
Proof.
  revert w ns. induction ps0 as [|p ps0 IH]; intros w ns Hnet Hvalid.
  - exists w, ns. auto.
  - inversion_clear Hvalid as [|? ? [P HP] Hps0].
    destruct (build_node_names PN w ps ns (Pipe.startNode P) Hnet)
      as (w1 & ns1 & Hb1 & Hnet1 & Hp1 & Hn1).
    destruct (build_node_names PN w1 ps ns1 (Pipe.endNode P) Hnet1)
      as (w2 & ns2 & Hb2 & Hnet2 & Hp2 & Hn2).
    assert (E : pipe_objs w2 = pipe_objs w) by congruence.
    destruct (IH w2 ns2 Hnet2) as (w3 & ns3 & Hb3 & Hnet3 & Hn3).
    { unfold valid_pipes. rewrite E. exact Hps0. }
    exists w3, ns3. split; [|split; [exact Hnet3|]].
    + simpl build_nodes_from.
      rewrite (bind_Ok_intro _ _ w P w) by (apply get_pipe_Ok; auto).
      rewrite (bind_Ok_intro _ _ _ _ _ Hb1).
      rewrite (bind_Ok_intro _ _ w1 P w1)
        by (apply get_pipe_Ok; split; [congruence|reflexivity]).
      rewrite (bind_Ok_intro _ _ _ _ _ Hb2). exact Hb3.
    + rewrite Hn3, Hn2, Hn1. unfold endpoints. rewrite E. simpl flat_map.
      rewrite HP. reflexivity.
Qed.

(** X13.  The order of the nodes.  [buildNodes] appends the nodes in the
    order in which their names first appear when the pipes are read in
    order, start node before end node; a name that a node of the network
    already has gets no second node. *)
Theorem buildNodes_order (PN : PipeNetwork.t) (w : World) (ps ns : list addr) :
  network PN w ps ns ->
  exists w' ns',
    buildNodes PN w = Ok (tt, w') /\
    list_objs w' !! PipeNetwork.nodes PN = Some ns' /\
    names w' ns' = foldl first_seen (names w ns) (endpoints w ps).
Proof.
  intros Hnet. pose proof Hnet as (Hps & _ & _ & Hvp & _).
  destruct (build_nodes_from_names PN ps ps w ns Hnet Hvp)
    as (w' & ns' & Hb & Hnet' & Hn).
  exists w', ns'. split; [|split; [apply Hnet'|exact Hn]].
  unfold buildNodes.
  rewrite (bind_Ok_intro _ _ w ps w) by (apply get_list_Ok; auto). exact Hb.
Qed.

(** On the network of the pipes a-b and b-c: the nodes a, b, c. *)
Lemma buildNodes_order_witness :
  exists w' ns',
    buildNodes main_PN two_pipes_world = Ok (tt, w') /\
    list_objs w' !! PipeNetwork.nodes main_PN = Some ns' /\
    names w' ns' = ["a"; "b"; "c"]%string.
Proof.
  replace ["a"; "b"; "c"]%string
    with (foldl first_seen (names two_pipes_world [])
            (endpoints two_pipes_world [0; 1]%nat))
    by (vm_compute; reflexivity).
  apply (buildNodes_order main_PN two_pipes_world [0; 1]%nat []).
  network_by_compute.
Defined.

(** The nodes of [main], in the order in which [buildNodes] creates
    them. *)
Example main_nodes_order :
  names main_world (seq 0 8) = ["a"; "b"; "c"; "e"; "d"; "f"; "g"; "h"]%string.
Proof. vm_compute. reflexivity. Qed.

(** *** Laminar flow *)

Section Laminar.

Variable fsolve : list Qc -> Solver.
Variable sqrt : Qc -> Qc.
Variable log10 : Qc -> Qc.

(** X5.  Laminar head loss.  For a pipe whose Reynolds number is at most
    2000 and not zero, [frictionHeadLoss] returns
    [32 * mu * L * vel / (rho * D^2 * g)] with [g = 9.81], the
    Hagen-Poiseuille law: the head loss is proportional to the stored
    velocity and has its sign; no deviate is drawn and the only change in
    the store is the Reynolds number stored in the pipe. *)
Theorem frictionHeadLoss_laminar (w : World) (self : addr) (p : Pipe.t) :
  pipe_objs w !! self = Some p ->
  Fluid.mu (Pipe.fluid p) <> 0 ->
  Pipe.diameter p <> 0 ->
  let Re := Fluid.rho (Pipe.fluid p) * Pipe.vel p * Pipe.diameter p
            / Fluid.mu (Pipe.fluid p) in
  Re <> 0 ->
  Re <= lit 2000 ->
  frictionHeadLoss fsolve sqrt log10 self w
  = Ok (lit 32 * Fluid.mu (Pipe.fluid p) * Pipe.length p * Pipe.vel p
        / (Fluid.rho (Pipe.fluid p) * sq (Pipe.diameter p) * lit 9.81),
        evaluated self p Re false w).
Proof.
  intros Hp Hmu HD Re HRe H2.
  rewrite frictionHeadLoss_head_loss_of, Hp.
  unfold head_loss_of, friction_of, reynolds_of.
  rewrite (pydiv_nonzero _ _ Hmu). fold Re. simpl Res_bind.
  rewrite (pydiv_nonzero _ _ HD). simpl Res_bind.
  rewrite regime_laminar by exact H2. unfold lam.
  rewrite (pydiv_nonzero _ _ HRe). simpl Res_bind.
  rewrite (pydiv_nonzero _ _ HD). simpl Res_bind.
  do 2 f_equal. f_equal.
  assert (Hrho : Fluid.rho (Pipe.fluid p) <> 0).
  { intros E. apply HRe. unfold Re. rewrite E. unfold Qcdiv. ring. }
  assert (Hvel : Pipe.vel p <> 0).
  { intros E. apply HRe. unfold Re. rewrite E. unfold Qcdiv. ring. }
  assert (H981 : lit 9.81 <> 0) by (apply lit_nonzero; reflexivity).
  assert (H2' : lit 2 <> 0) by (apply lit_nonzero; reflexivity).
  replace (lit 64) with (lit 32 * lit 2) by qc_eq.
  unfold Re, sq. field. repeat split; assumption.
Qed.

End Laminar.

(** On the pipe [Pipe('b', 'a')] at Reynolds number 1000, where the
    velocity is 0.00445 m/s. *)
Lemma frictionHeadLoss_laminar_witness :
  value (frictionHeadLoss fsolve_once sqrt_id log10_id 0%nat
           (world_at_Re (lit 1000) 0))
  = Ok (lit 32 * lit 0.00089 * lit 100 * lit 0.00445
        / (lit 1000 * sq (lit 0.2) * lit 9.81)).
Proof.
  rewrite (frictionHeadLoss_laminar fsolve_once sqrt_id log10_id
             (world_at_Re (lit 1000) 0) 0%nat
             (pipe_at (world_at_Re (lit 1000) 0) 0%nat)).
  - simpl value. f_equal; try qc_eq.
  - vm_compute. reflexivity.
  - qc_neq.
  - qc_neq.
  - qc_neq.
  - vm_compute. discriminate.
Defined.

Lemma find_pipe_eq name ps : returns_in eq (find_pipe name ps).
Proof. induction ps as [|p ps IH]; simpl; unfold Name; frame. Qed.

Lemma find_node_eq name ns : returns_in eq (find_node name ns).
Proof. induction ns as [|n ns IH]; simpl; frame. Qed.

(** X2.  The methods that only look things up change nothing: whenever
    [Name], [oContainsNode], [getFlowIntoNode], [getNetFlowRate],
    [getNodeFlowRates], [getPipe], [nodeBuilt] or [getNode] returns, the
    store is the one in which it was called. *)
Theorem queries_read_only (PN : PipeNetwork.t) (p n : addr) (s : string) :
  returns_in eq (Name p) /\
  returns_in eq (oContainsNode p s) /\
  returns_in eq (getFlowIntoNode p s) /\
  returns_in eq (getNetFlowRate n) /\
  returns_in eq (getNodeFlowRates PN) /\
  returns_in eq (getPipe PN s) /\
  returns_in eq (nodeBuilt PN s) /\
  returns_in eq (getNode PN s).
Proof.
  repeat split.
  - unfold Name. frame.
  - unfold oContainsNode. frame.
  - unfold getFlowIntoNode. frame.
  - apply returns_in_eq_getNetFlowRate.
  - unfold getNodeFlowRates. frame.
    apply comprehension_hydro_any; [typeclasses eauto|].
    apply returns_in_eq_getNetFlowRate.
  - unfold getPipe. frame. apply find_pipe_eq.
  - unfold nodeBuilt. frame. apply find_node_eq.
  - unfold getNode. frame. apply find_node_eq.
Qed.

(** Without the condition on hyphens two pipes with different endpoints
    can have the same name: [Pipe('a', 'b-c')] and [Pipe('a-b', 'c')] are
    both called ["a-b-c"]. *)
Example Name_collision :
  value ((let* p := Pipe_init "a" "b-c" (lit 100) (lit 200) (lit 0.00025)
                              Fluid_default in Name p)
           (module_loaded (constant_gauss 0)))
  = value ((let* p := Pipe_init "a-b" "c" (lit 100) (lit 200) (lit 0.00025)
                                Fluid_default in Name p)
             (module_loaded (constant_gauss 0))).
Proof. vm_compute. reflexivity. Qed.
